(** * Wapiti: the RPROP optimizer of [rprop.c] and the lines of [ioline.c]

    A shallow embedding of [trn_rpropsub] (the partial weight update) and
    [trn_rprop] (the training loop), and the properties of them that the
    specification states.

    The C [double] is IEEE 754 binary64 with rounding to nearest, ties to
    even, every operation rounded to binary64 (no extended precision, no
    fused multiply-add).  It is modelled by Rocq's primitive floats, whose
    operations are the kernel's binary64 operations and are specified by
    [FloatAxioms] over [SpecFloat].  The update rule is written once over a
    small interface of scalar operations, [Scalar]; its instance [binary64]
    is what the program runs, its instance [exactQ] reads the same rule in
    exact rational arithmetic.  [size_t] is the 64-bit unsigned integer,
    [int] and [unsigned] are 32 bits wide.

    The second part embeds [iol_gets] and [iol_sprint] of [ioline.c], the
    reading and the printing of lines, over a model of the C library. *)

From Stdlib Require Import Strings.String Strings.Byte.
From Stdlib Require Import ZArith QArith Lqa Lia Bool Floats.
From Stdlib Require Uint63.
From stdpp Require Import base list.

Set Warnings "-inexact-float".
Open Scope Z_scope.

(** ** Scalars *)

(** What [rprop.c] does with a [double]: the constants [0.0], [1.0] and [0.1],
    [+], [-], [*], unary minus, and the comparisons [<] and [==], [<=] (the C
    operators [>], [>=] and [!=] are these with their operands exchanged, or
    negated). *)
Class Scalar (D : Type) : Type := MkScalar {
  d_zero : D;
  d_one : D;
  d_tenth : D;
  d_add : D -> D -> D;
  d_sub : D -> D -> D;
  d_mul : D -> D -> D;
  d_neg : D -> D;
  d_ltb : D -> D -> bool;
  d_leb : D -> D -> bool;
  d_eqb : D -> D -> bool
}.

(** The [double] of the program. *)
#[export] Instance binary64 : Scalar float := {|
  d_zero := 0%float;
  d_one := 1%float;
  d_tenth := 0.1%float;
  d_add := PrimFloat.add;
  d_sub := PrimFloat.sub;
  d_mul := PrimFloat.mul;
  d_neg := PrimFloat.opp;
  d_ltb := PrimFloat.ltb;
  d_leb := PrimFloat.leb;
  d_eqb := PrimFloat.eqb
|}.

Definition Qltb (a b : Q) : bool :=
  match Qcompare a b with Lt => true | _ => false end.

(** Exact rational arithmetic: no rounding, no infinities, no NaN. *)
#[export] Instance exactQ : Scalar Q := {|
  d_zero := 0%Q;
  d_one := 1%Q;
  d_tenth := (1 # 10)%Q;
  d_add := Qplus;
  d_sub := Qminus;
  d_mul := Qmult;
  d_neg := Qopp;
  d_ltb := Qltb;
  d_leb := Qle_bool;
  d_eqb := Qeq_bool
|}.

Declare Scope scalar_scope.
Delimit Scope scalar_scope with D.
Notation "a + b" := (d_add a b) : scalar_scope.
Notation "a - b" := (d_sub a b) : scalar_scope.
Notation "a * b" := (d_mul a b) : scalar_scope.
Notation "- a" := (d_neg a) : scalar_scope.
Notation "a <? b" := (d_ltb a b) : scalar_scope.
Notation "a >? b" := (d_ltb b a) : scalar_scope.
Notation "a >=? b" := (d_leb b a) : scalar_scope.
Notation "a <=? b" := (d_leb a b) : scalar_scope.
Notation "a =? b" := (d_eqb a b) : scalar_scope.
Notation "a !=? b" := (negb (d_eqb a b)) (at level 70) : scalar_scope.

(** ** The partial weight update, one feature *)

(** The options [trn_rpropsub] reads: [mdl->opt->rprop.stpmin], [.stpmax],
    [.stpinc], [.stpdec] and [mdl->opt->rho1]. *)
Record opt (D : Type) : Type := MkOpt {
  stpmin : D;
  stpmax : D;
  stpinc : D;
  stpdec : D;
  rho1 : D
}.
Arguments MkOpt {D}.
Arguments stpmin {D}.
Arguments stpmax {D}.
Arguments stpinc {D}.
Arguments stpdec {D}.
Arguments rho1 {D}.

(** The entries of index [f] of the five arrays: [x[f]] (the weight,
    [mdl->theta]), [g[f]], [gp[f]], [stp[f]] and [dlt[f]]. *)
Record cell (D : Type) : Type := MkCell {
  cx : D;
  cg : D;
  cgp : D;
  cstp : D;
  cdlt : D
}.
Arguments MkCell {D}.
Arguments cx {D}.
Arguments cg {D}.
Arguments cgp {D}.
Arguments cstp {D}.
Arguments cdlt {D}.

(** Which arm of the [if (gp[f] * pg > 0.0) .. else if (gp[f] * pg < 0.0) ..
    else ..] statement runs. *)
Inductive branch : Set := Agree | Disagree | Neutral.

Section Rprop.
Context {D : Type} `{Scalar D}.
Local Open Scope scalar_scope.

(** [#define sign(v) ((v) < 0.0 ? -1.0 : ((v) > 0.0 ? 1.0 : 0.0))] *)
Definition sign (v : D) : D :=
  if v <? d_zero then - d_one else if v >? d_zero then d_one else d_zero.

(** Modelled from the spec: the macros [min] and [max] of [tools.h], which is
    not among the sources.  The spec writes [min(stp × stepIncreaseFactor,
    stepMax)] and [max(stp × stepDecreaseFactor, stepMin)]; they are taken as
    the usual comparison macros, [((a) < (b) ? (a) : (b))] and
    [((a) < (b) ? (b) : (a))]. *)
Definition d_min (a b : D) : D := if a <? b then a else b.

Definition d_max (a b : D) : D := if a <? b then b else a.

(** [const bool l1 = rho1 != 0.0;] *)
Definition l1 (o : opt D) : bool := rho1 o !=? d_zero.

(** Lines 92-99: the pseudo-gradient [pg] of a feature of weight [x] and
    gradient [g]. *)
Definition pseudo_gradient (o : opt D) (x g : D) : D :=
  let pg := g in
  if l1 o then
    if x <? d_zero then pg - rho1 o
    else if x >? d_zero then pg + rho1 o
    else if g <? - rho1 o then pg + rho1 o
    else if g >? rho1 o then pg - rho1 o
    else d_zero
  else pg.

Definition branch_of (gp pg : D) : branch :=
  if gp * pg >? d_zero then Agree
  else if gp * pg <? d_zero then Disagree
  else Neutral.

(** Lines 107-108 and 116-117: [if (l1 && dlt[f] * pg >= 0.0) dlt[f] = 0.0;] *)
Definition project (o : opt D) (dlt pg : D) : D :=
  if l1 o && (dlt * pg >=? d_zero) then d_zero else dlt.

(** Lines 104-119: the three arms, before [gp[f] = g[f]]. *)
Definition rprop_arm (o : opt D) (pg : D) (c : cell D) : cell D :=
  match branch_of (cgp c) pg with
  | Agree =>
      let stp' := d_min (cstp c * stpinc o) (stpmax o) in
      let dlt' := project o (stp' * - sign (cg c)) pg in
      {| cx := cx c + dlt'; cg := cg c; cgp := cgp c; cstp := stp'; cdlt := dlt' |}
  | Disagree =>
      let stp' := d_max (cstp c * stpdec o) (stpmin o) in
      {| cx := cx c - cdlt c; cg := d_zero; cgp := cgp c; cstp := stp'; cdlt := cdlt c |}
  | Neutral =>
      let dlt' := project o (cstp c * - sign pg) pg in
      {| cx := cx c + dlt'; cg := cg c; cgp := cgp c; cstp := cstp c; cdlt := dlt' |}
  end.

(** Line 120: [gp[f] = g[f];] *)
Definition carry (c : cell D) : cell D :=
  {| cx := cx c; cg := cg c; cgp := cg c; cstp := cstp c; cdlt := cdlt c |}.

(** The body of the loop of [trn_rpropsub] (lines 92-120) on the entries of
    one feature. *)
Definition rprop_cell (o : opt D) (c : cell D) : cell D :=
  carry (rprop_arm o (pseudo_gradient o (cx c) (cg c)) c).

(** The arm the update of [c] takes. *)
Definition cell_branch (o : opt D) (c : cell D) : branch :=
  branch_of (cgp c) (pseudo_gradient o (cx c) (cg c)).

(** The gradient provider stores a fresh [g[f]]. *)
Definition feed (g : D) (c : cell D) : cell D :=
  {| cx := cx c; cg := g; cgp := cgp c; cstp := cstp c; cdlt := cdlt c |}.


(** The entries of a feature when [trn_rprop] enters its loop: [gp[f] = 0.0]
    and [stp[f] = 0.1]; the weight [x] is the model's, [g] and [dlt] hold what
    [xvm_new] left there. *)
Definition cell_init (x g dlt : D) : cell D :=
  {| cx := x; cg := g; cgp := d_zero; cstp := d_tenth; cdlt := dlt |}.

(** The successive updates of one feature, the gradient provider storing the
    gradients [gs] one after the other. *)
Definition run_cell (o : opt D) (c : cell D) (gs : list D) : cell D :=
  foldl (fun c g => rprop_cell o (feed g c)) c gs.

End Rprop.

(** ** The partial weight update, a range of features *)

(** The arrays [trn_rpropsub] works on: [x = mdl->theta] and the four arrays
    of [rprop_t], all of [F = mdl->nftr] entries. *)
Record mem (D : Type) : Type := MkMem {
  theta : list D;
  grad : list D;
  gprev : list D;
  step : list D;
  delta : list D
}.
Arguments MkMem {D}.
Arguments theta {D}.
Arguments grad {D}.
Arguments gprev {D}.
Arguments step {D}.
Arguments delta {D}.

(** [size_t] is a 64-bit unsigned integer; its arithmetic wraps around. *)
Definition size_max : Z := 2 ^ 64.

Definition to_size_t (z : Z) : Z := z mod size_max.

(** [const size_t from = F * id / cnt;] with [F] a [size_t] and [id], [cnt]
    of type [int], converted to [size_t] by the multiplication and the
    division. *)
Definition range_from (F id cnt : Z) : Z :=
  to_size_t (F * to_size_t id) / to_size_t cnt.

(** [const size_t to = F * (id + 1) / cnt;] *)
Definition range_to (F id cnt : Z) : Z :=
  to_size_t (F * to_size_t (id + 1)) / to_size_t cnt.

Section Arrays.
Context {D : Type} `{Scalar D}.

(** The entries of feature [f]; [None] past the end of an array. *)
Definition load (m : mem D) (f : nat) : option (cell D) :=
  match theta m !! f, grad m !! f, gprev m !! f, step m !! f, delta m !! f with
  | Some x, Some g, Some gp, Some stp, Some dlt => Some (MkCell x g gp stp dlt)
  | _, _, _, _, _ => None
  end.

Definition store (m : mem D) (f : nat) (c : cell D) : mem D :=
  {| theta := <[f := cx c]> (theta m);
     grad := <[f := cg c]> (grad m);
     gprev := <[f := cgp c]> (gprev m);
     step := <[f := cstp c]> (step m);
     delta := <[f := cdlt c]> (delta m) |}.

(** One turn of the loop of [trn_rpropsub], at index [f].  The program only
    runs it with [f < F], inside the arrays. *)
Definition rprop_at (o : opt D) (m : mem D) (f : nat) : mem D :=
  match load m f with
  | Some c => store m f (rprop_cell o c)
  | None => m
  end.

(** [for (size_t f = from; f < to; f++) ..] *)
Definition rprop_range (o : opt D) (from to : nat) (m : mem D) : mem D :=
  foldl (rprop_at o) m (seq from (to - from)).

(** [trn_rpropsub(job, id, cnt, st)] for a model of [F] features. *)
Definition trn_rpropsub (o : opt D) (F id cnt : Z) (m : mem D) : mem D :=
  rprop_range o (Z.to_nat (range_from F id cnt)) (Z.to_nat (range_to F id cnt)) m.

(** Modelled from the spec: the dispatch primitive [mth_spawn] of [thread.h],
    which is not among the sources: "invokes the function once per worker id
    in [0, W), each receiving (id, W, argument); blocks the caller until all W
    invocations complete".  The workers are run one after the other, in the
    order of their ids. *)
Definition mth_spawn (o : opt D) (F : Z) (W : nat) (m : mem D) : mem D :=
  foldl (fun m id => trn_rpropsub o F (Z.of_nat id) (Z.of_nat W) m) m (seq 0 W).

(** The gradient provider overwrites [g]. *)
Definition set_grad (g : list D) (m : mem D) : mem D :=
  {| theta := theta m; grad := g; gprev := gprev m; step := step m; delta := delta m |}.

(** Lines 129-134 of [trn_rprop]: [gp[f] = 0.0; stp[f] = 0.1;] for every [f];
    [g] and [dlt] come from [xvm_new] with whatever they hold.  The counter of
    that loop is an [unsigned] (32 bits) compared with the [size_t] [F]: with
    [F >= 2^32] it wraps around before it reaches [F] and the loop never ends,
    which is the [None] here. *)
Definition rprop_init (F : Z) (x g dlt : list D) : option (mem D) :=
  if (F <? 2 ^ 32)%Z then
    Some {| theta := x; grad := g;
            gprev := replicate (Z.to_nat F) d_zero;
            step := replicate (Z.to_nat F) d_tenth;
            delta := dlt |}
  else None.

End Arrays.

(** ** The training loop *)

(** What the loop of [trn_rprop] did, in order. *)
Inductive event : Set :=
  | EvGradient (k : nat)
  | EvUpdate (k : nat)
  | EvProgress (k : nat).

(** Modelled from the spec: the collaborators of [trn_rprop] that are not
    among the sources.  [grd_gradient] is the gradient provider ("a call
    taking the model/weight vector .. returning the aggregated gradient
    vector (length F) and a scalar objective value"), here a function of the
    iteration and of the weights; [uit_stop] is the cooperative stop flag, set
    asynchronously, of which the loop takes two readings per iteration, one in
    the loop condition and one after the gradient; [uit_progress] is the
    progress callback, "invoked once per completed iteration with (iteration
    index, objective value); returns a boolean continue training signal". *)
Record collaborators (D : Type) : Type := MkCollab {
  grd_gradient : nat -> list D -> list D * D;
  uit_stop_head : nat -> bool;
  uit_stop_grad : nat -> bool;
  uit_progress : nat -> D -> bool
}.
Arguments MkCollab {D}.
Arguments grd_gradient {D}.
Arguments uit_stop_head {D}.
Arguments uit_stop_grad {D}.
Arguments uit_progress {D}.

Section Loop.
Context {D : Type} `{Scalar D}.

(** Lines 151-158: [for (int k = 0; !uit_stop && k < K; k++) ..], from
    iteration [k] with [n = K - k] iterations left. *)
Fixpoint rprop_loop (e : collaborators D) (o : opt D) (F : Z) (W : nat)
    (n k : nat) (m : mem D) (tr : list event) : mem D * list event :=
  match n with
  | O => (m, tr)
  | S n' =>
      if uit_stop_head e k then (m, tr)
      else
        let '(g, fx) := grd_gradient e k (theta m) in
        let m1 := set_grad g m in
        let tr1 := tr ++ [EvGradient k] in
        if uit_stop_grad e k then (m1, tr1)
        else
          let m2 := mth_spawn o F W m1 in
          let tr2 := tr1 ++ [EvUpdate k] in
          if uit_progress e (k + 1) fx
          then rprop_loop e o F W n' (S k) m2 (tr2 ++ [EvProgress k])
          else (m2, tr2 ++ [EvProgress k])
  end.

(** [trn_rprop(mdl)]: the arrays at the end, and what the loop did; [None]
    when the initialisation does not end. *)
Definition trn_rprop (e : collaborators D) (o : opt D) (F : Z) (W K : nat)
    (x g dlt : list D) : option (mem D * list event) :=
  match rprop_init F x g dlt with
  | Some m => Some (rprop_loop e o F W K 0 m [])
  | None => None
  end.

End Loop.

(** The events of a complete iteration [k]: the gradient, the partial weight
    updates and the progress report. *)
Definition iteration_events (k : nat) : list event :=
  [EvGradient k; EvUpdate k; EvProgress k].

(** The events of the [j] complete iterations [k], [k + 1], .. *)
Definition iterations (k j : nat) : list event :=
  flat_map iteration_events (seq k j).

(** ** The states of a training run *)

(** The arrays that a run of [trn_rprop] for a model of [F] features can hold
    between two steps: those the initialisation leaves, all of [F] entries,
    and from there any sequence of gradients stored by the provider and of
    partial weight updates. *)
Inductive reachable {D : Type} `{Scalar D} (o : opt D) (F : Z) : mem D -> Prop :=
  | reach_init (x g dlt : list D) (m : mem D) :
      length x = Z.to_nat F -> length g = Z.to_nat F ->
      length dlt = Z.to_nat F ->
      rprop_init F x g dlt = Some m -> reachable o F m
  | reach_gradient (g : list D) (m : mem D) :
      length g = Z.to_nat F ->
      reachable o F m -> reachable o F (set_grad g m)
  | reach_update (id cnt : Z) (m : mem D) :
      reachable o F m -> reachable o F (trn_rpropsub o F id cnt m).

(** In exact arithmetic, the bounds on the options under which the step sizes
    stay between [stpmin] and [stpmax]. *)
Definition sane_optQ (o : opt Q) : Prop :=
  (0 <= stpmin o /\ stpmin o <= 1 # 10 /\ 1 # 10 <= stpmax o /\
   1 <= stpinc o /\ stpdec o <= 1)%Q.

Definition in_boundsQ (o : opt Q) (s : Q) : Prop :=
  (stpmin o <= s /\ s <= stpmax o)%Q.

(** ** The classical rule, from the specification *)

Section Classical.
Context {D : Type} `{Scalar D}.
Local Open Scope scalar_scope.

(** The sign of the specification: "sign(v) returns -1 for v<0, +1 for v>0,
    and 0 for v=0 exactly".  It follows these words, not the macro of the
    code; a NaN, which is none of the three and which the specification
    leaves open, is given [0]. *)
Definition three_way_sign (v : D) : D :=
  if v <? d_zero then - d_one
  else if v >? d_zero then d_one
  else d_zero.

(** The classical RPROP update of one feature, as section 4.2 of the
    specification words it when there is no L1 term: the pseudo-gradient is
    the gradient itself, [dlt = -sign(g) × stp] with the sign of the
    specification, and no orthant guard.  It follows the specification, not
    the code. *)
Definition classical_rprop (o : opt D) (c : cell D) : cell D :=
  let g := cg c in
  if cgp c * g >? d_zero then
    let stp' := d_min (cstp c * stpinc o) (stpmax o) in
    let dlt' := - three_way_sign g * stp' in
    {| cx := cx c + dlt'; cg := g; cgp := g; cstp := stp'; cdlt := dlt' |}
  else if cgp c * g <? d_zero then
    let stp' := d_max (cstp c * stpdec o) (stpmin o) in
    {| cx := cx c - cdlt c; cg := d_zero; cgp := d_zero; cstp := stp'; cdlt := cdlt c |}
  else
    let dlt' := - three_way_sign g * cstp c in
    {| cx := cx c + dlt'; cg := g; cgp := g; cstp := cstp c; cdlt := dlt' |}.

End Classical.

(** ** Binary64: the notions the proofs use *)

(** A shifted mantissa that lost no bit: neither the round nor the sticky bit
    is set. *)
Definition shr_exact (mrs : shr_record) : bool := negb (shr_r mrs || shr_s mrs).

(** What [binary_round_aux] does with the rounded mantissa [m] at exponent
    [e]: a second shift, in case rounding added a digit, and the test for
    overflow. *)
Definition finalize (s : bool) (m e : Z) : spec_float :=
  let '(mrs, e') := shr_fexp prec emax m e loc_Exact in
  match shr_m mrs with
  | Z0 => S754_zero s
  | Zpos m' => if e' <=? emax - prec then S754_finite s m' e' else S754_infinity s
  | Zneg _ => S754_nan
  end.

(** The value of a mantissa [m] at exponent [e], scaled by [2^2148]. *)
Definition scaled (m e : Z) : Z := m * 2 ^ (e + 2148).

(** The place of a float that is not a NaN in the order: its class (from
    [-inf] to [+inf]), then its exponent and mantissa. *)
Definition rank (x : spec_float) : option (Z * Z * Z) :=
  match x with
  | S754_nan => None
  | S754_infinity true => Some (-2, 0, 0)
  | S754_finite true m e => Some (-1, - e, Zneg m)
  | S754_zero _ => Some (0, 0, 0)
  | S754_finite false m e => Some (1, e, Zpos m)
  | S754_infinity false => Some (2, 0, 0)
  end.

(** The lexicographic order of the ranks. *)
Definition lex_lt (p q : Z * Z * Z) : Prop :=
  let '(a, b, c) := p in
  let '(a', b', c') := q in
  a < a' \/ (a = a' /\ (b < b' \/ (b = b' /\ c < c'))).

Definition lex_le (p q : Z * Z * Z) : Prop := lex_lt p q \/ p = q.

(** [1.0], that is [2^52 * 2^-52]. *)
Definition SF_one : spec_float := S754_finite false 4503599627370496 (-52).

(** The options under which the step sizes stay between [stpmin] and
    [stpmax] in binary64: [0 <= stpmin <= 0.1 <= stpmax < inf],
    [stpinc >= 1] and [0 <= stpdec <= 1]. *)
Definition sane_opt64 (o : opt float) : bool :=
  ((0 <=? stpmin o) && (stpmin o <=? 0.1) && (0.1 <=? stpmax o) &&
   (stpmax o <? infinity) && (1 <=? stpinc o) &&
   (0 <=? stpdec o) && (stpdec o <=? 1))%float.

(** [stpmin <= s <= stpmax]. *)
Definition in_bounds64 (o : opt float) (s : float) : bool :=
  ((stpmin o <=? s) && (s <=? stpmax o))%float.

(** [-stpmax <= d <= stpmax]. *)
Definition in_reach64 (o : opt float) (d : float) : bool :=
  ((- stpmax o <=? d) && (d <=? stpmax o))%float.

(** * Lines of input and output: [ioline.c]

    [iol_gets] reads a line of any length from a [FILE], in a buffer that it
    enlarges as it goes; [iol_sprint] formats a message in a buffer that it
    doubles until the message fits, and forwards it.  Both are written over
    the C library, which is modelled from the C standard; [xmalloc] and
    [xrealloc] of [tools.c], which is not among the sources, are taken to
    return the memory asked for. *)

(** ['\n'] and ['\0']. *)
Definition newline : byte := "010"%byte.

Definition nul : byte := "000"%byte.

(** Why the behaviour of a call is undefined: an array is read outside its
    bounds, at [index]; or a [double] is converted to an integer type that
    cannot represent its integral part. *)
Inductive fault : Set :=
  | OutOfBounds (index : Z)
  | Unrepresentable.

(** How a call ends: it returns; it stops the program through [fatal] or
    [pfatal] with a message; its behaviour is undefined.  [OutOfFuel] is the
    answer of a loop of the model that was not given turns enough. *)
Inductive outcome (A : Type) : Type :=
  | Returns (a : A)
  | Fatal (msg : string)
  | Undefined (why : fault)
  | OutOfFuel.
Arguments Returns {A}.
Arguments Fatal {A}.
Arguments Undefined {A}.
Arguments OutOfFuel {A}.

(** [uint32_t] arithmetic wraps around. *)
Definition to_uint32 (z : Z) : Z := z mod 2 ^ 32.

(** ** The C library *)

(** A [FILE] open for reading: the bytes that are still to be read, whether
    a read error, rather than the end of the file, follows them, and the
    error indicator of the stream. *)
Record file : Type := MkFile {
  pending : list byte;
  failing : bool;
  error_flag : bool
}.

(** At most [k] bytes of [l], up to and including the first new-line: the
    bytes taken, those left, and whether the end of [l] was hit while more
    was wanted. *)
Fixpoint read_chunk (k : nat) (l : list byte) : list byte * list byte * bool :=
  match k with
  | O => ([], l, false)
  | S k' =>
      match l with
      | [] => ([], [], true)
      | b :: l' =>
          if Byte.eqb b newline then ([b], l', false)
          else let '(c, r, e) := read_chunk k' l' in (b :: c, r, e)
      end
  end.

(** [fgets(s, n, stream)] (C11 7.21.7.2) "reads at most one less than the
    number of characters specified by [n] ..  No additional characters are
    read after a new-line character (which is retained) or after
    end-of-file.  A null character is written immediately after the last
    character read"; it returns [s], or a null pointer "if end-of-file is
    encountered and no characters have been read" or "if a read error occurs
    during the operation".  The result here is the characters stored before
    the null character, or [None] for the null pointer. *)
Definition fgets (n : Z) (f : file) : option (list byte) * file :=
  let '(c, r, e) := read_chunk (Z.to_nat (n - 1)) (pending f) in
  if e then
    if failing f then (None, MkFile [] true true)
    else match c with
         | [] => (None, MkFile [] false (error_flag f))
         | _ => (Some c, MkFile [] false (error_flag f))
         end
  else (Some c, MkFile r (failing f) (error_flag f)).

(** [ferror(stream)] tests the error indicator. *)
Definition ferror (f : file) : bool := error_flag f.

(** The string that starts where [l] is stored, [l] being followed by a null
    character: the bytes before the first null character. *)
Fixpoint c_string (l : list byte) : list byte :=
  match l with
  | [] => []
  | b :: l' => if Byte.eqb b nul then [] else b :: c_string l'
  end.

(** [strlen]. *)
Definition strlen (l : list byte) : Z := Z.of_nat (length (c_string l)).

(** The integral part of a [double] (C11 6.3.1.4: "the fractional part is
    discarded"); none for an infinity or a NaN. *)
Definition float_to_Z (x : float) : option Z :=
  match Prim2SF x with
  | S754_zero _ => Some 0
  | S754_finite s m e =>
      let a := if 0 <=? e then Zpos m * 2 ^ e else Zpos m / 2 ^ (- e) in
      Some (if s then - a else a)
  | _ => None
  end.

(** [INT_MAX]. *)
Definition int_max : Z := 2 ^ 31 - 1.

(** [vsnprintf(s, n, format, arg)] (C11 7.21.6.12) writes at most [n - 1]
    characters of the formatted message and a null character, and "returns
    the number of characters that would have been written had [n] been
    sufficiently large, not counting the terminating null character, or a
    negative value if an encoding error occurred"; a message whose length no
    [int] can hold is an error as well.  [text] is the formatted message,
    [None] when the conversion fails; the result is what the buffer holds
    before the null character, and the value returned. *)
Definition vsnprintf (size : Z) (text : option (list byte)) : list byte * Z :=
  match text with
  | Some t =>
      if Z.of_nat (length t) <=? int_max
      then (take (Z.to_nat (size - 1)) t, Z.of_nat (length t))
      else ([], -1)
  | None => ([], -1)
  end.

(** ** [iol_gets] *)

(** Line 301: [size = size * 1.4;] with [size] a [uint32_t]: the product is
    computed in [double], and its conversion back to [uint32_t] is undefined
    when its integral part is [2^32] or more, which is the [None] here. *)
Definition grow (size : Z) : option Z :=
  match float_to_Z (PrimFloat.mul (PrimFloat.of_uint63 (Uint63.of_Z size)) 1.4%float) with
  | Some z => if (0 <=? z) && (z <? 2 ^ 32) then Some z else None
  | None => None
  end.

(** Lines 310-312, after the loop: [if (buffer[len - 1] == '\n')
    buffer[--len] = '\0'; return xrealloc(buffer, len + 1);].  [buffer] holds
    the [len] bytes read so far, which no null character interrupts; the
    array of the program has a null character after them, and then bytes that
    are never read.  With [len = 0] the index [len - 1] wraps around to
    [2^32 - 1], past the end of the array. *)
Definition iol_gets_end (len : Z) (buffer : list byte) (f : file) :
    outcome (option (list byte)) * file :=
  let i := to_uint32 (len - 1) in
  match buffer !! Z.to_nat i with
  | None => (Undefined (OutOfBounds i), f)
  | Some b =>
      if Byte.eqb b newline
      then (Returns (Some (take (Z.to_nat (to_uint32 (len - 1))) buffer)), f)
      else (Returns (Some buffer), f)
  end.

(** Lines 283-306, the loop [for(;;)]: one chunk is read by [fgets] at
    [buffer + len]; the loop goes on, with a larger buffer, when the chunk
    filled the buffer and did not end with a new-line. *)
Fixpoint iol_gets_loop (fuel : nat) (len size : Z) (buffer : list byte) (f : file) :
    outcome (option (list byte)) * file :=
  match fuel with
  | O => (OutOfFuel, f)
  | S fuel' =>
      match fgets (to_uint32 (size - len)) f with
      | (None, f') =>
          if ferror f' then (Fatal "cannot read from file", f')
          else if len =? 0 then (Returns None, f')
          else iol_gets_end len buffer f'
      | (Some chunk, f') =>
          let buffer' := buffer ++ c_string chunk in
          let len' := to_uint32 (len + strlen chunk) in
          let i := to_uint32 (len' - 1) in
          if len' =? to_uint32 (size - 1) then
            match buffer' !! Z.to_nat i with
            | None => (Undefined (OutOfBounds i), f')
            | Some b =>
                if negb (Byte.eqb b newline) then
                  match grow size with
                  | Some size' => iol_gets_loop fuel' len' size' buffer' f'
                  | None => (Undefined Unrepresentable, f')
                  end
                else iol_gets_end len' buffer' f'
            end
          else iol_gets_end len' buffer' f'
      end
  end.

(** [iol_gets(in)]: the line read, [None] for the null pointer, and the file
    after the call.  The buffer starts with 16 bytes; 64 turns are more than
    the loop ever takes. *)
Definition iol_gets (f : file) : outcome (option (list byte)) * file :=
  iol_gets_loop 64 0 16 [] f.

(** ** [iol_sprint] *)

(** Lines 338-352, the loop [while (1)]: [fatal] when the buffer has reached
    16384 bytes; else the message is formatted, and the loop ends when it
    fits, or goes on with a buffer twice as large.  The result is what
    [write_cb] is given, the buffer and [n]. *)
Fixpoint iol_sprint_loop (fuel : nat) (size : Z) (text : option (list byte)) :
    outcome (list byte * Z) :=
  match fuel with
  | O => OutOfFuel
  | S fuel' =>
      if 16384 <=? size then Fatal "iol_sprintf"
      else
        let '(p, n) := vsnprintf size text in
        if (-1 <? n) && (to_size_t n <? size) then Returns (p, n)
        else iol_sprint_loop fuel' (to_size_t (size * 2)) text
  end.

(** [iol_sprint(out, msg, ...)], for the message that [msg] and its arguments
    format to: the loop starts with 128 bytes, and takes 8 turns at most. *)
Definition iol_sprint (text : option (list byte)) : outcome (list byte * Z) :=
  iol_sprint_loop 8 128 text.

(** ** Notions the proofs use *)

(** A byte that is neither a new-line nor a null character, and a sequence
    of such bytes. *)
Definition plain_byte (b : byte) : bool :=
  negb (Byte.eqb b newline) && negb (Byte.eqb b nul).

Definition plain (l : list byte) : bool := forallb plain_byte l.

(** What [strlen] finds after [fgets]: nothing, or bytes that are not null
    of which only the last can be a new-line. *)
Definition semi (p : list byte) : Prop :=
  p = [] \/ exists p0 x, p = p0 ++ [x] /\ plain p0 = true /\ Byte.eqb x nul = false.

(** A line of [t] bytes and its new-line fit a buffer of [size] bytes, or one
    of the [k] buffers that follow it, each larger than the one before. *)
Fixpoint fits (k : nat) (size t : Z) : bool :=
  (t + 1 <? size) ||
  match k with
  | O => false
  | S k' =>
      match grow size with
      | Some size' => (size <? size') && fits k' size' t
      | None => false
      end
  end.

(** From [size] on the buffers grow, until one can grow no more, which
    happens within [k] steps. *)
Fixpoint chain (k : nat) (size : Z) : bool :=
  match grow size with
  | None => true
  | Some size' =>
      (size <? size') &&
      match k with
      | O => false
      | S k' => chain k' size'
      end
  end.

(** The longest line that the largest buffer holds with its new-line: the
    58th buffer has 3179820411 bytes, and the next size is not a
    [uint32_t]. *)
Definition longest_line : Z := 3179820409.

(** * Properties *)

(** ** Facts of binary64 arithmetic *)

Lemma SFmul_comm (x y : spec_float) : SF64mul x y = SF64mul y x.
Proof.
  unfold SF64mul.
  destruct x as [sx|sx| |sx mx ex], y as [sy|sy| |sy my ey]; simpl;
    rewrite ?(xorb_comm sx sy); try reflexivity.
  now rewrite Pos.mul_comm, Z.add_comm.
Qed.

Lemma float_mul_comm (a b : float) : (a * b = b * a)%float.
Proof. apply Prim2SF_inj. rewrite !mul_spec. apply SFmul_comm. Qed.

(** [0.0 * y] is a zero or a NaN: neither below nor above [0.0]. *)
Lemma float_zero_mul_sign (y : float) :
  ((0 * y <? 0) = false /\ (0 <? 0 * y) = false)%float.
Proof.
  rewrite !ltb_spec, mul_spec. change (Prim2SF 0%float) with (S754_zero false).
  destruct (Prim2SF y) as [s|s| |s m e]; split; reflexivity.
Qed.

(** A [double] is below zero, above zero, equal to zero ([+0.0] or [-0.0]) or
    a NaN, and only one of the four. *)
Lemma float_sign_cases (x : float) :
  match (x <? 0)%float, (0 <? x)%float, (x =? 0)%float, is_nan x with
  | true, false, false, false
  | false, true, false, false
  | false, false, true, false
  | false, false, false, true => True
  | _, _, _, _ => False
  end.
Proof.
  unfold is_nan. rewrite !FloatAxioms.ltb_spec, !FloatAxioms.eqb_spec.
  change (Prim2SF 0%float) with (S754_zero false).
  destruct (Prim2SF x) as [s|s| |s m e]; try destruct s; cbn; try exact I.
  all: unfold SFeqb, SFcompare; rewrite ?Z.compare_refl, ?Pos.compare_cont_refl;
    cbn; exact I.
Qed.

(** *** The digits of a mantissa *)
Lemma digits2_pos_bounds (m : positive) :
  2 ^ (Zpos (digits2_pos m) - 1) <= Zpos m < 2 ^ Zpos (digits2_pos m).
Proof.
  induction m as [m IH|m IH|]; cbn [digits2_pos].
  - rewrite Pos2Z.inj_succ.
    replace (Z.succ (Zpos (digits2_pos m)) - 1) with (Zpos (digits2_pos m) - 1 + 1) by lia.
    rewrite Z.pow_succ_r by lia.
    destruct (Z.eq_dec (Zpos (digits2_pos m)) 1) as [E|E].
    + rewrite E in *. cbn in *. lia.
    + rewrite Z.pow_add_r by lia. lia.
  - rewrite Pos2Z.inj_succ.
    replace (Z.succ (Zpos (digits2_pos m)) - 1) with (Zpos (digits2_pos m) - 1 + 1) by lia.
    rewrite Z.pow_succ_r by lia.
    rewrite Z.pow_add_r by lia. lia.
  - cbn. lia.
Qed.

Lemma Zdigits2_bounds (m : Z) :
  0 < m -> 2 ^ (Zdigits2 m - 1) <= m < 2 ^ Zdigits2 m.
Proof. destruct m; try lia. intros _. apply digits2_pos_bounds. Qed.

(** *** Shifting a mantissa right *)
Lemma iter_pos_nat {A} (f : A -> A) (p : positive) (x : A) :
  SpecFloat.iter_pos f p x = Nat.iter (Pos.to_nat p) f x.
Proof.
  revert x. induction p as [p IH|p IH|]; intros x; cbn [SpecFloat.iter_pos].
  - rewrite !IH, Pos2Nat.inj_xI, Nat.iter_succ_r.
    replace (2 * Pos.to_nat p)%nat with (Pos.to_nat p + Pos.to_nat p)%nat by lia.
    now rewrite Nat.iter_add.
  - rewrite !IH, Pos2Nat.inj_xO.
    replace (2 * Pos.to_nat p)%nat with (Pos.to_nat p + Pos.to_nat p)%nat by lia.
    now rewrite Nat.iter_add.
  - reflexivity.
Qed.

(** One shift halves the mantissa, and loses no bit so far when none was
    lost before and the mantissa was even. *)
Lemma shr_1_spec (mrs : shr_record) :
  0 <= shr_m mrs ->
  shr_m (shr_1 mrs) = shr_m mrs / 2 /\
  shr_exact (shr_1 mrs) = shr_exact mrs && Z.even (shr_m mrs).
Proof.
  destruct mrs as [m r s]. unfold shr_exact. cbn [shr_m shr_r shr_s].
  intros Hm. destruct m as [|[p|p|]|p]; try lia; cbn [shr_1 shr_m shr_r shr_s];
    (split; [|destruct r, s; reflexivity]).
  - reflexivity.
  - rewrite Pos2Z.inj_xI. apply (Z.div_unique _ _ _ 1); lia.
  - rewrite Pos2Z.inj_xO. apply (Z.div_unique _ _ _ 0); lia.
  - reflexivity.
Qed.

(** Divisibility by [2^(k+1)], a bit at a time. *)
Lemma mod_pow2_succ (P k : Z) :
  0 <= k -> (P mod 2 ^ (k + 1) =? 0) = (P mod 2 ^ k =? 0) && Z.even (P / 2 ^ k).
Proof.
  intros Hk. rewrite Z.pow_add_r, Z.pow_1_r by lia.
  assert (H2 : 0 < 2 ^ k) by (apply Z.pow_pos_nonneg; lia).
  rewrite Z.rem_mul_r by lia.
  pose proof (Z.mod_pos_bound P (2 ^ k) H2).
  pose proof (Z.mod_pos_bound (P / 2 ^ k) 2 ltac:(lia)).
  rewrite Zeven_mod.
  destruct (Z.eqb_spec (P mod 2 ^ k) 0), (Z.eqb_spec ((P / 2 ^ k) mod 2) 0); cbn;
    apply Z.eqb_eq || apply Z.eqb_neq; nia.
Qed.

(** [k] shifts divide the mantissa by [2^k], exactly so when [2^k] divides
    it. *)
Lemma shr_iter_spec (P : Z) (k : nat) :
  0 <= P ->
  shr_m (Nat.iter k shr_1 (Build_shr_record P false false)) = P / 2 ^ Z.of_nat k /\
  shr_exact (Nat.iter k shr_1 (Build_shr_record P false false)) =
    (P mod 2 ^ Z.of_nat k =? 0).
Proof.
  intros HP. induction k as [|k IH].
  - cbn. rewrite Z.div_1_r, Z.mod_1_r. auto.
  - rewrite Nat.iter_succ. destruct IH as [IHm IHe].
    set (mrs := Nat.iter k shr_1 _) in *.
    assert (Hm : 0 <= shr_m mrs).
    { rewrite IHm. apply Z.div_pos; [lia | apply Z.pow_pos_nonneg; lia]. }
    destruct (shr_1_spec mrs Hm) as [Sm Se].
    rewrite Sm, Se, IHm, IHe, Nat2Z.inj_succ.
    replace (Z.succ (Z.of_nat k)) with (Z.of_nat k + 1) by lia.
    split.
    + rewrite Z.pow_add_r, Z.pow_1_r by lia.
      rewrite Z.div_div; [reflexivity | | lia].
      apply Z.pow_nonzero; lia.
    + symmetry. apply mod_pow2_succ. lia.
Qed.

(** The exponent of a binary64 number of which [e] is the position of the
    leading digit: 53 digits, and never below [-1074]. *)
Lemma fexp64 (e : Z) : fexp prec emax e = Z.max (e - 53) (-1074).
Proof. reflexivity. Qed.

(** [shr] by [n]: a division by [2^n] when [n > 0], nothing otherwise. *)
Lemma shr_spec (P e n : Z) :
  0 <= P ->
  shr_m (fst (shr (Build_shr_record P false false) e n)) = P / 2 ^ Z.max n 0 /\
  snd (shr (Build_shr_record P false false) e n) = e + Z.max n 0 /\
  shr_exact (fst (shr (Build_shr_record P false false) e n)) =
    (P mod 2 ^ Z.max n 0 =? 0).
Proof.
  intros HP. destruct n as [|p|p]; cbn [shr fst snd].
  - cbn. rewrite Z.div_1_r, Z.mod_1_r, Z.add_0_r. auto.
  - rewrite iter_pos_nat. replace (Z.max (Zpos p) 0) with (Z.of_nat (Pos.to_nat p)) by lia.
    destruct (shr_iter_spec P (Pos.to_nat p) HP) as [Hm He].
    rewrite Hm, He. repeat split. lia.
  - cbn. rewrite Z.div_1_r, Z.mod_1_r, Z.add_0_r. auto.
Qed.

(** Rounding to nearest moves the shifted mantissa up by one at most, and
    leaves it alone when the shift was exact. *)
Lemma round_nearest_even_spec (mrs : shr_record) :
  let m2 := round_nearest_even (shr_m mrs) (loc_of_shr_record mrs) in
  shr_m mrs <= m2 <= shr_m mrs + 1 /\ (shr_exact mrs = true -> m2 = shr_m mrs).
Proof.
  destruct mrs as [m [|] [|]]; unfold shr_exact; cbn; try destruct (Z.even m);
    split; try lia; discriminate.
Qed.

(** [binary_round_aux] on an exact mantissa [P] at exponent [E]: a shift by
    [n] digits, a rounded mantissa [m2] within one of [P / 2^n], and
    [finalize]. *)
Lemma binary_round_aux_spec (s : bool) (P E : Z) :
  0 < P ->
  let n := Z.max (fexp prec emax (Zdigits2 P + E) - E) 0 in
  exists m2,
    P / 2 ^ n <= m2 <= P / 2 ^ n + 1 /\
    (P mod 2 ^ n = 0 -> m2 = P / 2 ^ n) /\
    binary_round_aux prec emax s P E loc_Exact = finalize s m2 (E + n).
Proof.
  intros HP n.
  unfold binary_round_aux, shr_fexp at 1. cbn [shr_record_of_loc].
  destruct (shr_spec P E (fexp prec emax (Zdigits2 P + E) - E) ltac:(lia))
    as (Hm & He & Hx).
  fold n in Hm, He, Hx.
  destruct (shr _ E _) as [mrs e1]. cbn [fst snd] in *. subst e1.
  pose proof (round_nearest_even_spec mrs) as [Hr1 Hr2]. cbn zeta in *.
  exists (round_nearest_even (shr_m mrs) (loc_of_shr_record mrs)).
  rewrite <- Hm. split; [exact Hr1|]. split.
  - intros H0. apply Hr2. rewrite Hx. now apply Z.eqb_eq.
  - reflexivity.
Qed.

(** [finalize] on a mantissa of at most 53 digits, or on [2^53]. *)
Lemma finalize_spec (s : bool) (m e : Z) :
  0 <= m <= 2 ^ 53 -> -1074 <= e ->
  finalize s m e =
    if m =? 0 then S754_zero s
    else if m =? 2 ^ 53
         then if e + 1 <=? 971 then S754_finite s (2 ^ 52) (e + 1) else S754_infinity s
         else if e <=? 971 then S754_finite s (Z.to_pos m) e else S754_infinity s.
Proof.
  intros Hm He. unfold finalize, shr_fexp. cbn [shr_record_of_loc].
  destruct (Z.eqb_spec m 0) as [->|Hm0].
  - cbn [Zdigits2]. rewrite fexp64.
    assert (Hn : Z.max (0 + e - 53) (-1074) - e <= 0) by lia.
    destruct (Z.max (0 + e - 53) (-1074) - e) as [|p|p]; try lia; reflexivity.
  - destruct (Z.eqb_spec m (2 ^ 53)) as [->|Hm53].
    + change (Zdigits2 (2 ^ 53)) with 54. rewrite fexp64.
      replace (Z.max (54 + e - 53) (-1074) - e) with 1 by lia.
      cbn [shr SpecFloat.iter_pos shr_1]. cbn [shr_m].
      change (emax - prec) with 971. reflexivity.
    + assert (Hd : Zdigits2 m <= 53).
      { pose proof (Zdigits2_bounds m ltac:(lia)) as [Hlo _].
        apply Z.nlt_ge. intros Hc.
        assert (2 ^ 53 <= 2 ^ (Zdigits2 m - 1)) by (apply Z.pow_le_mono_r; lia). lia. }
      rewrite fexp64.
      assert (Hn : Z.max (Zdigits2 m + e - 53) (-1074) - e <= 0) by lia.
      destruct (Z.max (Zdigits2 m + e - 53) (-1074) - e) as [|p|p] eqn:En; try lia;
        cbn [shr shr_m]; destruct m as [|m'|m']; try lia;
        change (emax - prec) with 971; reflexivity.
Qed.

(** A valid finite binary64 number [m * 2^e]: the exponent is in range, the
    mantissa has at most 53 digits, and exactly 53 unless [e] is the least
    exponent (subnormal numbers). *)
Lemma bounded_spec (m : positive) (e : Z) :
  bounded prec emax m e = true ->
  -1074 <= e <= 971 /\ Zpos m < 2 ^ 53 /\ (-1074 < e -> 2 ^ 52 <= Zpos m).
Proof.
  unfold bounded, canonical_mantissa. rewrite fexp64. change (emax - prec) with 971.
  intros H. apply andb_prop in H as [Hc He].
  apply Z.eqb_eq in Hc. apply Z.leb_le in He.
  pose proof (digits2_pos_bounds m) as [Hlo Hhi].
  set (d := Zpos (digits2_pos m)) in *.
  assert (Hd : d <= 53) by lia.
  split; [lia|]. split.
  - assert (2 ^ d <= 2 ^ 53) by (apply Z.pow_le_mono_r; lia). lia.
  - intros He'. replace d with 53 in Hlo by lia. exact Hlo.
Qed.

Lemma pow2_pos (k : Z) : 0 <= k -> 0 < 2 ^ k.
Proof. intros. apply Z.pow_pos_nonneg; lia. Qed.

Lemma scaled_scale (m e t : Z) : 0 <= t -> -2148 <= e -> scaled (m * 2 ^ t) e = scaled m (e + t).
Proof.
  intros Ht He. unfold scaled. replace (e + t + 2148) with (t + (e + 2148)) by lia.
  rewrite (Z.pow_add_r 2 t (e + 2148)) by lia. ring.
Qed.

Lemma scaled_mono (m m' e : Z) : -2148 <= e -> m <= m' -> scaled m e <= scaled m' e.
Proof.
  intros He Hm. unfold scaled. apply Z.mul_le_mono_nonneg_r; [|exact Hm].
  pose proof (pow2_pos (e + 2148)). lia.
Qed.

Lemma scaled_mono_e (m e e' : Z) : 0 <= m -> -2148 <= e <= e' -> scaled m e <= scaled m e'.
Proof.
  intros Hm He. unfold scaled. apply Z.mul_le_mono_nonneg_l; [exact Hm|].
  apply Z.pow_le_mono_r; lia.
Qed.

Lemma scaled_le_cancel (m m' e : Z) : -2148 <= e -> scaled m e <= scaled m' e -> m <= m'.
Proof.
  unfold scaled. intros He H. pose proof (pow2_pos (e + 2148) ltac:(lia)). nia.
Qed.

(** Two valid positive numbers compare as their values do. *)
Lemma SFleb_of_value (m1 m2 : positive) (e1 e2 : Z) :
  bounded prec emax m1 e1 = true -> bounded prec emax m2 e2 = true ->
  scaled (Zpos m1) e1 <= scaled (Zpos m2) e2 ->
  SFleb (S754_finite false m1 e1) (S754_finite false m2 e2) = true.
Proof.
  intros B1 B2 HV.
  apply bounded_spec in B1 as (He1 & Hm1 & Hn1).
  apply bounded_spec in B2 as (He2 & Hm2 & Hn2).
  unfold SFleb, SFcompare.
  destruct (Z.compare_spec e1 e2) as [->|Hlt|Hgt].
  - apply scaled_le_cancel in HV; [|lia].
    rewrite Pos.compare_cont_spec. cbn [Pos.switch_Eq].
    destruct (Pos.compare_spec m1 m2); try reflexivity; lia.
  - reflexivity.
  - exfalso. specialize (Hn1 ltac:(lia)).
    assert (H1 : scaled (2 ^ 53) e2 <= scaled (Zpos m1) e1).
    { replace (2 ^ 53) with (2 ^ 52 * 2 ^ 1) by reflexivity.
      rewrite scaled_scale by lia.
      transitivity (scaled (2 ^ 52) e1); [apply scaled_mono_e; lia | apply scaled_mono; lia]. }
    assert (H2 : scaled (2 ^ 53) e2 <= scaled (Zpos m2) e2) by lia.
    apply scaled_le_cancel in H2; lia.
Qed.

(** *** Rounding the product of two mantissas *)

Section Round.
Variables ma mb ea eb : Z.
Hypothesis Hma : 0 < ma < 2 ^ 53.
Hypothesis Hea : -1074 <= ea <= 971.
Hypothesis Hmb : 0 < mb < 2 ^ 53.
Hypothesis Heb : -1074 <= eb <= 971.

Let P := ma * mb.
Let E := ea + eb.
Let n := Z.max (fexp prec emax (Zdigits2 P + E) - E) 0.

(** The shift [n], the exponent [E + n] and the shifted mantissa [P / 2^n] of
    the product of [ma * 2^ea] by [mb * 2^eb]. *)
Lemma round_facts :
  0 < P /\ 0 <= n /\ -1074 <= E + n /\ P / 2 ^ n < 2 ^ 53 /\
  (0 < n -> ea < E + n -> 2 ^ 52 <= P / 2 ^ n).
Proof using Hma Hea Hmb Heb.
  assert (HP : 0 < P) by (subst P; nia).
  pose proof (Zdigits2_bounds P HP) as [Hlo Hhi].
  subst n. rewrite fexp64. set (d := Zdigits2 P) in *.
  set (n := Z.max (Z.max (d + E - 53) (-1074) - E) 0).
  assert (Hn : 0 <= n) by lia.
  assert (H2n : 0 < 2 ^ n) by (apply pow2_pos; lia).
  split; [exact HP|]. split; [exact Hn|]. split; [lia|]. split.
  - apply Z.div_lt_upper_bound; [exact H2n|].
    assert (2 ^ d <= 2 ^ (n + 53)) by (apply Z.pow_le_mono_r; lia).
    assert (2 ^ (n + 53) = 2 ^ n * 2 ^ 53) by (apply Z.pow_add_r; lia). lia.
  - intros Hn0 Hlt. assert (Hn' : n = d - 53) by lia.
    apply Z.div_le_lower_bound; [exact H2n|].
    replace (d - 1) with (n + 52) in Hlo by lia.
    assert (2 ^ (n + 52) = 2 ^ n * 2 ^ 52) by (apply Z.pow_add_r; lia). lia.
Qed.

(** Rounding a product by a factor of at least one. *)
Lemma round_ge (m2 : Z) :
  2 ^ 52 <= mb -> -52 <= eb ->
  P / 2 ^ n <= m2 <= P / 2 ^ n + 1 ->
  0 < m2 <= 2 ^ 53 /\ scaled ma ea <= scaled m2 (E + n).
Proof using Hma Hea Hmb Heb.
  intros Hb1 Hb2 Hm2.
  destruct round_facts as (HP & Hn & He1 & Hm1 & Hnorm).
  assert (H2n : 0 < 2 ^ n) by (apply pow2_pos; lia).
  assert (HV : scaled ma ea <= scaled P E).
  { transitivity (scaled (ma * 2 ^ 52) (ea - 52)).
    - rewrite scaled_scale by lia. replace (ea - 52 + 52) with ea by lia. lia.
    - transitivity (scaled P (ea - 52)); [apply scaled_mono; subst P; nia|].
      apply scaled_mono_e; subst E; lia. }
  assert (Hge : scaled ma ea <= scaled (P / 2 ^ n) (E + n)).
  { destruct (Z_le_gt_dec (E + n) ea) as [Hle|Hgt].
    - set (t := ea - (E + n)).
      replace ea with (E + n + t) by (subst t; lia).
      rewrite <- scaled_scale by (subst t; lia). apply scaled_mono; [lia|].
      apply Z.div_le_lower_bound; [exact H2n|].
      apply (scaled_le_cancel _ _ E); [subst E; lia|].
      replace (2 ^ n * (ma * 2 ^ t)) with (ma * 2 ^ t * 2 ^ n) by ring.
      rewrite !scaled_scale by (subst t E; lia).
      replace (E + n + t) with ea by (subst t; lia). exact HV.
    - destruct (Z.eq_dec n 0) as [Hn0|Hn0].
      { rewrite Hn0, Z.add_0_r. change (2 ^ 0) with 1. now rewrite Z.div_1_r. }
      pose proof (Hnorm ltac:(lia) ltac:(lia)) as H52.
      transitivity (scaled (2 ^ 53) ea); [apply scaled_mono; lia|].
      replace (2 ^ 53) with (2 ^ 52 * 2 ^ 1) by reflexivity.
      rewrite scaled_scale by lia.
      transitivity (scaled (2 ^ 52) (E + n)); [apply scaled_mono_e; lia | apply scaled_mono; lia]. }
  assert (Hge2 : scaled ma ea <= scaled m2 (E + n)).
  { transitivity (scaled (P / 2 ^ n) (E + n)); [exact Hge | apply scaled_mono; lia]. }
  split; [|exact Hge2].
  split; [|lia].
  destruct (Z_lt_le_dec 0 m2) as [|Hm0]; [assumption|exfalso].
  assert (scaled m2 (E + n) <= scaled 0 (E + n)) by (apply scaled_mono; lia).
  assert (scaled 1 ea <= scaled ma ea) by (apply scaled_mono; lia).
  unfold scaled in *. pose proof (pow2_pos (ea + 2148) ltac:(lia)). lia.
Qed.

(** Rounding a product by a factor of at most one. *)
Lemma round_le (m2 : Z) :
  eb <= -53 \/ (eb = -52 /\ mb <= 2 ^ 52) ->
  P / 2 ^ n <= m2 <= P / 2 ^ n + 1 ->
  (P mod 2 ^ n = 0 -> m2 = P / 2 ^ n) ->
  0 <= m2 <= 2 ^ 53 /\ scaled m2 (E + n) <= scaled ma ea /\ E + n <= ea.
Proof using Hma Hea Hmb Heb.
  intros Hb Hm2 Hex.
  destruct round_facts as (HP & Hn & He1 & Hm1 & Hnorm).
  assert (H2n : 0 < 2 ^ n) by (apply pow2_pos; lia).
  assert (HV : scaled P E <= scaled ma ea).
  { transitivity (scaled (ma * 2 ^ 53) (ea - 53)).
    - destruct Hb as [Hb|[-> Hb]].
      + transitivity (scaled P (ea - 53)); [apply scaled_mono_e; subst P E; nia|].
        apply scaled_mono; subst P; nia.
      + subst E. replace (ma * 2 ^ 53) with (ma * 2 ^ 52 * 2 ^ 1) by (cbn; lia).
        rewrite scaled_scale by lia. replace (ea - 53 + 1) with (ea + -52) by lia.
        apply scaled_mono; subst P; nia.
    - rewrite scaled_scale by lia. replace (ea - 53 + 53) with ea by lia. lia. }
  assert (Hdm : P = 2 ^ n * (P / 2 ^ n) + P mod 2 ^ n) by (apply Z.div_mod; lia).
  pose proof (Z.mod_pos_bound P (2 ^ n) H2n) as Hmod.
  assert (Hle : E + n <= ea).
  { apply Z.nlt_ge. intros Hgt.
    assert (Hn0 : 0 < n) by (subst E; lia).
    pose proof (Hnorm Hn0 Hgt) as H52.
    assert (scaled (2 ^ 53) ea <= scaled (P / 2 ^ n) (E + n)).
    { replace (2 ^ 53) with (2 ^ 52 * 2 ^ 1) by reflexivity.
      rewrite scaled_scale by lia.
      transitivity (scaled (2 ^ 52) (E + n)); [apply scaled_mono_e; lia | apply scaled_mono; lia]. }
    assert (scaled (P / 2 ^ n) (E + n) <= scaled P E).
    { rewrite <- scaled_scale by (subst E; lia). apply scaled_mono; [subst E; lia|]. nia. }
    assert (scaled (2 ^ 53) ea <= scaled ma ea) by lia.
    apply scaled_le_cancel in H1; lia. }
  split; [split; [|lia]|split; [|exact Hle]].
  - assert (0 <= P / 2 ^ n) by (apply Z.div_pos; lia). lia.
  - set (t := ea - (E + n)).
    replace ea with (E + n + t) by (subst t; lia).
    rewrite <- (scaled_scale ma) by (subst t; lia). apply scaled_mono; [lia|].
    assert (HK : P <= 2 ^ n * (ma * 2 ^ t)).
    { apply (scaled_le_cancel _ _ E); [subst E; lia|].
      replace (2 ^ n * (ma * 2 ^ t)) with (ma * 2 ^ t * 2 ^ n) by ring.
      rewrite !scaled_scale by (subst t E; lia).
      replace (E + n + t) with ea by (subst t; lia). exact HV. }
    destruct (Z.eq_dec (P mod 2 ^ n) 0) as [H0|H0].
    + rewrite (Hex H0). nia.
    + assert (P / 2 ^ n < ma * 2 ^ t) by nia. lia.
Qed.

End Round.

(** *** The order of the floats *)

Lemma SFcompare_rank (x y : spec_float) :
  match SFcompare x y, rank x, rank y with
  | Some Lt, Some p, Some q => lex_lt p q
  | Some Eq, Some p, Some q => p = q
  | Some Gt, Some p, Some q => lex_lt q p
  | None, None, _ | None, _, None => True
  | _, _, _ => False
  end.
Proof.
  destruct x as [[|]|[|]| |[|] m1 e1], y as [[|]|[|]| |[|] m2 e2];
    cbn -[Z.compare Z.opp]; try lia; try exact I; try reflexivity.
  - destruct (Z.compare_spec e1 e2) as [->|H|H]; cbn; try lia.
    rewrite Pos.compare_cont_spec; cbn [Pos.switch_Eq].
    destruct (Pos.compare_spec m1 m2) as [->|H|H]; cbn; try reflexivity; lia.
  - destruct (Z.compare_spec e1 e2) as [->|H|H]; cbn; try lia.
    rewrite Pos.compare_cont_spec; cbn [Pos.switch_Eq].
    destruct (Pos.compare_spec m1 m2) as [->|H|H]; cbn; try reflexivity; lia.
Qed.

Lemma SFleb_iff (x y : spec_float) :
  SFleb x y = true <-> exists p q, rank x = Some p /\ rank y = Some q /\ lex_le p q.
Proof.
  unfold SFleb, lex_le. pose proof (SFcompare_rank x y) as H.
  destruct (SFcompare x y) as [[| |]|], (rank x) as [p|], (rank y) as [q|];
    try contradiction; split; try discriminate; try reflexivity;
    try (intros _; exists p, q; auto);
    try (intros (p' & q' & Hp & Hq & Hl); congruence).
  intros (p' & q' & [= <-] & [= <-] & Hl).
  destruct p as [[a b] c], q as [[a' b'] c']. cbn in *.
  destruct Hl as [Hl|[= -> -> ->]]; lia.
Qed.

Lemma SFltb_iff (x y : spec_float) :
  SFltb x y = true <-> exists p q, rank x = Some p /\ rank y = Some q /\ lex_lt p q.
Proof.
  unfold SFltb. pose proof (SFcompare_rank x y) as H.
  destruct (SFcompare x y) as [[| |]|], (rank x) as [p|], (rank y) as [q|];
    try contradiction; split; try discriminate; try reflexivity;
    try (intros _; exists p, q; auto);
    try (intros (p' & q' & Hp & Hq & Hl); congruence).
  - intros (p' & q' & [= <-] & [= <-] & Hl). subst q.
    destruct p as [[a b] c]. cbn in *. lia.
  - intros (p' & q' & [= <-] & [= <-] & Hl).
    destruct p as [[a b] c], q as [[a' b'] c']. cbn in *. lia.
Qed.

Lemma lex_le_trans (p q r : Z * Z * Z) : lex_le p q -> lex_le q r -> lex_le p r.
Proof.
  unfold lex_le. destruct p as [[a b] c], q as [[a' b'] c'], r as [[a'' b''] c''].
  intros [H1|[= -> -> ->]] [H2|[= -> -> ->]]; auto. left. cbn in *. lia.
Qed.

Lemma lex_total (p q : Z * Z * Z) : lex_lt p q \/ lex_le q p.
Proof.
  unfold lex_le. destruct p as [[a b] c], q as [[a' b'] c']. cbn.
  destruct (Z.lt_trichotomy a a') as [|[->|]]; try lia.
  destruct (Z.lt_trichotomy b b') as [|[->|]]; try lia.
  destruct (Z.lt_trichotomy c c') as [|[->|]]; try lia.
  right. right. reflexivity.
Qed.

Section Order.
Local Open Scope float_scope.

(** [<=] on the doubles is transitive, [<] implies [<=], and a double that
    compares with another is not a NaN, so it compares with itself. *)
Lemma float_leb_trans (a b c : float) :
  (a <=? b) = true -> (b <=? c) = true -> (a <=? c) = true.
Proof.
  rewrite !leb_spec, !SFleb_iff.
  intros (p & q & Hp & Hq & H1) (q' & r & Hq' & Hr & H2).
  exists p, r. repeat split; auto. rewrite Hq in Hq'. injection Hq' as <-.
  eapply lex_le_trans; eassumption.
Qed.

Lemma float_ltb_leb (a b : float) : (a <? b) = true -> (a <=? b) = true.
Proof.
  rewrite ltb_spec, leb_spec, SFleb_iff, SFltb_iff.
  intros (p & q & Hp & Hq & H). exists p, q. repeat split; auto. now left.
Qed.

Lemma float_leb_refl_l (a b : float) : (a <=? b) = true -> (a <=? a) = true.
Proof.
  rewrite !leb_spec, !SFleb_iff.
  intros (p & q & Hp & Hq & H). exists p, p. repeat split; auto. now right.
Qed.

Lemma float_leb_refl_r (a b : float) : (a <=? b) = true -> (b <=? b) = true.
Proof.
  rewrite !leb_spec, !SFleb_iff.
  intros (p & q & Hp & Hq & H). exists q, q. repeat split; auto. now right.
Qed.

(** Two floats of which neither is a NaN are comparable. *)
Lemma float_nlt_leb (a b : float) :
  (a <=? a) = true -> (b <=? b) = true -> (a <? b) = false -> (b <=? a) = true.
Proof.
  rewrite ltb_spec, !leb_spec, !SFleb_iff.
  intros (p & _ & Hp & _ & _) (q & _ & Hq & _ & _) Hlt.
  exists q, p. repeat split; auto.
  destruct (lex_total p q) as [H|H]; [|exact H].
  assert (SFltb (Prim2SF a) (Prim2SF b) = true) by (apply SFltb_iff; eauto).
  congruence.
Qed.
End Order.

(** *** Products by a factor above or below one *)

(** Comparison of positives, read on the integers. *)
Lemma compare_cont_Z (a b : positive) :
  Pos.compare_cont Eq a b = (Zpos a ?= Zpos b).
Proof.
  rewrite Pos.compare_cont_spec. change (Zpos a ?= Zpos b) with (a ?= b)%positive.
  now destruct (a ?= b)%positive.
Qed.

(** A valid [mb * 2^eb >= 1.0] has a full mantissa and an exponent of at least
    [-52]. *)
Lemma one_le_finite (mb : positive) (eb : Z) :
  bounded prec emax mb eb = true ->
  SFleb SF_one (S754_finite false mb eb) = true ->
  2 ^ 52 <= Zpos mb /\ -52 <= eb.
Proof.
  intros Hb. apply bounded_spec in Hb as (He & Hm & Hn).
  unfold SFleb, SF_one, SFcompare. rewrite compare_cont_Z.
  change (Zpos 4503599627370496) with (2 ^ 52).
  destruct (Z.compare_spec (-52) eb) as [<-|H|H]; try discriminate.
  - destruct (Z.compare_spec (2 ^ 52) (Zpos mb)) as [H|H|H]; try discriminate;
      intros _; split; lia.
  - intros _. split; [apply Hn|]; lia.
Qed.

(** A valid [mb * 2^eb <= 1.0] has an exponent below [-52], or is [1.0] or
    less at exponent [-52]. *)
Lemma finite_le_one (mb : positive) (eb : Z) :
  bounded prec emax mb eb = true ->
  SFleb (S754_finite false mb eb) SF_one = true ->
  eb <= -53 \/ (eb = -52 /\ Zpos mb <= 2 ^ 52).
Proof.
  intros Hb. apply bounded_spec in Hb as (He & Hm & Hn).
  unfold SFleb, SF_one, SFcompare. rewrite compare_cont_Z.
  change (Zpos 4503599627370496) with (2 ^ 52).
  destruct (Z.compare_spec eb (-52)) as [->|H|H]; try discriminate.
  - destruct (Z.compare_spec (Zpos mb) (2 ^ 52)) as [H|H|H]; try discriminate;
      intros _; right; split; lia.
  - intros _. left. lia.
Qed.

(** The product of two finite positive numbers, through
    [binary_round_aux_spec]. *)
Lemma SFmul_finite (ma mb : positive) (ea eb : Z) :
  exists m2,
    let P := Zpos ma * Zpos mb in
    let E := ea + eb in
    let n := Z.max (fexp prec emax (Zdigits2 P + E) - E) 0 in
    P / 2 ^ n <= m2 <= P / 2 ^ n + 1 /\
    (P mod 2 ^ n = 0 -> m2 = P / 2 ^ n) /\
    SF64mul (S754_finite false ma ea) (S754_finite false mb eb) =
      finalize false m2 (E + n).
Proof.
  unfold SF64mul, SFmul. cbn [xorb].
  destruct (binary_round_aux_spec false (Zpos (ma * mb)) (ea + eb) ltac:(lia))
    as (m2 & H1 & H2 & H3).
  exists m2. cbn zeta. rewrite Pos2Z.inj_mul in *. auto.
Qed.

(** The product of a finite [a > 0] by [b >= 1], rounded, is at least [a]. *)
Lemma SFmul_finite_ge (ma mb : positive) (ea eb : Z) :
  let a := S754_finite false ma ea in
  let b := S754_finite false mb eb in
  bounded prec emax ma ea = true -> bounded prec emax mb eb = true ->
  SFleb SF_one b = true -> valid_binary (SF64mul a b) = true ->
  SFleb a (SF64mul a b) = true.
Proof.
  intros a b Ha Hb H1 Hv. subst a b.
  destruct (one_le_finite mb eb Hb H1) as [Hmb Heb].
  pose proof (bounded_spec ma ea Ha) as (Hea & Hma & _).
  pose proof (bounded_spec mb eb Hb) as (Heb' & Hmb' & _).
  destruct (SFmul_finite ma mb ea eb) as (m2 & Hm2 & _ & Hr). cbn zeta in *.
  set (P := Zpos ma * Zpos mb) in *. set (E := ea + eb) in *.
  set (n := Z.max (fexp prec emax (Zdigits2 P + E) - E) 0) in *.
  destruct (round_ge (Zpos ma) (Zpos mb) ea eb ltac:(lia) Hea ltac:(lia) Heb' m2
              Hmb Heb Hm2) as [Hm2' HV].
  destruct (round_facts (Zpos ma) (Zpos mb) ea eb ltac:(lia) Hea ltac:(lia) Heb')
    as (_ & Hn & He1 & _ & _).
  fold P E n in Hm2', HV, Hn, He1.
  rewrite Hr in *. rewrite finalize_spec in * by lia.
  destruct (Z.eqb_spec m2 0); [lia|].
  destruct (Z.eqb_spec m2 (2 ^ 53)) as [E53|N53].
  - destruct (E + n + 1 <=? 971); [|reflexivity].
    apply SFleb_of_value; [exact Ha | exact Hv|].
    change (Zpos (2 ^ 52)) with (2 ^ 52).
    rewrite <- scaled_scale with (t := 1) by lia. change (2 ^ 52 * 2 ^ 1) with (2 ^ 53).
    rewrite <- E53. exact HV.
  - destruct (E + n <=? 971); [|reflexivity].
    apply SFleb_of_value; [exact Ha | exact Hv|].
    rewrite Z2Pos.id by lia. exact HV.
Qed.

(** The product of a finite [a > 0] by [0 < b <= 1], rounded, is at most [a]. *)
Lemma SFmul_finite_le (ma mb : positive) (ea eb : Z) :
  let a := S754_finite false ma ea in
  let b := S754_finite false mb eb in
  bounded prec emax ma ea = true -> bounded prec emax mb eb = true ->
  SFleb b SF_one = true -> valid_binary (SF64mul a b) = true ->
  SFleb (SF64mul a b) a = true /\ SFleb (S754_zero false) (SF64mul a b) = true.
Proof.
  intros a b Ha Hb H1 Hv. subst a b.
  pose proof (finite_le_one mb eb Hb H1) as Hb1.
  pose proof (bounded_spec ma ea Ha) as (Hea & Hma & _).
  pose proof (bounded_spec mb eb Hb) as (Heb' & Hmb' & _).
  destruct (SFmul_finite ma mb ea eb) as (m2 & Hm2 & Hex & Hr). cbn zeta in *.
  set (P := Zpos ma * Zpos mb) in *. set (E := ea + eb) in *.
  set (n := Z.max (fexp prec emax (Zdigits2 P + E) - E) 0) in *.
  destruct (round_le (Zpos ma) (Zpos mb) ea eb ltac:(lia) Hea ltac:(lia) Heb' m2
              Hb1 Hm2 Hex) as (Hm2' & HV & Hle).
  destruct (round_facts (Zpos ma) (Zpos mb) ea eb ltac:(lia) Hea ltac:(lia) Heb')
    as (_ & Hn & He1 & _ & _).
  fold P E n in Hm2', HV, Hle, Hn, He1.
  rewrite Hr in *. rewrite finalize_spec in * by lia.
  destruct (Z.eqb_spec m2 0); [split; reflexivity|].
  destruct (Z.eqb_spec m2 (2 ^ 53)) as [E53|N53].
  - assert (Hlt : E + n + 1 <= ea).
    { apply Z.nlt_ge. intros Hc. assert (E + n = ea) as Heq by lia.
      rewrite Heq, E53 in HV. apply scaled_le_cancel in HV; lia. }
    destruct (Z.leb_spec (E + n + 1) 971); [|lia].
    split; [|reflexivity].
    apply SFleb_of_value; [exact Hv | exact Ha|].
    change (Zpos (2 ^ 52)) with (2 ^ 52).
    rewrite <- scaled_scale with (t := 1) by lia. change (2 ^ 52 * 2 ^ 1) with (2 ^ 53).
    rewrite <- E53. exact HV.
  - destruct (Z.leb_spec (E + n) 971); [|lia].
    split; [|reflexivity].
    apply SFleb_of_value; [exact Hv | exact Ha|].
    rewrite Z2Pos.id by lia. exact HV.
Qed.

Section Products.
Local Open Scope float_scope.

(** [a <= b < c] gives [a < c]. *)
Lemma float_leb_ltb_trans (a b c : float) :
  (a <=? b) = true -> (b <? c) = true -> (a <? c) = true.
Proof.
  rewrite leb_spec, !ltb_spec, SFleb_iff, !SFltb_iff.
  intros (p & q & Hp & Hq & H1) (q' & r & Hq' & Hr & H2).
  exists p, r. repeat split; auto. rewrite Hq in Hq'. injection Hq' as <-.
  unfold lex_le in H1. destruct p as [[x y] z], q as [[x' y'] z'], r as [[x'' y''] z''].
  destruct H1 as [H1|[= -> -> ->]]; cbn in *; lia.
Qed.

(** Multiplying [a >= 0] by [b >= 1] does not go below [a], unless the
    product is a NaN ([0 * inf]). *)
Lemma float_mul_ge (a b : float) :
  (0 <=? a) = true -> (1 <=? b) = true -> (a * b <=? a * b) = true ->
  (a <=? a * b) = true.
Proof.
  rewrite !leb_spec, !mul_spec.
  pose proof (Prim2SF_valid a) as Va. pose proof (Prim2SF_valid b) as Vb.
  pose proof (Prim2SF_valid (a * b)) as Vab. rewrite mul_spec in Vab.
  change (Prim2SF 0) with (S754_zero false). change (Prim2SF 1) with SF_one.
  destruct (Prim2SF a) as [sa|[|]| |[|] ma ea]; try discriminate;
    destruct (Prim2SF b) as [sb|[|]| |[|] mb eb]; try discriminate;
    try (intros; reflexivity).
  intros _ Hb _. apply SFmul_finite_ge; assumption.
Qed.

(** Multiplying a finite [a >= 0] by [0 <= b <= 1] does not go above [a] nor
    below zero. *)
Lemma float_mul_le (a b : float) :
  (0 <=? a) = true -> (a <? infinity) = true ->
  (0 <=? b) = true -> (b <=? 1) = true ->
  (a * b <=? a) = true /\ (0 <=? a * b) = true.
Proof.
  rewrite !leb_spec, !ltb_spec, !mul_spec.
  pose proof (Prim2SF_valid a) as Va. pose proof (Prim2SF_valid b) as Vb.
  pose proof (Prim2SF_valid (a * b)) as Vab. rewrite mul_spec in Vab.
  change (Prim2SF 0) with (S754_zero false). change (Prim2SF 1) with SF_one.
  change (Prim2SF infinity) with (S754_infinity false).
  destruct (Prim2SF a) as [sa|[|]| |[|] ma ea]; try discriminate;
    destruct (Prim2SF b) as [sb|[|]| |[|] mb eb]; try discriminate;
    try (intros; split; reflexivity);
    try (intros; destruct sa; split; reflexivity);
    try (intros; destruct sb; split; reflexivity);
    try (intros; destruct sa, sb; split; reflexivity).
  intros _ _ _ Hb. apply SFmul_finite_le; assumption.
Qed.

End Products.

(** ** The arrays, feature by feature *)

Section ArrayFacts.
Context {D : Type} `{Scalar D}.

(** Reading back what [store] wrote, and what it left alone. *)
Lemma load_store_eq (m : mem D) (f : nat) (c c0 : cell D) :
  load m f = Some c0 -> load (store m f c) f = Some c.
Proof.
  unfold load, store. cbn.
  destruct (theta m !! f) eqn:E1; [|discriminate].
  destruct (grad m !! f) eqn:E2; [|discriminate].
  destruct (gprev m !! f) eqn:E3; [|discriminate].
  destruct (step m !! f) eqn:E4; [|discriminate].
  destruct (delta m !! f) eqn:E5; [|discriminate].
  intros _.
  rewrite !list_lookup_insert_eq by (eapply lookup_lt_Some; eassumption).
  destruct c; reflexivity.
Qed.

Lemma load_store_ne (m : mem D) (f f' : nat) (c : cell D) :
  f <> f' -> load (store m f c) f' = load m f'.
Proof.
  intros Hf. unfold load, store. cbn.
  now rewrite !list_lookup_insert_ne by exact Hf.
Qed.

(** One turn of the loop changes the entries of its feature only. *)
Lemma load_rprop_at (o : opt D) (m : mem D) (f f' : nat) :
  load (rprop_at o m f) f' =
  if decide (f = f') then rprop_cell o <$> load m f' else load m f'.
Proof.
  unfold rprop_at. destruct (decide (f = f')) as [->|Hf].
  - destruct (load m f') eqn:E; cbn; [|exact E].
    eapply load_store_eq; eassumption.
  - destruct (load m f) eqn:E; [|reflexivity].
    now apply load_store_ne.
Qed.

(** Turns of the loop at distinct features: each feature of the list gets
    one. *)
Lemma load_foldl_rprop_at (o : opt D) (l : list nat) (m : mem D) (f : nat) :
  NoDup l ->
  load (foldl (rprop_at o) m l) f =
  if decide (f ∈ l) then rprop_cell o <$> load m f else load m f.
Proof.
  intros Hl. revert m. induction Hl as [|a l Ha Hl IH]; intros m; cbn.
  - destruct (decide (f ∈ [])) as [Hin|_]; [|reflexivity]. now apply elem_of_nil in Hin.
  - rewrite IH, load_rprop_at.
    destruct (decide (a = f)) as [->|Haf].
    + destruct (decide (f ∈ l)); [contradiction|].
      destruct (decide (f ∈ f :: l)) as [_|Hn]; [reflexivity|].
      exfalso. apply Hn. left.
    + destruct (decide (f ∈ l)) as [Hin|Hnin];
        destruct (decide (f ∈ a :: l)) as [Hin'|Hnin']; try reflexivity.
      * exfalso. apply Hnin'. now right.
      * apply elem_of_cons in Hin' as [->|]; contradiction.
Qed.

(** [trn_rpropsub] runs the body of its loop once on each feature of its
    range and leaves the others alone. *)
Lemma load_rprop_range (o : opt D) (from to : nat) (m : mem D) (f : nat) :
  load (rprop_range o from to m) f =
  if decide (from <= f < to)%nat then rprop_cell o <$> load m f else load m f.
Proof.
  unfold rprop_range. rewrite load_foldl_rprop_at by apply NoDup_seq.
  destruct (decide (f ∈ seq from (to - from))) as [Hin|Hnin];
    destruct (decide (from <= f < to)%nat) as [Hr|Hnr]; try reflexivity.
  - apply elem_of_seq in Hin. lia.
  - exfalso. apply Hnin. apply elem_of_seq. lia.
Qed.
Lemma load_trn_rpropsub (o : opt D) (F id cnt : Z) (m : mem D) (f : nat) :
  load (trn_rpropsub o F id cnt m) f =
  if decide (Z.to_nat (range_from F id cnt) <= f < Z.to_nat (range_to F id cnt))%nat
  then rprop_cell o <$> load m f else load m f.
Proof. apply load_rprop_range. Qed.

(** *** An invariant of the step sizes *)

Variable o : opt D.
Variable ok : D -> Prop.
Hypothesis ok_init : ok d_tenth.
Hypothesis ok_inc : forall s, ok s -> ok (d_min (d_mul s (stpinc o)) (stpmax o)).
Hypothesis ok_dec : forall s, ok s -> ok (d_max (d_mul s (stpdec o)) (stpmin o)).

Lemma ok_rprop_cell (c : cell D) : ok (cstp c) -> ok (cstp (rprop_cell o c)).
Proof.
  unfold rprop_cell, rprop_arm. destruct (branch_of _ _); cbn; auto.
Qed.

Lemma ok_rprop_at (m : mem D) (f : nat) :
  Forall ok (step m) -> Forall ok (step (rprop_at o m f)).
Proof.
  intros Hm. unfold rprop_at.
  destruct (load m f) as [c|] eqn:E; [|exact Hm].
  cbn. apply Forall_insert; [exact Hm|].
  apply ok_rprop_cell.
  unfold load in E.
  destruct (theta m !! f), (grad m !! f), (gprev m !! f), (step m !! f) eqn:E4,
    (delta m !! f); try discriminate.
  injection E as <-. cbn.
  eapply Forall_lookup_1; eassumption.
Qed.

Lemma ok_rprop_range (from to : nat) (m : mem D) :
  Forall ok (step m) -> Forall ok (step (rprop_range o from to m)).
Proof.
  unfold rprop_range. generalize (seq from (to - from)) as l.
  intros l. revert m. induction l as [|f l IH]; intros m Hm; cbn; [exact Hm|].
  apply IH, ok_rprop_at, Hm.
Qed.

Lemma ok_reachable (F : Z) (m : mem D) :
  reachable o F m -> Forall ok (step m).
Proof.
  induction 1 as [x g dlt m _ _ _ Hi | g m _ _ IH | id cnt m _ IH].
  - unfold rprop_init in Hi. destruct (F <? 2 ^ 32); [|discriminate].
    injection Hi as <-. cbn. apply Forall_replicate, ok_init.
  - exact IH.
  - apply ok_rprop_range, IH.
Qed.

End ArrayFacts.

(** ** Successive updates of one feature *)

Section Runs.
Context {D : Type} `{Scalar D}.
Local Open Scope scalar_scope.

(** The one fact of arithmetic the following needs: a product with [0.0] is
    neither above nor below [0.0]. *)
Hypothesis zero_mul_sign :
  forall y : D, (d_zero * y <? d_zero) = false /\ (d_zero <? d_zero * y) = false.

(** With [gp = 0.0] the neutral arm runs. *)
Lemma branch_of_zero (pg : D) : branch_of d_zero pg = Neutral.
Proof.
  unfold branch_of. destruct (zero_mul_sign pg) as [-> ->]. reflexivity.
Qed.

(** What the disagree arm leaves. *)
Lemma disagree_zeroes (o : opt D) (c : cell D) :
  cell_branch o c = Disagree ->
  cg (rprop_cell o c) = d_zero /\ cgp (rprop_cell o c) = d_zero /\
  cx (rprop_cell o c) = cx c - cdlt c /\ cdlt (rprop_cell o c) = cdlt c.
Proof.
  unfold cell_branch, rprop_cell, rprop_arm. intros ->. cbn. auto.
Qed.

Lemma disagree_then_neutral (o : opt D) (c : cell D) (g : D) :
  cell_branch o c = Disagree ->
  cell_branch o (feed g (rprop_cell o c)) = Neutral.
Proof.
  intros Hc. destruct (disagree_zeroes o c Hc) as (_ & Hgp & _).
  unfold cell_branch. cbn [feed cgp cx cg] in *. rewrite Hgp.
  apply branch_of_zero.
Qed.

Lemma first_update_neutral (o : opt D) (x g0 dlt g : D) :
  cell_branch o (feed g (cell_init x g0 dlt)) = Neutral.
Proof. unfold cell_branch. cbn. apply branch_of_zero. Qed.

(** The agree and the neutral arm add to the weight the delta they store. *)
Lemma applies_delta (o : opt D) (c : cell D) :
  cell_branch o c <> Disagree ->
  cx (rprop_cell o c) = cx c + cdlt (rprop_cell o c).
Proof.
  unfold cell_branch, rprop_cell, rprop_arm.
  destruct (branch_of _ _); cbn; congruence.
Qed.

Lemma run_cell_snoc (o : opt D) (c : cell D) (gs : list D) (g : D) :
  run_cell o c (gs ++ [g]) = rprop_cell o (feed g (run_cell o c gs)).
Proof. unfold run_cell. now rewrite foldl_app. Qed.

(** An update that takes the disagree arm is never the first of its feature,
    and the update before it took another arm: it stored the delta [d] it
    added to the weight [x0], and the disagree arm subtracts that [d]. *)
Lemma before_disagree (o : opt D) (x g0 dlt : D) (gs : list D) (g : D) :
  let c := feed g (run_cell o (cell_init x g0 dlt) gs) in
  cell_branch o c = Disagree ->
  exists gs' g', gs = gs' ++ [g'] /\
    let p := feed g' (run_cell o (cell_init x g0 dlt) gs') in
    cell_branch o p <> Disagree /\
    cdlt c = cdlt (rprop_cell o p) /\
    cx c = cx p + cdlt c /\
    cx (rprop_cell o c) = (cx p + cdlt c) - cdlt c.
Proof.
  intros c Hc. subst c.
  destruct gs as [|g1 gs1] using rev_ind.
  - cbn in Hc. rewrite first_update_neutral in Hc. discriminate.
  - clear IHgs1. exists gs1, g1. split; [reflexivity|].
    rewrite run_cell_snoc in *.
    set (p := feed g1 (run_cell o (cell_init x g0 dlt) gs1)) in *.
    assert (Hp : cell_branch o p <> Disagree).
    { intros Hp. rewrite (disagree_then_neutral o p g Hp) in Hc. discriminate. }
    cbn zeta. split; [exact Hp|].
    destruct (disagree_zeroes _ _ Hc) as (_ & _ & Hx & _).
    rewrite Hx. cbn [feed cx cdlt].
    rewrite (applies_delta o p Hp). auto.
Qed.

End Runs.

Section FeatureRuns.
Context {D : Type} `{Scalar D}.

(** Storing the gradient that is already there changes nothing. *)
Lemma feed_own_gradient (c : cell D) : feed (cg c) c = c.
Proof. now destruct c. Qed.

(** The entries of a feature after the provider stored a gradient vector of
    the same length. *)
Lemma load_set_grad (g : list D) (m : mem D) (f : nat) (c : cell D) :
  length g = length (grad m) ->
  load (set_grad g m) f = Some c ->
  exists c0 gf, load m f = Some c0 /\ c = feed gf c0.
Proof.
  unfold load, set_grad. cbn. intros Hlen.
  destruct (theta m !! f) as [x|]; [|discriminate].
  destruct (g !! f) as [gf|] eqn:Eg; [|discriminate].
  destruct (lookup_lt_is_Some_2 (grad m) f) as [gf0 ->].
  { rewrite <- Hlen. eapply lookup_lt_Some; eassumption. }
  destruct (gprev m !! f) as [gp|]; [|discriminate].
  destruct (step m !! f) as [stp|]; [|discriminate].
  destruct (delta m !! f) as [dlt|]; [|discriminate].
  intros [= <-]. eexists _, gf. split; reflexivity.
Qed.

Lemma length_grad_rprop_range (o : opt D) (from to : nat) (m : mem D) :
  length (grad (rprop_range o from to m)) = length (grad m).
Proof.
  unfold rprop_range. generalize (seq from (to - from)) as l. intros l.
  revert m. induction l as [|f l IH]; intros m; cbn; [reflexivity|].
  rewrite IH. unfold rprop_at. destruct (load m f); [|reflexivity].
  cbn. apply length_insert.
Qed.

Lemma reachable_length_grad (o : opt D) (F : Z) (m : mem D) :
  reachable o F m -> length (grad m) = Z.to_nat F.
Proof.
  induction 1 as [x g dlt m _ Hg _ Hi | g m Hg _ _ | id cnt m _ IH].
  - unfold rprop_init in Hi. destruct (F <? 2 ^ 32); [|discriminate].
    injection Hi as <-. exact Hg.
  - exact Hg.
  - unfold trn_rpropsub. now rewrite length_grad_rprop_range.
Qed.

(** The entries of a feature in a state of a run are those of a run of that
    feature alone: its initial entries, updated with the gradients it was
    given. *)
Lemma reachable_feature_run (o : opt D) (F : Z) (m : mem D) :
  reachable o F m ->
  forall (f : nat) (c : cell D), load m f = Some c ->
  exists x g0 dlt gs, c = feed (cg c) (run_cell o (cell_init x g0 dlt) gs).
Proof.
  induction 1 as [x g dlt m _ _ _ Hi | g m Hg Hm IH | id cnt m Hm IH]; intros f c Hc.
  - unfold rprop_init in Hi. destruct (F <? 2 ^ 32); [|discriminate].
    injection Hi as <-. unfold load in Hc. cbn in Hc.
    destruct (x !! f) as [xf|]; [|discriminate].
    destruct (g !! f) as [gf|]; [|discriminate].
    destruct (replicate (Z.to_nat F) d_zero !! f) as [gp|] eqn:E1; [|discriminate].
    destruct (replicate (Z.to_nat F) d_tenth !! f) as [stp|] eqn:E2; [|discriminate].
    destruct (dlt !! f) as [df|]; [|discriminate].
    apply lookup_replicate in E1 as [-> _]. apply lookup_replicate in E2 as [-> _].
    injection Hc as <-. exists xf, gf, df, []. reflexivity.
  - apply load_set_grad in Hc as (c0 & gf & Hc0 & ->).
    2:{ rewrite (reachable_length_grad o F m Hm). exact Hg. }
    destruct (IH f c0 Hc0) as (x & g0 & dlt & gs & E).
    exists x, g0, dlt, gs. rewrite E. reflexivity.
  - rewrite load_trn_rpropsub in Hc.
    destruct (decide _) as [Hin|Hout]; [|exact (IH f c Hc)].
    destruct (load m f) as [c0|] eqn:Hc0; [|discriminate].
    injection Hc as <-.
    destruct (IH f c0 Hc0) as (x & g0 & dlt & gs & E).
    exists x, g0, dlt, (gs ++ [cg c0]).
    rewrite run_cell_snoc, <- E. symmetry. apply feed_own_gradient.
Qed.
(** In a state of a run, a feature whose next update takes the disagree arm
    was updated before: its entries [c] are those the update of earlier
    entries [p] left, with a fresh gradient; that update took another arm and
    added to the weight the delta stored in [c]. *)
Lemma reachable_before_disagree
    (zero_mul_sign : forall y : D,
       d_ltb (d_mul d_zero y) d_zero = false /\ d_ltb d_zero (d_mul d_zero y) = false)
    (o : opt D) (F : Z) (m : mem D) (f : nat) (c : cell D) :
  reachable o F m -> load m f = Some c -> cell_branch o c = Disagree ->
  exists p, cell_branch o p <> Disagree /\
    c = feed (cg c) (rprop_cell o p) /\
    cx c = d_add (cx p) (cdlt c) /\
    cx (rprop_cell o c) = d_sub (d_add (cx p) (cdlt c)) (cdlt c).
Proof.
  intros Hm Hc Hb.
  destruct (reachable_feature_run o F m Hm f c Hc) as (x & g0 & dlt & gs & E).
  rewrite E in Hb.
  destruct (before_disagree zero_mul_sign o x g0 dlt gs (cg c) Hb)
    as (gs' & g' & -> & Hp & _ & Hx & Hx').
  cbv zeta in *. rewrite <- E in Hx, Hx'.
  exists (feed g' (run_cell o (cell_init x g0 dlt) gs')).
  split; [exact Hp|]. split; [|split; assumption].
  rewrite E at 1. now rewrite run_cell_snoc.
Qed.

End FeatureRuns.

Lemma binary64_zero_mul_sign (y : float) :
  d_ltb (d_mul d_zero y) d_zero = false /\ d_ltb d_zero (d_mul d_zero y) = false.
Proof. exact (float_zero_mul_sign y). Qed.

Lemma Q_zero_mul_sign (y : Q) :
  d_ltb (d_mul d_zero y) d_zero = false /\ d_ltb d_zero (d_mul d_zero y) = false.
Proof. destruct y as [n d]. cbn. unfold Qltb, Qcompare. cbn. auto. Qed.

(** ** The ranges of the workers *)

Section Partition.
Variables F W : Z.
Hypothesis F_nonneg : 0 <= F.
Hypothesis W_pos : 1 <= W.
Hypothesis no_wrap : F * W < size_max.

(** When [F * W] does not wrap around, [from] and [to] are the quotients of
    the specification. *)
Lemma range_from_exact (id : Z) :
  0 <= id <= W -> range_from F id W = F * id / W.
Proof.
  intros Hid. unfold range_from, to_size_t.
  destruct (Z.eq_dec F 0) as [->|HF].
  - rewrite !Z.mul_0_l. cbn. rewrite Zmod_0_l. now rewrite !Zdiv_0_l.
  - assert (W < size_max) by nia.
    rewrite (Z.mod_small id), (Z.mod_small W) by lia.
    rewrite Z.mod_small; [reflexivity|]. nia.
Qed.

Lemma range_to_exact (id : Z) :
  0 <= id < W -> range_to F id W = F * (id + 1) / W.
Proof.
  intros Hid. unfold range_to.
  change (to_size_t (F * to_size_t (id + 1)) / to_size_t W)
    with (range_from F (id + 1) W).
  apply range_from_exact. lia.
Qed.

Lemma range_mono (a b : Z) : a <= b -> F * a / W <= F * b / W.
Proof. intros. apply Z.div_le_mono; nia. Qed.

(** Membership in the range of a worker, without the divisions. *)
Lemma in_range_iff (i id : Z) :
  F * id / W <= i < F * (id + 1) / W <->
  F * id < (i + 1) * W /\ (i + 1) * W <= F * (id + 1).
Proof.
  split.
  - intros [H1 H2]. split.
    + apply Z.nle_gt. intros Hc.
      assert (i + 1 <= F * id / W) by (apply Z.div_le_lower_bound; lia). lia.
    + apply Z.nlt_ge. intros Hc.
      assert (F * (id + 1) / W < i + 1) by (apply Z.div_lt_upper_bound; lia). lia.
  - intros [H1 H2]. split.
    + assert (F * id / W < i + 1) by (apply Z.div_lt_upper_bound; lia). lia.
    + assert (i + 1 <= F * (id + 1) / W) by (apply Z.div_le_lower_bound; lia). lia.
Qed.

(** The worker of index [i] is [((i + 1) * W - 1) / F]. *)
Lemma owner_exists (i : Z) :
  0 <= i < F ->
  let id := ((i + 1) * W - 1) / F in
  0 <= id < W /\ F * id / W <= i < F * (id + 1) / W.
Proof.
  intros Hi id.
  assert (HF : 0 < F) by lia.
  assert (Hlo : F * id <= (i + 1) * W - 1).
  { subst id. apply Z.mul_div_le. lia. }
  assert (Hhi : (i + 1) * W - 1 < F * (id + 1)).
  { subst id. pose proof (Z.mod_pos_bound ((i + 1) * W - 1) F HF).
    pose proof (Z.div_mod ((i + 1) * W - 1) F). lia. }
  split.
  - split.
    + subst id. apply Z.div_pos; nia.
    + nia.
  - apply in_range_iff. lia.
Qed.

Lemma owner_unique (i id id' : Z) :
  F * id / W <= i < F * (id + 1) / W ->
  F * id' / W <= i < F * (id' + 1) / W -> id = id'.
Proof.
  rewrite !in_range_iff. intros [A1 A2] [B1 B2].
  assert (0 < F \/ F = 0) as [HF| ->] by lia; [nia | lia].
Qed.
End Partition.

(** Whatever the worker, and even when the product wraps around, its range
    ends inside the arrays. *)
Lemma range_to_within (F id cnt : Z) :
  0 <= F -> 0 <= id < cnt -> cnt < size_max -> range_to F id cnt <= F.
Proof.
  intros HF Hid Hcnt. unfold range_to, to_size_t.
  rewrite (Z.mod_small (id + 1)), (Z.mod_small cnt) by lia.
  assert (Hs : 0 < size_max) by reflexivity.
  pose proof (Z.mod_pos_bound (F * (id + 1)) size_max Hs) as Hm.
  assert (Hle : (F * (id + 1)) mod size_max <= F * cnt).
  { destruct (Z_lt_le_dec (F * (id + 1)) size_max) as [Hsmall|Hbig].
    - rewrite Z.mod_small by nia. nia.
    - nia. }
  apply Z.div_le_upper_bound; lia.
Qed.

(** In a run of [trn_rprop] the products do not wrap around: the
    initialisation only ends when [F < 2^32], and the number of workers is an
    [int]. *)
Lemma trn_rprop_no_wrap {D : Type} `{Scalar D} (F W : Z) (x g dlt : list D)
    (m : mem D) :
  0 <= F -> rprop_init F x g dlt = Some m -> 1 <= W < 2 ^ 31 ->
  F * W < size_max.
Proof.
  intros HF Hi HW. unfold rprop_init in Hi.
  destruct (Z.ltb_spec F (2 ^ 32)) as [Hlt|]; [|discriminate].
  unfold size_max. nia.
Qed.

Section Spawn.
Context {D : Type} `{Scalar D}.
Variables (o : opt D) (F : Z) (W : nat).
Hypothesis F_nonneg : 0 <= F.
Hypothesis W_pos : (1 <= W)%nat.
Hypothesis no_wrap : F * Z.of_nat W < size_max.

Lemma load_spawn_prefix (k : nat) (m : mem D) (f : nat) :
  (k <= W)%nat ->
  load (foldl (fun m id => trn_rpropsub o F (Z.of_nat id) (Z.of_nat W) m) m (seq 0 k)) f =
  if decide (f < Z.to_nat (F * Z.of_nat k / Z.of_nat W))%nat
  then rprop_cell o <$> load m f else load m f.
Proof using F_nonneg W_pos no_wrap.
  intros Hk. induction k as [|k IH].
  - cbn. rewrite Z.mul_0_r, Zdiv_0_l. cbn.
    destruct (decide _); [lia | reflexivity].
  - rewrite seq_S, foldl_app. cbn [foldl Nat.add].
    rewrite load_trn_rpropsub, IH by lia.
    rewrite (range_from_exact F (Z.of_nat W)), (range_to_exact F (Z.of_nat W)) by lia.
    replace (Z.of_nat k + 1) with (Z.of_nat (S k)) by lia.
    pose proof (range_mono F (Z.of_nat W) F_nonneg ltac:(lia) (Z.of_nat k) (Z.of_nat (S k))
                  ltac:(lia)) as Hmono.
    assert (0 <= F * Z.of_nat k / Z.of_nat W) by (apply Z.div_pos; nia).
    repeat destruct (decide _); try reflexivity; lia.
Qed.

(** When [F * W] does not wrap around, one call of [mth_spawn] runs the body
    of the loop of [trn_rpropsub] exactly once on every feature. *)
Lemma load_mth_spawn (m : mem D) (f : nat) :
  load (mth_spawn o F W m) f =
  if decide (f < Z.to_nat F)%nat then rprop_cell o <$> load m f else load m f.
Proof using F_nonneg W_pos no_wrap.
  unfold mth_spawn. rewrite load_spawn_prefix by lia.
  rewrite Z.div_mul by lia. reflexivity.
Qed.
End Spawn.

(** ** Exact arithmetic *)

Lemma Qltb_cases (a b : Q) :
  if Qltb a b then (a < b)%Q else (b <= a)%Q.
Proof.
  unfold Qltb. destruct (Qcompare_spec a b) as [E|E|E]; lra.
Qed.

Lemma in_boundsQ_inc (o : opt Q) (s : Q) :
  sane_optQ o -> in_boundsQ o s ->
  in_boundsQ o (d_min (d_mul s (stpinc o)) (stpmax o)).
Proof.
  unfold sane_optQ, in_boundsQ, d_min. cbn. intros Ho Hs.
  pose proof (Qltb_cases (s * stpinc o) (stpmax o)) as Hc.
  destruct (Qltb _ _); nra.
Qed.

Lemma in_boundsQ_dec (o : opt Q) (s : Q) :
  sane_optQ o -> in_boundsQ o s ->
  in_boundsQ o (d_max (d_mul s (stpdec o)) (stpmin o)).
Proof.
  unfold sane_optQ, in_boundsQ, d_max. cbn. intros Ho Hs.
  pose proof (Qltb_cases (s * stpdec o) (stpmin o)) as Hc.
  destruct (Qltb _ _); nra.
Qed.

(** ** The sides of zero *)

Section Sides.
Local Open Scope float_scope.

(** The opposite of a [double] that is not below zero is not above it. *)
Lemma float_opp_nonneg (a : float) : (0 <=? a) = true -> (- a <=? 0) = true.
Proof.
  rewrite !leb_spec, opp_spec. change (Prim2SF 0) with (S754_zero false).
  destruct (Prim2SF a) as [s|s| |s m e]; try destruct s; try discriminate; reflexivity.
Qed.

Lemma float_ltb_asym (a b : float) : (a <? b) = true -> (b <? a) = false.
Proof.
  rewrite !FloatAxioms.ltb_spec. intros H.
  destruct (SFltb (Prim2SF b) (Prim2SF a)) eqn:E; [|reflexivity].
  apply SFltb_iff in H as (p & q & Hp & Hq & Hl).
  apply SFltb_iff in E as (q' & p' & Hq' & Hp' & Hl').
  rewrite Hp in Hp'. rewrite Hq in Hq'. injection Hp' as <-. injection Hq' as <-.
  destruct p as [[x y] z], q as [[x' y'] z']. cbn in *. lia.
Qed.

(** A gradient above [r], with [r] not below zero, is not below [-r]: of
    the two tests on the gradient at most one holds. *)
Lemma above_is_not_below_opp (r g : float) :
  (r <? 0) = false -> (r <? g) = true -> (g <? - r) = false.
Proof.
  intros Hr Hg.
  assert (Hrr : (r <=? r) = true).
  { apply float_ltb_leb in Hg. now apply (float_leb_refl_l _ g). }
  assert (H0 : (0 <=? r) = true) by (apply float_nlt_leb; auto).
  apply float_ltb_asym.
  apply (float_leb_ltb_trans _ r); [|exact Hg].
  apply (float_leb_trans _ 0); [now apply float_opp_nonneg | exact H0].
Qed.

End Sides.

Section Binary64.
Local Open Scope float_scope.

(** ** The pseudo-gradient *)

(** The pseudo-gradient on every input, in the order of the code.  With
    [r = rho1]: when [r == 0], [pg = g]; otherwise [pg = g - r] when [x < 0],
    [pg = g + r] when [x > 0], and when [x] is neither, which is [x == 0] or
    [x] a NaN, the tests on the gradient are tried in order: [pg = g + r]
    when [g < -r], else [pg = g - r] when [g > r], else [pg = 0]. *)
Lemma pseudo_gradient_in_order (o : opt float) (x g : float) :
  let pg := pseudo_gradient o x g in
  let r := rho1 o in
  ((r =? 0) = true -> pg = g) /\
  ((r =? 0) = false ->
     ((x <? 0) = true -> pg = g - r) /\
     ((0 <? x) = true -> pg = g + r) /\
     ((x =? 0) || is_nan x = true -> (g <? - r) = true -> pg = g + r) /\
     ((x =? 0) || is_nan x = true -> (g <? - r) = false -> (r <? g) = true ->
        pg = g - r) /\
     ((x =? 0) || is_nan x = true -> (g <? - r) = false -> (r <? g) = false ->
        pg = 0)) /\
  (x <? 0) || (0 <? x) || ((x =? 0) || is_nan x) = true.
Proof.
  intros pg r. subst pg r. unfold pseudo_gradient, l1. cbn.
  pose proof (float_sign_cases x) as Hx.
  destruct (x <? 0), (0 <? x), (x =? 0), (is_nan x); try contradiction;
    (split; [|split; [|reflexivity]]);
    destruct (rho1 o =? 0); cbn; try discriminate; auto; intros _;
    repeat split; try discriminate; auto;
    intros _ -> ; auto; intros ->; auto.
Qed.

(** C1. For a weight [x] that is not a NaN and an L1 weight [rho1] that is
    not negative, the pseudo-gradient is computed exactly as the claim words
    it: [pg = g] when [rho1 == 0]; otherwise [pg = g - rho1] when [x < 0],
    [pg = g + rho1] when [x > 0], [pg = g + rho1] when [x == 0] and
    [g < -rho1], [pg = g - rho1] when [x == 0] and [g > rho1], and [pg = 0]
    otherwise, that is when none of the four conditions holds. *)
Theorem pseudo_gradient_cases (o : opt float) (x g : float) :
  is_nan x = false -> (rho1 o <? 0) = false ->
  let pg := pseudo_gradient o x g in
  let r := rho1 o in
  ((r =? 0) = true -> pg = g) /\
  ((r =? 0) = false ->
     ((x <? 0) = true -> pg = g - r) /\
     ((0 <? x) = true -> pg = g + r) /\
     ((x =? 0) = true -> (g <? - r) = true -> pg = g + r) /\
     ((x =? 0) = true -> (r <? g) = true -> pg = g - r) /\
     ((x <? 0) = false -> (0 <? x) = false ->
      (x =? 0) && (g <? - r) = false -> (x =? 0) && (r <? g) = false ->
      pg = 0)).
Proof.
  intros Hx Hr pg r.
  destruct (pseudo_gradient_in_order o x g) as (H0 & H1 & _). fold pg r in H0, H1.
  split; [exact H0|]. intros Hr0.
  destruct (H1 Hr0) as (A & B & C & D & E).
  split; [exact A|]. split; [exact B|]. split; [|split].
  - intros Hx0 Hg. apply C; [now rewrite Hx0 | exact Hg].
  - intros Hx0 Hg. apply D; [now rewrite Hx0 | | exact Hg].
    now apply above_is_not_below_opp.
  - intros Hlt Hgt H3 H4.
    assert (Hx0 : (x =? 0) = true).
    { pose proof (float_sign_cases x) as Hs. rewrite Hlt, Hgt, Hx in Hs.
      destruct (x =? 0); [reflexivity | contradiction]. }
    rewrite Hx0 in H3, H4. cbn in H3, H4.
    apply E; [now rewrite Hx0 | exact H3 | exact H4].
Qed.

Lemma pseudo_gradient_cases_witness :
  let o := MkOpt 1e-6 50 1.2 0.5 1 in
  pseudo_gradient o (-3) 0.5 = -0.5 /\ pseudo_gradient o 3 0.5 = 1.5 /\
  pseudo_gradient o 0 (-2) = -1 /\ pseudo_gradient o 0 2 = 1 /\
  pseudo_gradient o 0 0.5 = 0 /\ pseudo_gradient o (-0) (-1) = 0.
Proof.
  pose (o := MkOpt 1e-6 50 1.2 0.5 1).
  assert (Hr : (rho1 o =? 0) = false) by reflexivity.
  refine (conj _ (conj _ (conj _ (conj _ (conj _ _))))).
  - exact (proj1 (proj2 (pseudo_gradient_cases o (-3) 0.5 eq_refl eq_refl) Hr) eq_refl).
  - exact (proj1 (proj2 (proj2 (pseudo_gradient_cases o 3 0.5 eq_refl eq_refl) Hr))
             eq_refl).
  - exact (proj1 (proj2 (proj2 (proj2 (pseudo_gradient_cases o 0 (-2) eq_refl eq_refl)
             Hr))) eq_refl eq_refl).
  - exact (proj1 (proj2 (proj2 (proj2 (proj2 (pseudo_gradient_cases o 0 2 eq_refl
             eq_refl) Hr)))) eq_refl eq_refl).
  - exact (proj2 (proj2 (proj2 (proj2 (proj2 (pseudo_gradient_cases o 0 0.5 eq_refl
             eq_refl) Hr)))) eq_refl eq_refl eq_refl eq_refl).
  - exact (proj2 (proj2 (proj2 (proj2 (proj2 (pseudo_gradient_cases o (-0) (-1) eq_refl
             eq_refl) Hr)))) eq_refl eq_refl eq_refl eq_refl).
Defined.

(** ** Without L1 *)

(** C5. With [rho1 == 0] the update of a feature is the classical RPROP rule
    of the specification, written with the specification's own three-way
    sign, at every state and for every option: no pseudo-gradient other than
    the gradient, no guard; and so [trn_rpropsub] leaves, at every feature of
    its range, what the classical rule makes of the entries it found
    there. *)
Theorem no_l1_is_classical_rprop (o : opt float) :
  (rho1 o =? 0) = true ->
  (forall c : cell float, rprop_cell o c = classical_rprop o c) /\
  (forall (F id cnt : Z) (m : mem float) (f : nat),
     (Z.to_nat (range_from F id cnt) <= f < Z.to_nat (range_to F id cnt))%nat ->
     load (trn_rpropsub o F id cnt m) f = classical_rprop o <$> load m f).
Proof.
  intros Hr.
  assert (Hc : forall c : cell float, rprop_cell o c = classical_rprop o c).
  { intros c.
    unfold rprop_cell, rprop_arm, classical_rprop, branch_of, pseudo_gradient,
      project, l1, carry. cbn.
    rewrite Hr. cbn.
    assert (Hs : forall v : float, sign v = three_way_sign v).
    { intros v. unfold sign, three_way_sign. cbn.
      destruct (v <? 0); [reflexivity|]. now destruct (0 <? v). }
    rewrite Hs. rewrite !(float_mul_comm (- three_way_sign (cg c))).
    destruct (0 <? cgp c * cg c); [reflexivity|].
    destruct (cgp c * cg c <? 0); reflexivity. }
  split; [exact Hc|].
  intros F id cnt m f Hf. rewrite load_trn_rpropsub.
  destruct (decide _); [|contradiction].
  destruct (load m f); cbn; [now rewrite Hc | reflexivity].
Qed.

Lemma no_l1_is_classical_rprop_witness :
  let o := MkOpt 1e-6 50 1.2 0.5 0 in
  let agree_up := MkCell (-0.1) 1 1 0.1 (-0.1) in
  let agree_down := MkCell 0.1 (-2) (-1) 0.1 0.1 in
  let disagree := MkCell (-0.22) (-1) 1 0.12 (-0.12) in
  let neutral_down := MkCell 0.3 (-4) 0 0.1 0 in
  let neutral_flat := MkCell 0.3 0 1 0.1 0.2 in
  (rprop_cell o agree_up = classical_rprop o agree_up /\
   classical_rprop o agree_up = MkCell (-0.22) 1 1 0.12 (-0.12)) /\
  (rprop_cell o agree_down = classical_rprop o agree_down /\
   classical_rprop o agree_down = MkCell 0.22 (-2) (-2) 0.12 0.12) /\
  (rprop_cell o disagree = classical_rprop o disagree /\
   classical_rprop o disagree = MkCell (-0.1) 0 0 0.06 (-0.12)) /\
  (rprop_cell o neutral_down = classical_rprop o neutral_down /\
   classical_rprop o neutral_down = MkCell 0.4 (-4) (-4) 0.1 0.1) /\
  (rprop_cell o neutral_flat = classical_rprop o neutral_flat /\
   classical_rprop o neutral_flat = MkCell 0.3 0 0 0.1 (-0)).
Proof.
  pose proof (proj1 (no_l1_is_classical_rprop (MkOpt 1e-6 50 1.2 0.5 0) eq_refl)) as H.
  repeat split; try apply H; vm_compute; reflexivity.
Defined.

(** ** The L1 guard *)





(** ** The disagree arm *)

(** C10. The disagree arm leaves [g[f] = 0.0] and [gp[f] = 0.0], so that the
    next update of the feature, whatever gradient it is given, has a product
    [gp[f] * pg] that is neither above nor below zero (it is a zero, or a NaN
    when [pg] is not finite) and takes the neutral arm: no two updates in a
    row take the disagree arm.  Hence, in any state of a run, a feature whose
    update takes the disagree arm has entries [c] that the update of earlier
    entries [p] left, with a fresh gradient; that update took the agree or the
    neutral arm, and the [dlt[f]] the disagree arm reads is the delta it
    stored and added to the weight. *)
Theorem disagree_never_twice (o : opt float) :
  (forall (c : cell float) (g : float),
     cell_branch o c = Disagree ->
     cg (rprop_cell o c) = 0 /\ cgp (rprop_cell o c) = 0 /\
     cell_branch o (feed g (rprop_cell o c)) = Neutral) /\
  (forall (F : Z) (m : mem float) (f : nat) (c : cell float),
     reachable o F m -> load m f = Some c -> cell_branch o c = Disagree ->
     exists p, cell_branch o p <> Disagree /\
       c = feed (cg c) (rprop_cell o p) /\
       cdlt c = cdlt (rprop_cell o p) /\
       cx (rprop_cell o p) = cx p + cdlt (rprop_cell o p)).
Proof.
  split.
  - intros c g Hc.
    destruct (disagree_zeroes o c Hc) as (Hg & Hgp & _).
    repeat split; auto.
    apply (disagree_then_neutral binary64_zero_mul_sign); assumption.
  - intros F m f c Hm Hc Hb.
    destruct (reachable_before_disagree binary64_zero_mul_sign o F m f c Hm Hc Hb)
      as (p & Hp & E & Hx & _).
    exists p. split; [exact Hp|]. split; [exact E|].
    split; [rewrite E at 1; reflexivity|].
    exact (applies_delta (D := float) o p Hp).
Qed.

Lemma disagree_never_twice_witness :
  let o := MkOpt 1e-6 50 1.2 0.5 0 in
  let m1 := trn_rpropsub o 1 0 1 (MkMem [0] [1] [0] [0.1] [0]) in
  let m2 := set_grad [-1] (trn_rpropsub o 1 0 1 (set_grad [1] m1)) in
  let c := MkCell (-0.22) (-1) 1 0.12 (-0.12) in
  (cg (rprop_cell o c) = 0 /\ cgp (rprop_cell o c) = 0 /\
   cell_branch o (feed 7 (rprop_cell o c)) = Neutral) /\
  load m2 0 = Some c /\
  exists p, cell_branch o p <> Disagree /\
    c = feed (cg c) (rprop_cell o p) /\
    cdlt c = cdlt (rprop_cell o p) /\
    cx (rprop_cell o p) = cx p + cdlt (rprop_cell o p).
Proof.
  split; [|split; [vm_compute; reflexivity|]].
  - apply (proj1 (disagree_never_twice (MkOpt 1e-6 50 1.2 0.5 0))).
    vm_compute. reflexivity.
  - apply (proj2 (disagree_never_twice (MkOpt 1e-6 50 1.2 0.5 0)) 1%Z
             (set_grad [-1] (trn_rpropsub (MkOpt 1e-6 50 1.2 0.5 0) 1 0 1
                (set_grad [1] (trn_rpropsub (MkOpt 1e-6 50 1.2 0.5 0) 1 0 1
                   (MkMem [0] [1] [0] [0.1] [0]))))) 0%nat).
    + apply reach_gradient; [reflexivity|]. apply reach_update.
      apply reach_gradient; [reflexivity|]. apply reach_update.
      apply (reach_init _ _ [0] [1] [0]); reflexivity.
    + vm_compute. reflexivity.
    + vm_compute. reflexivity.
Defined.

(** C6, as the code has it.  In any state of a run, a feature whose update
    takes the disagree arm has entries [c] that the update of earlier entries
    [p] left, with a fresh gradient; that update took the agree or the neutral
    arm and added its delta [d] to the weight [x0] of [p]; the disagree arm
    leaves [x = (x0 + d) - d], both operations in binary64.  In exact
    arithmetic that is [x0]. *)
Theorem disagree_reverts_last_step :
  (forall (o : opt float) (F : Z) (m : mem float) (f : nat) (c : cell float),
     reachable o F m -> load m f = Some c -> cell_branch o c = Disagree ->
     exists p, cell_branch o p <> Disagree /\
       c = feed (cg c) (rprop_cell o p) /\
       cx c = cx p + cdlt c /\
       cx (rprop_cell o c) = (cx p + cdlt c) - cdlt c) /\
  (forall (o : opt Q) (F : Z) (m : mem Q) (f : nat) (c : cell Q),
     reachable o F m -> load m f = Some c -> cell_branch o c = Disagree ->
     exists p, cell_branch o p <> Disagree /\
       c = feed (cg c) (rprop_cell o p) /\
       (cx c == cx p + cdlt c)%Q /\
       (cx (rprop_cell o c) == cx p)%Q).
Proof.
  split.
  - intros o F m f c Hm Hc Hb.
    exact (reachable_before_disagree binary64_zero_mul_sign o F m f c Hm Hc Hb).
  - intros o F m f c Hm Hc Hb.
    destruct (reachable_before_disagree Q_zero_mul_sign o F m f c Hm Hc Hb)
      as (p & Hp & E & Hx & Hx').
    exists p. split; [exact Hp|]. split; [exact E|].
    rewrite Hx', Hx. cbn [d_add d_sub exactQ]. split; [reflexivity | ring].
Qed.

Lemma disagree_reverts_last_step_witness :
  let o := MkOpt 1e-6 50 1.2 0.5 0 in
  let m1 := trn_rpropsub o 1 0 1 (MkMem [0] [1] [0] [0.1] [0]) in
  let m2 := set_grad [-1] (trn_rpropsub o 1 0 1 (set_grad [1] m1)) in
  let c := MkCell (-0.22) (-1) 1 0.12 (-0.12) in
  load m2 0 = Some c /\ cell_branch o c = Disagree /\
  exists p, cell_branch o p <> Disagree /\
    c = feed (cg c) (rprop_cell o p) /\
    cx c = cx p + cdlt c /\
    cx (rprop_cell o c) = (cx p + cdlt c) - cdlt c.
Proof.
  split; [vm_compute; reflexivity|]. split; [vm_compute; reflexivity|].
  apply (proj1 disagree_reverts_last_step (MkOpt 1e-6 50 1.2 0.5 0) 1%Z
           (set_grad [-1] (trn_rpropsub (MkOpt 1e-6 50 1.2 0.5 0) 1 0 1
              (set_grad [1] (trn_rpropsub (MkOpt 1e-6 50 1.2 0.5 0) 1 0 1
                 (MkMem [0] [1] [0] [0.1] [0]))))) 0%nat).
  - apply reach_gradient; [reflexivity|]. apply reach_update.
    apply reach_gradient; [reflexivity|]. apply reach_update.
    apply (reach_init _ _ [0] [1] [0]); reflexivity.
  - vm_compute. reflexivity.
  - vm_compute. reflexivity.
Defined.

(** C6, as the claim states it, fails in binary64.  From fresh weights
    ([x = 0]) and the gradients [1, 1, -1, 1, 1, -1], the fifth update takes
    the agree arm and moves the weight from [-0.16] to [-0.16 - 0.072], which
    rounds to [-0.23199999999999998]; the sixth takes the disagree arm, adds
    [0.072] back and leaves [-0.15999999999999998], which is not [-0.16]. *)
Lemma disagree_revert_is_rounded :
  let o := MkOpt 1e-6 50 1.2 0.5 0 in
  let update g m := trn_rpropsub o 1 0 1 (set_grad [g] m) in
  let m4 := update 1 (update (-1) (update 1 (update 1 (MkMem [0] [0] [0] [0.1] [0])))) in
  let m5 := update 1 m4 in
  let m6 := update (-1) m5 in
  rprop_init 1 [0] [0] [0] = Some (MkMem [0] [0] [0] [0.1] [0]) /\
  (cell_branch o <$> load (set_grad [1] m4) 0) = Some Agree /\
  (cell_branch o <$> load (set_grad [-1] m5) 0) = Some Disagree /\
  theta m4 = [-0.16] /\ theta m5 = [-0.23199999999999998] /\
  theta m6 = [-0.15999999999999998] /\
  (-0.15999999999999998 =? -0.16) = false.
Proof. vm_compute. repeat split. Qed.

(** ** The previous gradient *)

(** C8. After every per-feature update, whatever the arm, [gp[f]] is the raw
    gradient [g[f]] as the arm left it: [0.0] after the disagree arm, the
    gradient the provider supplied after the two others; so it is at every
    feature of the range of [trn_rpropsub].  It is not taken from the
    pseudo-gradient [pg], from which it differs, for instance, at [x = 1],
    [g = 1] and [rho1 = 1/2], where [pg = 3/2] and [gp] becomes [1]. *)
Theorem gp_is_raw_gradient :
  (forall (o : opt float) (c : cell float),
     cgp (rprop_cell o c) = cg (rprop_cell o c) /\
     cg (rprop_cell o c) =
       match cell_branch o c with Disagree => 0 | _ => cg c end) /\
  (forall (o : opt float) (F id cnt : Z) (m : mem float) (f : nat) (c : cell float),
     (Z.to_nat (range_from F id cnt) <= f < Z.to_nat (range_to F id cnt))%nat ->
     load (trn_rpropsub o F id cnt m) f = Some c -> cgp c = cg c) /\
  (let o := MkOpt 1e-6 50 1.2 0.5 0.5 in
   let c := MkCell 1 1 0 0.1 0 in
   pseudo_gradient o (cx c) (cg c) = 1.5 /\ cgp (rprop_cell o c) = 1).
Proof.
  assert (Hc : forall (o : opt float) (c : cell float),
             cgp (rprop_cell o c) = cg (rprop_cell o c)).
  { intros o c. unfold rprop_cell, rprop_arm.
    destruct (branch_of _ _); reflexivity. }
  split; [|split].
  - intros o c. split; [apply Hc|].
    unfold rprop_cell, rprop_arm, cell_branch.
    destruct (branch_of _ _); reflexivity.
  - intros o F id cnt m f c Hf. rewrite load_trn_rpropsub.
    destruct (decide _); [|contradiction].
    destruct (load m f); cbn; [|discriminate].
    intros [= <-]. apply Hc.
  - vm_compute. auto.
Qed.

Lemma gp_is_raw_gradient_witness :
  let o := MkOpt 1e-6 50 1.2 0.5 0 in
  let m := MkMem [-0.22] [-1] [1] [0.12] [-0.12] in
  load (trn_rpropsub o 1 0 1 m) 0 = Some (MkCell (-0.1) 0 0 0.06 (-0.12)) /\
  cgp (MkCell (-0.1) 0 0 0.06 (-0.12)) = cg (MkCell (-0.1) 0 0 0.06 (-0.12)).
Proof.
  split; [vm_compute; reflexivity|].
  apply (proj1 (proj2 gp_is_raw_gradient) (MkOpt 1e-6 50 1.2 0.5 0) 1%Z 0%Z 1%Z
           (MkMem [-0.22] [-1] [1] [0.12] [-0.12]) 0%nat).
  - vm_compute. lia.
  - vm_compute. reflexivity.
Defined.

(** ** A run of three updates *)

(** C2. One feature, one worker, [x = 0], [stp = 0.1], [gp = 0],
    [stpmin = 1e-6], [stpmax = 50], [stpinc = 1.2], [stpdec = 0.5],
    [rho1 = 0], and the gradients [1], [1], [-1]: each partial weight update
    runs over the range [0, 1), and the arrays hold [x = -0.1], [stp = 0.1],
    [gp = 1] after the first, [x = -0.22], [stp = 0.12], [gp = 1] after the
    second, and [x = -0.1], [stp = 0.06], [gp = 0] after the third, whatever
    [g] and [dlt] held at the start: in binary64, where the decimals stand
    for the nearest doubles, and in exact arithmetic. *)
Theorem three_updates_trace :
  (forall g0 dlt0 : float,
     let o := MkOpt 1e-6 50 1.2 0.5 0 in
     let update g m := trn_rpropsub o 1 0 1 (set_grad [g] m) in
     let m0 := MkMem [0] [g0] [0] [0.1] [dlt0] in
     let m1 := update 1 m0 in
     let m2 := update 1 m1 in
     let m3 := update (-1) m2 in
     rprop_init 1 [0] [g0] [dlt0] = Some m0 /\
     (range_from 1 0 1 = 0%Z /\ range_to 1 0 1 = 1%Z) /\
     (theta m1 = [-0.1] /\ step m1 = [0.1] /\ gprev m1 = [1]) /\
     (theta m2 = [-0.22] /\ step m2 = [0.12] /\ gprev m2 = [1]) /\
     (theta m3 = [-0.1] /\ step m3 = [0.06] /\ gprev m3 = [0])) /\
  (forall g0 dlt0 : Q,
     let o := MkOpt (1 # 1000000) 50 (12 # 10) (5 # 10) 0 in
     let update g m := trn_rpropsub o 1 0 1 (set_grad [g] m) in
     let m0 := MkMem [0] [g0] [0] [1 # 10] [dlt0] in
     let m1 := update 1 m0 in
     let m2 := update 1 m1 in
     let m3 := update (-1) m2 in
     rprop_init 1 [0] [g0] [dlt0] = Some m0 /\
     (Forall2 Qeq (theta m1) [- (10 # 100)] /\ Forall2 Qeq (step m1) [10 # 100] /\
      Forall2 Qeq (gprev m1) [1]) /\
     (Forall2 Qeq (theta m2) [- (22 # 100)] /\ Forall2 Qeq (step m2) [12 # 100] /\
      Forall2 Qeq (gprev m2) [1]) /\
     (Forall2 Qeq (theta m3) [- (10 # 100)] /\ Forall2 Qeq (step m3) [6 # 100] /\
      Forall2 Qeq (gprev m3) [0]))%Q.
Proof.
  split; intros g0 dlt0.
  - vm_compute. repeat split.
  - vm_compute. repeat split; repeat constructor.
Qed.

(** ** The bounds of the step sizes *)

(** C3, as the claim states it, fails: nothing clamps the initial step size.
    With [stpmin = 1e-6] and [stpmax = 0.05], the initialisation stores
    [stp = 0.1], the first update takes the neutral arm and leaves it there,
    above [stpmax]. *)
Lemma step_bound_needs_sane_options :
  let o := MkOpt 1e-6 0.05 1.2 0.5 0 in
  let m0 := MkMem [0] [1] [0] [0.1] [0] in
  let m1 := trn_rpropsub o 1 0 1 m0 in
  rprop_init 1 [0] [1] [0] = Some m0 /\ step m1 = [0.1] /\
  (stpmin o <=? stpmax o) = true /\ (0.1 <=? stpmax o) = false.
Proof. vm_compute. repeat split. Qed.

End Binary64.

Section StepBounds.
Local Open Scope float_scope.
Variable o : opt float.
Hypothesis sane : sane_opt64 o = true.

(** The conjuncts of [sane_opt64]. *)
Lemma sane_opt64_facts :
  (0 <=? stpmin o) = true /\ (stpmin o <=? 0.1) = true /\
  (0.1 <=? stpmax o) = true /\ (stpmax o <? infinity) = true /\
  (1 <=? stpinc o) = true /\ (0 <=? stpdec o) = true /\ (stpdec o <=? 1) = true.
Proof using sane.
  unfold sane_opt64 in sane.
  repeat (apply andb_prop in sane as [sane ?]). repeat split; assumption.
Qed.

(** The initial step, the accelerated step and the decelerated step are
    within the bounds. *)
Lemma in_bounds64_init : in_bounds64 o d_tenth = true.
Proof using sane.
  destruct sane_opt64_facts as (_ & H1 & H2 & _).
  unfold in_bounds64. cbn. now rewrite H1, H2.
Qed.

Lemma in_bounds64_inc (s : float) :
  in_bounds64 o s = true ->
  in_bounds64 o (d_min (d_mul s (stpinc o)) (stpmax o)) = true.
Proof using sane.
  destruct sane_opt64_facts as (H0 & _ & _ & _ & Hinc & _).
  unfold in_bounds64, d_min. cbn.
  intros Hs. apply andb_prop in Hs as [Hlo Hhi].
  destruct (s * stpinc o <? stpmax o) eqn:Hlt.
  - apply float_ltb_leb in Hlt. rewrite Hlt, andb_true_r.
    apply (float_leb_trans _ s); [exact Hlo|].
    apply float_mul_ge.
    + now apply (float_leb_trans _ (stpmin o)).
    + exact Hinc.
    + now apply (float_leb_refl_l _ (stpmax o)).
  - rewrite (float_leb_trans _ _ _ Hlo Hhi).
    now rewrite (float_leb_refl_r _ _ Hhi).
Qed.

Lemma in_bounds64_dec (s : float) :
  in_bounds64 o s = true ->
  in_bounds64 o (d_max (d_mul s (stpdec o)) (stpmin o)) = true.
Proof using sane.
  destruct sane_opt64_facts as (H0 & _ & _ & Hfin & _ & Hd0 & Hd1).
  unfold in_bounds64, d_max. cbn.
  intros Hs. apply andb_prop in Hs as [Hlo Hhi].
  destruct (float_mul_le s (stpdec o)) as [Hle Hge]; auto.
  { now apply (float_leb_trans _ (stpmin o)). }
  { now apply (float_leb_ltb_trans _ (stpmax o)). }
  destruct (s * stpdec o <? stpmin o) eqn:Hlt.
  - rewrite (float_leb_refl_l _ _ Hlo). cbn.
    now apply (float_leb_trans _ s).
  - rewrite (float_leb_trans _ _ _ Hle Hhi), andb_true_r.
    apply float_nlt_leb; [| |exact Hlt].
    + now apply (float_leb_refl_l _ s).
    + now apply (float_leb_refl_l _ s).
Qed.

End StepBounds.

(** C3, as the code has it.  When [0 <= stpmin <= 0.1 <= stpmax < inf],
    [stpinc >= 1] and [0 <= stpdec <= 1], every step size lies between
    [stpmin] and [stpmax] in every state of a run: after the initialisation
    and after any sequence of gradients and partial weight updates, rounding
    included. *)
Theorem step_sizes_stay_in_bounds (o : opt float) (F : Z) (m : mem float) :
  sane_opt64 o = true -> reachable o F m ->
  Forall (fun s => in_bounds64 o s = true) (step m).
Proof.
  intros Ho. apply ok_reachable.
  - now apply in_bounds64_init.
  - intros s. now apply in_bounds64_inc.
  - intros s. now apply in_bounds64_dec.
Qed.

Lemma step_sizes_stay_in_bounds_witness :
  (let o := MkOpt 1e-6 50 1.2 0.5 0.5 in
   let m0 := MkMem [0; 0] [1; -1] [0; 0] [0.1; 0.1] [0; 0] in
   Forall (fun s => in_bounds64 o s = true)
     (step (trn_rpropsub o 2 0 1 (set_grad [1; 1] (trn_rpropsub o 2 0 1 m0)))))%float.
Proof.
  apply (step_sizes_stay_in_bounds _ 2).
  - vm_compute. reflexivity.
  - apply reach_update, reach_gradient; [reflexivity|]. apply reach_update.
    apply (reach_init _ _ [0; 0] [1; -1] [0; 0])%float; reflexivity.
Defined.

(** The same in exact arithmetic, where [stpdec <= 1] is enough. *)
Lemma step_sizes_stay_in_bounds_exact (o : opt Q) (F : Z) (m : mem Q) :
  sane_optQ o -> reachable o F m -> Forall (in_boundsQ o) (step m).
Proof.
  intros Ho. apply ok_reachable.
  - unfold in_boundsQ, sane_optQ in *. cbn. lra.
  - intros s. now apply in_boundsQ_inc.
  - intros s. now apply in_boundsQ_dec.
Qed.

(** ** The partition of the features *)

(** When the product [F * W] fits a [size_t], the ranges of the workers
    [0 .. W-1] start at [0], end at [F], each begins where the one before
    ends, and every index below [F] lies in the range of exactly one
    worker. *)
Lemma ranges_partition_no_wrap (F W : Z) :
  0 <= F -> 1 <= W -> F * W < size_max ->
  range_from F 0 W = 0 /\
  range_to F (W - 1) W = F /\
  (forall id, 0 <= id < W ->
     range_from F id W <= range_to F id W /\
     range_to F id W = range_from F (id + 1) W) /\
  (forall i, 0 <= i < F ->
     exists id, 0 <= id < W /\
       range_from F id W <= i < range_to F id W /\
       forall id', 0 <= id' < W ->
         range_from F id' W <= i < range_to F id' W -> id' = id).
Proof.
  intros HF HW Hwrap.
  pose proof (range_from_exact F W HF HW Hwrap) as Hfrom.
  pose proof (range_to_exact F W HF HW Hwrap) as Hto.
  split; [|split; [|split]].
  - rewrite Hfrom by lia. now rewrite Z.mul_0_r.
  - rewrite Hto by lia.
    replace (F * (W - 1 + 1)) with (F * W) by lia. apply Z.div_mul. lia.
  - intros id Hid. rewrite Hfrom, Hto, Hfrom by lia. split; [|reflexivity].
    apply range_mono; lia.
  - intros i Hi.
    destruct (owner_exists F W HF HW i Hi) as [Hid Hin].
    exists (((i + 1) * W - 1) / F). split; [exact Hid|].
    rewrite Hfrom, Hto by lia. split; [exact Hin|].
    intros id' Hid'. rewrite Hfrom, Hto by lia.
    intros Hin'. exact (owner_unique F W HF HW Hwrap i _ _ Hin' Hin).
Qed.

(** C4. For every number of features [F >= 0] and of workers [W >= 1] that
    [trn_rpropsub] can be given (it is called by [trn_rprop] only, after the
    initialisation loop that ends for [F < 2^32] only, with a worker count
    that is an [int]), the ranges that its [from] and [to] arithmetic
    computes in [size_t] for the workers [0 .. W-1] cover [0, F) exactly:
    they start at [0], end at [F], each begins where the one before ends (no
    gap, no overlap), and every index below [F] lies in the range of exactly
    one worker. *)
Theorem worker_ranges_partition (F W : Z) :
  0 <= F < 2 ^ 32 -> 1 <= W < 2 ^ 31 ->
  range_from F 0 W = 0 /\
  range_to F (W - 1) W = F /\
  (forall id, 0 <= id < W ->
     range_from F id W <= range_to F id W /\
     range_to F id W = range_from F (id + 1) W) /\
  (forall i, 0 <= i < F ->
     exists id, 0 <= id < W /\
       range_from F id W <= i < range_to F id W /\
       forall id', 0 <= id' < W ->
         range_from F id' W <= i < range_to F id' W -> id' = id).
Proof.
  intros HF HW. apply ranges_partition_no_wrap; [lia | lia |].
  unfold size_max. nia.
Qed.

Lemma worker_ranges_partition_witness :
  range_from 10 0 3 = 0 /\
  range_to 10 (3 - 1) 3 = 10 /\
  (forall id, 0 <= id < 3 ->
     range_from 10 id 3 <= range_to 10 id 3 /\
     range_to 10 id 3 = range_from 10 (id + 1) 3) /\
  (forall i, 0 <= i < 10 ->
     exists id, 0 <= id < 3 /\
       range_from 10 id 3 <= i < range_to 10 id 3 /\
       forall id', 0 <= id' < 3 ->
         range_from 10 id' 3 <= i < range_to 10 id' 3 -> id' = id).
Proof.
  apply (worker_ranges_partition 10 3); lia.
Defined.

(** ** The stop flag *)

(** C9. In any iteration [k] of the loop that the loop condition lets in, if
    the stop flag is set when the gradient computation returns, the loop ends
    there: no partial weight update is dispatched and no progress is reported
    for [k], nothing runs after it however many iterations were left, and of
    the arrays only [g], which the provider has overwritten, differs: the
    weights, [gp], [stp] and [dlt] are those the iteration started with. *)
Theorem stop_after_gradient_discards_it {D : Type} `{Scalar D}
    (e : collaborators D) (o : opt D) (F : Z) (W n k : nat) (m : mem D)
    (tr : list event) :
  uit_stop_head e k = false -> uit_stop_grad e k = true ->
  let '(m', tr') := rprop_loop e o F W (S n) k m tr in
  tr' = tr ++ [EvGradient k] /\
  theta m' = theta m /\ gprev m' = gprev m /\ step m' = step m /\
  delta m' = delta m /\ grad m' = fst (grd_gradient e k (theta m)).
Proof.
  intros Hh Hg. cbn. rewrite Hh.
  destruct (grd_gradient e k (theta m)) as [g fx]. rewrite Hg. cbn.
  repeat split.
Qed.

Lemma stop_after_gradient_discards_it_witness :
  let e := MkCollab (fun _ x => (map PrimFloat.opp x, 3%float))
             (fun _ => false) (fun k => Nat.eqb k 1) (fun _ _ => true) in
  let o := (MkOpt 1e-6 50 1.2 0.5 0)%float in
  let m := (MkMem [-0.1] [1] [1] [0.1] [-0.1])%float in
  let '(m', tr') := rprop_loop e o 1 1 3 1 m [EvGradient 0; EvUpdate 0; EvProgress 0] in
  tr' = [EvGradient 0; EvUpdate 0; EvProgress 0] ++ [EvGradient 1] /\
  theta m' = theta m /\ gprev m' = gprev m /\ step m' = step m /\
  delta m' = delta m /\ grad m' = fst (grd_gradient e 1 (theta m)).
Proof.
  exact (stop_after_gradient_discards_it
           (MkCollab (fun _ x => (map PrimFloat.opp x, 3%float))
              (fun _ => false) (fun k => Nat.eqb k 1) (fun _ _ => true))
           (MkOpt 1e-6 50 1.2 0.5 0) 1 1 2 1 (MkMem [-0.1] [1] [1] [0.1] [-0.1])
           [EvGradient 0; EvUpdate 0; EvProgress 0] eq_refl eq_refl)%float.
Defined.

(** * Further properties of the optimizer *)

(** ** The workers of one update *)

Section Commute.
Context {D : Type} `{Scalar D}.

Lemma store_store_ne (m : mem D) (f f' : nat) (c c' : cell D) :
  f <> f' -> store (store m f c) f' c' = store (store m f' c') f c.
Proof.
  intros Hf. unfold store. cbn.
  f_equal; apply list_insert_insert_ne; auto.
Qed.

(** Two turns of the loop at distinct features can be exchanged. *)
Lemma rprop_at_comm (o : opt D) (m : mem D) (f f' : nat) :
  f <> f' -> rprop_at o (rprop_at o m f) f' = rprop_at o (rprop_at o m f') f.
Proof.
  intros Hf.
  assert (E1 : load (rprop_at o m f) f' = load m f').
  { rewrite load_rprop_at. destruct (decide (f = f')); [contradiction | reflexivity]. }
  assert (E2 : load (rprop_at o m f') f = load m f).
  { rewrite load_rprop_at. destruct (decide (f' = f)); [congruence | reflexivity]. }
  unfold rprop_at at 1 3. rewrite E1, E2. unfold rprop_at.
  destruct (load m f) as [c|], (load m f') as [c'|]; try reflexivity.
  now apply store_store_ne.
Qed.

Lemma foldl_rprop_at_comm (o : opt D) (l : list nat) (m : mem D) (f : nat) :
  f ∉ l ->
  foldl (rprop_at o) (rprop_at o m f) l = rprop_at o (foldl (rprop_at o) m l) f.
Proof.
  revert m. induction l as [|a l IH]; intros m Hf; [reflexivity|].
  apply not_elem_of_cons in Hf as [Hfa Hf]. cbn.
  rewrite rprop_at_comm by exact Hfa. now apply IH.
Qed.

Lemma foldl_rprop_at_disjoint (o : opt D) (l1 l2 : list nat) (m : mem D) :
  (forall f, f ∈ l1 -> f ∉ l2) ->
  foldl (rprop_at o) (foldl (rprop_at o) m l1) l2 =
  foldl (rprop_at o) (foldl (rprop_at o) m l2) l1.
Proof.
  revert m. induction l1 as [|a l1 IH]; intros m Hd; [reflexivity|]. cbn.
  rewrite IH by (intros f Hf; apply Hd; now right).
  f_equal. apply foldl_rprop_at_comm. apply Hd. now left.
Qed.

(** The loops over two ranges that do not meet can be exchanged. *)
Lemma rprop_range_comm (o : opt D) (a b c d : nat) (m : mem D) :
  (b <= c \/ d <= a)%nat ->
  rprop_range o a b (rprop_range o c d m) = rprop_range o c d (rprop_range o a b m).
Proof.
  intros Hd. unfold rprop_range. apply foldl_rprop_at_disjoint.
  intros f Hf%elem_of_seq Hf'%elem_of_seq. lia.
Qed.

(** The loop over [a, b) and then the loop over [b, c) are the loop over
    [a, c). *)
Lemma rprop_range_app (o : opt D) (a b c : nat) (m : mem D) :
  (a <= b <= c)%nat ->
  rprop_range o b c (rprop_range o a b m) = rprop_range o a c m.
Proof.
  intros Habc. unfold rprop_range.
  replace (c - a)%nat with ((b - a) + (c - b))%nat by lia.
  rewrite seq_app, foldl_app.
  now replace (a + (b - a))%nat with b by lia.
Qed.

(** The first [k] workers of [W] run the loop over the features below
    [F * k / W]. *)
Lemma spawn_prefix (o : opt D) (F : Z) (W k : nat) (m : mem D) :
  0 <= F -> (1 <= W)%nat -> F * Z.of_nat W < size_max -> (k <= W)%nat ->
  foldl (fun m id => trn_rpropsub o F (Z.of_nat id) (Z.of_nat W) m) m (seq 0 k) =
  rprop_range o 0 (Z.to_nat (F * Z.of_nat k / Z.of_nat W)) m.
Proof.
  intros HF HW Hwrap. induction k as [|k IH]; intros Hk.
  - cbn. rewrite Z.mul_0_r, Zdiv_0_l. reflexivity.
  - rewrite seq_S, foldl_app. cbn [foldl Nat.add]. rewrite IH by lia.
    unfold trn_rpropsub.
    rewrite (range_from_exact F (Z.of_nat W)), (range_to_exact F (Z.of_nat W)) by lia.
    replace (Z.of_nat k + 1) with (Z.of_nat (S k)) by lia.
    apply rprop_range_app.
    pose proof (range_mono F (Z.of_nat W) HF ltac:(lia) (Z.of_nat k) (Z.of_nat (S k))
                  ltac:(lia)).
    assert (0 <= F * Z.of_nat k / Z.of_nat W) by (apply Z.div_pos; nia).
    lia.
Qed.

End Commute.

(** X1. When [F * W] fits a [size_t], the [W] calls of [trn_rpropsub] that
    [mth_spawn] makes amount to one run of the loop body over the features
    [0 .. F-1], each visited once, in order; so the arrays they leave do not
    depend on the number of workers: they are those that one worker
    leaves. *)
Theorem spawn_is_one_pass {D : Type} `{Scalar D} (o : opt D) (F : Z) (W : nat)
    (m : mem D) :
  0 <= F -> (1 <= W)%nat -> F * Z.of_nat W < size_max ->
  mth_spawn o F W m = rprop_range o 0 (Z.to_nat F) m /\
  mth_spawn o F W m = mth_spawn o F 1 m.
Proof.
  intros HF HW Hwrap.
  assert (E : forall W', (1 <= W')%nat -> F * Z.of_nat W' < size_max ->
            mth_spawn o F W' m = rprop_range o 0 (Z.to_nat F) m).
  { intros W' HW' Hwrap'. unfold mth_spawn. rewrite spawn_prefix by (auto; lia).
    now rewrite Z.div_mul by lia. }
  split; [now apply E|]. rewrite (E W), (E 1%nat); auto; nia.
Qed.

Lemma spawn_is_one_pass_witness :
  let o := (MkOpt 1e-6 50 1.2 0.5 0.5)%float in
  let m := (MkMem [0; 0.3; -2] [1; -1; 0.25] [0; 1; -1] [0.1; 0.2; 0.1] [0; 0.2; 0])%float in
  mth_spawn o 3 2 m = rprop_range o 0 (Z.to_nat 3) m /\
  mth_spawn o 3 2 m = mth_spawn o 3 1 m.
Proof.
  apply (spawn_is_one_pass (D := float)); [lia | lia | reflexivity].
Defined.

(** X2. When [F * W] fits a [size_t], two distinct workers of the same
    update can run in either order: each reads and writes the entries of its
    own range only, and the arrays they leave are the same. *)
Theorem workers_commute {D : Type} `{Scalar D} (o : opt D) (F W id id' : Z)
    (m : mem D) :
  0 <= F -> 1 <= W -> F * W < size_max ->
  0 <= id < W -> 0 <= id' < W -> id <> id' ->
  trn_rpropsub o F id W (trn_rpropsub o F id' W m) =
  trn_rpropsub o F id' W (trn_rpropsub o F id W m).
Proof.
  intros HF HW Hwrap Hid Hid' Hne. unfold trn_rpropsub.
  rewrite !(range_from_exact F W HF HW Hwrap), !(range_to_exact F W HF HW Hwrap) by lia.
  apply rprop_range_comm.
  assert (Hpos : forall a, 0 <= a -> 0 <= F * a / W) by (intros; apply Z.div_pos; nia).
  destruct (Z_lt_le_dec id id') as [Hlt|Hge].
  - left. pose proof (range_mono F W HF HW (id + 1) id' ltac:(lia)).
    pose proof (Hpos (id + 1) ltac:(lia)). lia.
  - right. pose proof (range_mono F W HF HW (id' + 1) id ltac:(lia)).
    pose proof (Hpos (id' + 1) ltac:(lia)). lia.
Qed.

Lemma workers_commute_witness :
  let o := (MkOpt 1e-6 50 1.2 0.5 0.5)%float in
  let m := (MkMem [0; 0.3; -2] [1; -1; 0.25] [0; 1; -1] [0.1; 0.2; 0.1] [0; 0.2; 0])%float in
  trn_rpropsub o 3 0 2 (trn_rpropsub o 3 1 2 m) =
  trn_rpropsub o 3 1 2 (trn_rpropsub o 3 0 2 m).
Proof.
  apply (workers_commute (D := float)); try lia. reflexivity.
Defined.

(** X3. Whatever the number of features, and even when the products
    [F * id] and [F * (id + 1)] wrap around, the loop of worker [id] of
    [cnt] only visits indices below [F]: [trn_rpropsub] reads and writes
    inside the arrays. *)
Theorem worker_stays_inside_arrays (F id cnt f : Z) :
  0 <= F -> 0 <= id < cnt -> cnt < 2 ^ 31 ->
  range_from F id cnt <= f < range_to F id cnt -> 0 <= f < F.
Proof.
  intros HF Hid Hcnt [Hlo Hhi].
  pose proof (range_to_within F id cnt HF Hid ltac:(unfold size_max; lia)).
  split; [|lia].
  assert (0 <= range_from F id cnt); [|lia].
  unfold range_from, to_size_t. apply Z.div_pos.
  - apply Z.mod_pos_bound. reflexivity.
  - rewrite Z.mod_small by (unfold size_max; lia). lia.
Qed.

Lemma worker_stays_inside_arrays_witness :
  range_from (2 ^ 63) 2 4 <= 5 < range_to (2 ^ 63) 2 4 /\ 0 <= 5 < 2 ^ 63.
Proof.
  assert (H : range_from (2 ^ 63) 2 4 <= 5 < range_to (2 ^ 63) 2 4)
    by (vm_compute; split; [discriminate | reflexivity]).
  split; [exact H|].
  apply (worker_stays_inside_arrays (2 ^ 63) 2 4 5); [lia | lia | lia | exact H].
Defined.

(** ** The training loop *)

Section LoopShape.
Context {D : Type} `{Scalar D}.

Lemma iterations_S (k j : nat) :
  iterations k (S j) = iteration_events k ++ iterations (S k) j.
Proof. reflexivity. Qed.

(** From iteration [k] with [n] iterations left, the loop runs [j <= n]
    complete iterations, and then at most one gradient. *)
Lemma rprop_loop_shape (e : collaborators D) (o : opt D) (F : Z) (W n : nat) :
  forall (k : nat) (m : mem D) (tr : list event),
  exists j : nat, (j <= n)%nat /\
    (snd (rprop_loop e o F W n k m tr) = tr ++ iterations k j \/
     ((j < n)%nat /\
      snd (rprop_loop e o F W n k m tr) = tr ++ iterations k j ++ [EvGradient (k + j)])).
Proof.
  induction n as [|n IH]; intros k m tr.
  - exists 0%nat. split; [lia|]. left. cbn. now rewrite app_nil_r.
  - cbn [rprop_loop]. destruct (uit_stop_head e k).
    { exists 0%nat. split; [lia|]. left. cbn. now rewrite app_nil_r. }
    destruct (grd_gradient e k (theta m)) as [g fx].
    destruct (uit_stop_grad e k).
    { exists 0%nat. split; [lia|]. right. split; [lia|]. cbn.
      now rewrite Nat.add_0_r. }
    destruct (uit_progress e (k + 1) fx).
    + destruct (IH (S k) (mth_spawn o F W (set_grad g m))
                  (((tr ++ [EvGradient k]) ++ [EvUpdate k]) ++ [EvProgress k]))
        as (j & Hj & Hs).
      exists (S j). split; [lia|]. rewrite iterations_S. unfold iteration_events.
      replace (k + S j)%nat with (S k + j)%nat by lia.
      destruct Hs as [Hs|[Hlt Hs]]; [left | right; split; [lia|]]; rewrite Hs;
        rewrite <- !app_assoc; reflexivity.
    + exists 1%nat. split; [lia|]. left. cbn. rewrite <- !app_assoc. reflexivity.
Qed.

Lemma length_theta_rprop_range (o : opt D) (from to : nat) (m : mem D) :
  length (theta (rprop_range o from to m)) = length (theta m).
Proof.
  unfold rprop_range. generalize (seq from (to - from)) as l. intros l.
  revert m. induction l as [|f l IH]; intros m; cbn; [reflexivity|].
  rewrite IH. unfold rprop_at. destruct (load m f); [|reflexivity].
  cbn. apply length_insert.
Qed.

Lemma reachable_length_theta (o : opt D) (F : Z) (m : mem D) :
  reachable o F m -> length (theta m) = Z.to_nat F.
Proof.
  induction 1 as [x g dlt m Hx _ _ Hi | g m _ _ IH | id cnt m _ IH].
  - unfold rprop_init in Hi. destruct (F <? 2 ^ 32); [|discriminate].
    injection Hi as <-. exact Hx.
  - exact IH.
  - unfold trn_rpropsub. now rewrite length_theta_rprop_range.
Qed.

Lemma mth_spawn_reachable (o : opt D) (F : Z) (W : nat) (m : mem D) :
  reachable o F m -> reachable o F (mth_spawn o F W m).
Proof.
  unfold mth_spawn. generalize (seq 0 W) as l. intros l. revert m.
  induction l as [|id l IH]; intros m Hm; [exact Hm|].
  cbn. apply IH. now apply reach_update.
Qed.

(** The loop goes from state to state of a run, when the gradients have the
    length of the weights. *)
Lemma rprop_loop_reachable (e : collaborators D) (o : opt D) (F : Z) (W n : nat) :
  (forall k y, length y = Z.to_nat F ->
     length (fst (grd_gradient e k y)) = Z.to_nat F) ->
  forall (k : nat) (m : mem D) (tr : list event),
  reachable o F m -> reachable o F (fst (rprop_loop e o F W n k m tr)).
Proof.
  intros Hg. induction n as [|n IH]; intros k m tr Hm; [exact Hm|].
  cbn [rprop_loop]. destruct (uit_stop_head e k); [exact Hm|].
  pose proof (Hg k (theta m) (reachable_length_theta o F m Hm)) as Hlen.
  destruct (grd_gradient e k (theta m)) as [g fx]. cbn in Hlen.
  assert (Hm1 : reachable o F (set_grad g m)) by now apply reach_gradient.
  destruct (uit_stop_grad e k); [exact Hm1|].
  assert (Hm2 : reachable o F (mth_spawn o F W (set_grad g m)))
    by now apply mth_spawn_reachable.
  destruct (uit_progress e (k + 1) fx); [now apply IH | exact Hm2].
Qed.

End LoopShape.

(** X4. For a model of less than [2^32] features [trn_rprop] returns, and
    what its loop did is a number [j <= K] of complete iterations, each a
    gradient computation, then the partial weight updates, then the progress
    report, in the order [0, 1, .., j-1], followed by nothing or, when
    [j < K], by the gradient computation of iteration [j] alone (the stop
    flag was found set after it): no more than [K] updates are made, none
    without its gradient, and none after an iteration that was cut short. *)
Theorem training_loop_shape {D : Type} `{Scalar D} (e : collaborators D) (o : opt D)
    (F : Z) (W K : nat) (x g dlt : list D) :
  F < 2 ^ 32 ->
  exists (m : mem D) (j : nat), (j <= K)%nat /\
    (trn_rprop e o F W K x g dlt = Some (m, iterations 0 j) \/
     ((j < K)%nat /\
      trn_rprop e o F W K x g dlt = Some (m, iterations 0 j ++ [EvGradient j]))).
Proof.
  intros HF. unfold trn_rprop, rprop_init.
  destruct (Z.ltb_spec F (2 ^ 32)) as [_|]; [|lia].
  set (m0 := {| theta := x; grad := g; gprev := _; step := _; delta := dlt |}).
  destruct (rprop_loop_shape e o F W K 0 m0 []) as (j & Hj & Hs).
  destruct (rprop_loop e o F W K 0 m0 []) as [m tr]. cbn in Hs.
  exists m, j. split; [exact Hj|].
  destruct Hs as [->|[Hlt ->]]; auto.
Qed.

Lemma training_loop_shape_witness :
  let e := MkCollab (fun _ _ => ([1; -1], 3))%float
             (fun _ => false) (fun k => Nat.eqb k 2) (fun _ _ => true) in
  let o := (MkOpt 1e-6 50 1.2 0.5 0)%float in
  exists (m : mem float) (j : nat), (j <= 5)%nat /\
    (trn_rprop e o 2 1 5 [0; 0]%float [0; 0]%float [0; 0]%float = Some (m, iterations 0 j) \/
     ((j < 5)%nat /\
      trn_rprop e o 2 1 5 [0; 0]%float [0; 0]%float [0; 0]%float =
        Some (m, iterations 0 j ++ [EvGradient j]))).
Proof.
  apply (training_loop_shape (D := float)). lia.
Defined.

(** X5. For a model of less than [2^32] features whose arrays have [F]
    entries, and a gradient provider that returns gradients of the length of
    the weights, [trn_rprop] returns, and the arrays it ends with are a state
    of a run: what holds in every such state holds of them; so, under the
    options of C3, every step size it leaves lies between [stpmin] and
    [stpmax]. *)
Theorem trn_rprop_ends_in_a_state_of_a_run (e : collaborators float) (o : opt float)
    (F : Z) (W K : nat) (x g dlt : list float) :
  F < 2 ^ 32 ->
  length x = Z.to_nat F -> length g = Z.to_nat F -> length dlt = Z.to_nat F ->
  (forall k y, length y = Z.to_nat F ->
     length (fst (grd_gradient e k y)) = Z.to_nat F) ->
  exists m tr, trn_rprop e o F W K x g dlt = Some (m, tr) /\
    reachable o F m /\
    (sane_opt64 o = true -> Forall (fun s => in_bounds64 o s = true) (step m)).
Proof.
  intros HF Hx Hg Hdlt He. unfold trn_rprop.
  destruct (rprop_init F x g dlt) as [m0|] eqn:Hi.
  2:{ unfold rprop_init in Hi. destruct (Z.ltb_spec F (2 ^ 32)); [discriminate | lia]. }
  assert (Hm0 : reachable o F m0) by (apply (reach_init o F x g dlt m0); assumption).
  pose proof (rprop_loop_reachable e o F W K He 0 m0 [] Hm0) as Hm.
  destruct (rprop_loop e o F W K 0 m0 []) as [m tr]. cbn in Hm.
  exists m, tr. split; [reflexivity|]. split; [exact Hm|].
  intros Ho. apply (ok_reachable o (fun s => in_bounds64 o s = true)) with (F := F); auto.
  - now apply in_bounds64_init.
  - intros s. now apply in_bounds64_inc.
  - intros s. now apply in_bounds64_dec.
Qed.

Lemma trn_rprop_ends_in_a_state_of_a_run_witness :
  let e := MkCollab (fun _ y => (map PrimFloat.opp y, 3%float))
             (fun _ => false) (fun k => Nat.eqb k 2) (fun _ _ => true) in
  let o := (MkOpt 1e-6 50 1.2 0.5 0)%float in
  exists m tr, trn_rprop e o 2 1 5 [0.5; -1]%float [0; 0]%float [0; 0]%float = Some (m, tr) /\
    reachable o 2 m /\
    (sane_opt64 o = true -> Forall (fun s => in_bounds64 o s = true) (step m)).
Proof.
  apply trn_rprop_ends_in_a_state_of_a_run; try reflexivity.
  intros k y Hy. cbn. now rewrite length_map.
Defined.

(** ** Invariants of the entries of a feature *)

(** A property of the entries of a feature that the initialisation
    establishes, and that a new gradient and an update keep, holds in every
    state of a run. *)
Lemma cell_invariant_reachable {D : Type} `{Scalar D} (o : opt D) (P : cell D -> Prop) :
  (forall x g dlt, P (cell_init x g dlt)) ->
  (forall g c, P c -> P (feed g c)) ->
  (forall c, P c -> P (rprop_cell o c)) ->
  forall (F : Z) (m : mem D) (f : nat) (c : cell D),
  reachable o F m -> load m f = Some c -> P c.
Proof.
  intros Hinit Hfeed Hcell F m f c Hm Hc.
  destruct (reachable_feature_run o F m Hm f c Hc) as (x & g0 & dlt & gs & ->).
  apply Hfeed. clear Hc.
  induction gs as [|g gs IH] using rev_ind; [apply Hinit|].
  rewrite run_cell_snoc. apply Hcell, Hfeed, IH.
Qed.

Section Flat.
Local Open Scope float_scope.

(** A [double] that is neither below nor above zero is a zero or a NaN. *)
Lemma flat_cases (v : float) :
  (v <? 0) = false -> (0 <? v) = false ->
  Prim2SF v = S754_nan \/ exists s, Prim2SF v = S754_zero s.
Proof.
  rewrite !FloatAxioms.ltb_spec. change (Prim2SF 0) with (S754_zero false).
  destruct (Prim2SF v) as [s|s| |s m e]; eauto; destruct s; discriminate.
Qed.

(** The neutral arm runs when the pseudo-gradient is a zero or a NaN, and
    when the previous gradient is a zero. *)
Lemma branch_of_flat (gp pg : float) :
  (pg <? 0) = false -> (0 <? pg) = false -> branch_of gp pg = Neutral.
Proof.
  intros H1 H2. unfold branch_of. cbn [d_ltb d_mul d_zero binary64].
  rewrite !FloatAxioms.ltb_spec, mul_spec. change (Prim2SF 0) with (S754_zero false).
  destruct (flat_cases pg H1 H2) as [->|[s ->]];
    destruct (Prim2SF gp) as [sg|sg| |sg mg eg]; reflexivity.
Qed.

Lemma branch_of_zero_gp (gp pg : float) :
  (gp =? 0) = true -> branch_of gp pg = Neutral.
Proof.
  intros H1. unfold branch_of. cbn [d_ltb d_mul d_zero binary64].
  rewrite !FloatAxioms.ltb_spec, mul_spec. change (Prim2SF 0) with (S754_zero false).
  rewrite FloatAxioms.eqb_spec in H1. change (Prim2SF 0) with (S754_zero false) in H1.
  destruct (Prim2SF gp) as [sg|[|]| |[|] mg eg]; try discriminate.
  destruct (Prim2SF pg) as [s|s| |s m e]; reflexivity.
Qed.

Lemma sign_flat (v : float) :
  (v <? 0) = false -> (0 <? v) = false -> sign v = 0.
Proof. intros H1 H2. unfold sign. cbn. now rewrite H1, H2. Qed.

(** A finite [s >= 0] is a zero or a positive number. *)
Lemma finite_cases (s : float) :
  (0 <=? s) = true -> (s <? infinity) = true ->
  (exists b, Prim2SF s = S754_zero b) \/ exists m e, Prim2SF s = S754_finite false m e.
Proof.
  rewrite leb_spec, FloatAxioms.ltb_spec.
  change (Prim2SF 0) with (S754_zero false).
  change (Prim2SF infinity) with (S754_infinity false).
  destruct (Prim2SF s) as [b|b| |b m e]; try discriminate; eauto.
  - destruct b; discriminate.
  - destruct b; [discriminate|]. eauto.
Qed.

(** The product of a finite [s >= 0] by a zero is a zero. *)
Lemma finite_mul_zero (s z : float) :
  (0 <=? s) = true -> (s <? infinity) = true ->
  (exists b, Prim2SF z = S754_zero b) -> exists b, Prim2SF (s * z) = S754_zero b.
Proof.
  intros H0 Hf [b Hz]. rewrite mul_spec, Hz.
  destruct (finite_cases s H0 Hf) as [[b' ->]|(m & e & ->)]; cbn; eauto.
Qed.

Lemma zero_eqb (z : float) :
  (exists b, Prim2SF z = S754_zero b) -> (z =? 0) = true.
Proof. intros [b Hz]. rewrite FloatAxioms.eqb_spec, Hz. reflexivity. Qed.

(** Adding a zero to [x] gives [x], up to the sign of a zero. *)
Lemma add_zero_eqb (x z : float) :
  (exists b, Prim2SF z = S754_zero b) -> is_nan x = false -> (x + z =? x) = true.
Proof.
  intros [b Hz]. unfold is_nan.
  rewrite !FloatAxioms.eqb_spec, add_spec, Hz.
  destruct (Prim2SF x) as [s|s| |s m e]; try discriminate; intros _.
  - destruct s, b; reflexivity.
  - destruct s; reflexivity.
  - cbn. unfold SFeqb, SFcompare.
    rewrite Z.compare_refl, Pos.compare_cont_refl. now destruct s.
Qed.

(** A sum or a difference with a NaN, and a NaN itself, are neither below
    nor above zero. *)
Lemma nan_flat (g : float) :
  is_nan g = true ->
  ((g <? 0) = false /\ (0 <? g) = false) /\
  (forall r, (g + r <? 0) = false /\ (0 <? g + r) = false) /\
  (forall r, (g - r <? 0) = false /\ (0 <? g - r) = false).
Proof.
  unfold is_nan. rewrite FloatAxioms.eqb_spec. intros Hg.
  assert (E : Prim2SF g = S754_nan).
  { destruct (Prim2SF g) as [s|s| |s m e]; try reflexivity; exfalso.
    - now destruct s.
    - now destruct s.
    - revert Hg. unfold SFeqb, SFcompare.
      rewrite Z.compare_refl, Pos.compare_cont_refl. now destruct s. }
  split; [|split]; intros; rewrite !FloatAxioms.ltb_spec, ?add_spec, ?sub_spec, E;
    split; reflexivity.
Qed.

End Flat.

(** The step sizes of a run are finite and not negative, under the options
    of C3. *)
Lemma in_bounds64_finite (o : opt float) (s : float) :
  sane_opt64 o = true -> in_bounds64 o s = true ->
  ((0 <=? s) = true /\ (s <? infinity) = true)%float.
Proof.
  intros Ho Hs. destruct (sane_opt64_facts o Ho) as (H0 & _ & _ & Hfin & _).
  unfold in_bounds64 in Hs. apply andb_prop in Hs as [Hlo Hhi]. split.
  - now apply (float_leb_trans _ (stpmin o)).
  - now apply (float_leb_ltb_trans _ (stpmax o)).
Qed.

Lemma reachable_in_bounds64 (o : opt float) (F : Z) (m : mem float) (f : nat)
    (c : cell float) :
  sane_opt64 o = true -> reachable o F m -> load m f = Some c ->
  in_bounds64 o (cstp c) = true.
Proof.
  intros Ho Hm Hc.
  apply (cell_invariant_reachable o (fun c => in_bounds64 o (cstp c) = true))
    with (F := F) (m := m) (f := f); auto.
  - intros x g dlt. now apply in_bounds64_init.
  - intros c0 Hc0.
    apply (ok_rprop_cell o (fun s => in_bounds64 o s = true)); auto.
    + intros s. now apply in_bounds64_inc.
    + intros s. now apply in_bounds64_dec.
Qed.

Section Slopes.
Local Open Scope float_scope.

(** ** Where the slope is flat *)

(** X6. With L1 enabled and the options of C3, in any state of a run, a
    weight that is zero and whose gradient lies between [-rho1] and [rho1]
    (it is neither below [-rho1] nor above [rho1]) has the pseudo-gradient
    [0.0]: its update takes the neutral arm, stores the delta [0.0], leaves
    the weight at [0.0] exactly and does not change the step size. *)
Theorem l1_keeps_zero_weight (o : opt float) (F : Z) (m : mem float) (f : nat)
    (c : cell float) :
  sane_opt64 o = true -> reachable o F m -> load m f = Some c ->
  l1 o = true -> (cx c =? 0) = true ->
  (cg c <? - rho1 o) = false -> (rho1 o <? cg c) = false ->
  cell_branch o c = Neutral /\
  cx (rprop_cell o c) = 0 /\ cdlt (rprop_cell o c) = 0 /\
  cstp (rprop_cell o c) = cstp c.
Proof.
  intros Ho Hm Hc Hl1 Hx Hlo Hhi.
  destruct (in_bounds64_finite o (cstp c) Ho (reachable_in_bounds64 o F m f c Ho Hm Hc))
    as [H0 Hf].
  assert (Hx' : (cx c <? 0) = false /\ (0 <? cx c) = false).
  { pose proof (float_sign_cases (cx c)) as Hs. rewrite Hx in Hs.
    destruct (cx c <? 0), (0 <? cx c), (is_nan (cx c)); try contradiction. auto. }
  destruct Hx' as [Hx1 Hx2].
  assert (Hpg : pseudo_gradient o (cx c) (cg c) = 0).
  { unfold pseudo_gradient. cbn [d_ltb d_zero d_neg binary64].
    now rewrite Hl1, Hx1, Hx2, Hlo, Hhi. }
  assert (Hb : branch_of (cgp c) 0 = Neutral) by now apply branch_of_flat.
  assert (Hd : project o (cstp c * - sign 0) 0 = 0).
  { unfold project. rewrite Hl1. cbn [andb d_leb d_mul d_zero binary64].
    assert (Hz : exists b, Prim2SF (cstp c * - sign 0) = S754_zero b).
    { apply finite_mul_zero; auto. exists true. reflexivity. }
    destruct Hz as [b Hz].
    assert (E : (0 <=? cstp c * - sign 0 * 0) = true).
    { rewrite leb_spec, mul_spec, Hz. now destruct b. }
    now rewrite E. }
  unfold cell_branch, rprop_cell, rprop_arm. rewrite Hpg, Hb.
  cbn [carry cx cdlt cstp d_mul d_neg d_add binary64]. rewrite Hd.
  repeat split.
  apply Prim2SF_inj. cbn [d_add binary64]. rewrite add_spec.
  rewrite FloatAxioms.eqb_spec in Hx.
  change (Prim2SF 0) with (S754_zero false) in *.
  destruct (Prim2SF (cx c)) as [s|[|]| |[|] mx ex]; try discriminate.
  now destruct s.
Qed.

Lemma l1_keeps_zero_weight_witness :
  let o := MkOpt 1e-6 50 1.2 0.5 0.5 in
  let c := MkCell 0 0.25 1 0.1 (-0.1) in
  cell_branch o c = Neutral /\
  cx (rprop_cell o c) = 0 /\ cdlt (rprop_cell o c) = 0 /\
  cstp (rprop_cell o c) = cstp c.
Proof.
  apply (l1_keeps_zero_weight (MkOpt 1e-6 50 1.2 0.5 0.5) 1%Z
           (set_grad [0.25] (trn_rpropsub (MkOpt 1e-6 50 1.2 0.5 0.5) 1 0 1
              (MkMem [0.1] [1] [0] [0.1] [0]))) 0%nat);
    try (vm_compute; reflexivity).
  apply reach_gradient; [reflexivity|]. apply reach_update.
  apply (reach_init _ _ [0.1] [1] [0]); reflexivity.
Defined.

(** X7. An update whose pseudo-gradient is neither below nor above zero (it
    is a zero or a NaN), on a step size that is finite and not negative,
    takes the neutral arm, stores a delta that is a zero, adds it to the
    weight, which so keeps its value (unless it is a NaN), and leaves the
    step size alone.  It is so whenever the gradient is a NaN, whatever the
    weight and the L1 penalty. *)
Theorem flat_slope_keeps_weight :
  (forall (o : opt float) (c : cell float),
     let pg := pseudo_gradient o (cx c) (cg c) in
     let c' := rprop_cell o c in
     (0 <=? cstp c) = true -> (cstp c <? infinity) = true ->
     (pg <? 0) = false -> (0 <? pg) = false ->
     cell_branch o c = Neutral /\ cstp c' = cstp c /\ (cdlt c' =? 0) = true /\
     cx c' = cx c + cdlt c' /\ (is_nan (cx c) = false -> (cx c' =? cx c) = true)) /\
  (forall (o : opt float) (x g : float),
     is_nan g = true ->
     (pseudo_gradient o x g <? 0) = false /\ (0 <? pseudo_gradient o x g) = false).
Proof.
  split.
  - intros o c pg c' H0 Hf H1 H2.
    assert (Hb : cell_branch o c = Neutral) by now apply branch_of_flat.
    assert (Hz : exists b, Prim2SF (cdlt c') = S754_zero b).
    { subst c'. unfold rprop_cell, rprop_arm. unfold cell_branch in Hb. rewrite Hb.
      cbn [carry cdlt]. fold pg. rewrite (sign_flat pg H1 H2).
      unfold project. destruct (l1 o && _); [exists false; reflexivity|].
      apply finite_mul_zero; auto. exists true. reflexivity. }
    split; [exact Hb|]. split.
    { subst c'. unfold rprop_cell, rprop_arm. unfold cell_branch in Hb.
      now rewrite Hb. }
    split; [now apply zero_eqb|].
    assert (Hx : cx c' = cx c + cdlt c').
    { subst c'. unfold rprop_cell, rprop_arm. unfold cell_branch in Hb.
      now rewrite Hb. }
    split; [exact Hx|]. intros Hn. rewrite Hx. now apply add_zero_eqb.
  - intros o x g Hg. destruct (nan_flat g Hg) as (Hg0 & Hadd & Hsub).
    unfold pseudo_gradient. cbn [d_ltb d_add d_sub d_zero d_neg binary64].
    destruct (l1 o); [|exact Hg0].
    destruct (x <? 0); [apply Hsub|].
    destruct (0 <? x); [apply Hadd|].
    destruct (g <? - rho1 o); [apply Hadd|].
    destruct (rho1 o <? g); [apply Hsub|].
    split; reflexivity.
Qed.

Lemma flat_slope_keeps_weight_witness :
  let o := MkOpt 1e-6 50 1.2 0.5 0.5 in
  let c := MkCell 0.75 nan 1 0.12 (-0.12) in
  cell_branch o c = Neutral /\ cstp (rprop_cell o c) = cstp c /\
  (cdlt (rprop_cell o c) =? 0) = true /\
  cx (rprop_cell o c) = cx c + cdlt (rprop_cell o c) /\
  (is_nan (cx c) = false -> (cx (rprop_cell o c) =? cx c) = true).
Proof.
  pose (o := MkOpt 1e-6 50 1.2 0.5 0.5).
  pose (c := MkCell 0.75 nan 1 0.12 (-0.12)).
  destruct (proj2 flat_slope_keeps_weight o (cx c) (cg c) eq_refl) as [H1 H2].
  exact (proj1 flat_slope_keeps_weight o c eq_refl eq_refl H1 H2).
Defined.

(** ** The step size and the arm *)

(** X8. Under the options of C3, in any state of a run, the update of a
    feature does not lower its step size when it takes the agree arm, does
    not raise it when it takes the disagree arm, and leaves it as it is when
    it takes the neutral arm, rounding included. *)
Theorem step_follows_the_arm (o : opt float) (F : Z) (m : mem float) (f : nat)
    (c : cell float) :
  sane_opt64 o = true -> reachable o F m -> load m f = Some c ->
  match cell_branch o c with
  | Agree => (cstp c <=? cstp (rprop_cell o c)) = true
  | Disagree => (cstp (rprop_cell o c) <=? cstp c) = true
  | Neutral => cstp (rprop_cell o c) = cstp c
  end.
Proof.
  intros Ho Hm Hc.
  pose proof (reachable_in_bounds64 o F m f c Ho Hm Hc) as Hs.
  destruct (in_bounds64_finite o (cstp c) Ho Hs) as [H0 Hf].
  destruct (sane_opt64_facts o Ho) as (_ & _ & _ & _ & Hinc & Hd0 & Hd1).
  unfold in_bounds64 in Hs. apply andb_prop in Hs as [Hlo Hhi].
  unfold cell_branch, rprop_cell, rprop_arm.
  destruct (branch_of _ _); cbn [carry cstp]; [| |reflexivity].
  - unfold d_min. cbn [d_ltb d_mul binary64].
    destruct (cstp c * stpinc o <? stpmax o) eqn:Hlt; [|exact Hhi].
    apply float_mul_ge; auto.
    apply float_ltb_leb in Hlt. now apply (float_leb_refl_l _ (stpmax o)).
  - unfold d_max. cbn [d_ltb d_mul binary64].
    destruct (cstp c * stpdec o <? stpmin o) eqn:Hlt; [exact Hlo|].
    now apply float_mul_le.
Qed.

Lemma step_follows_the_arm_witness :
  let o := MkOpt 1e-6 50 1.2 0.5 0 in
  let c := MkCell (-0.22) (-1) 1 0.12 (-0.12) in
  cell_branch o c = Disagree /\ (cstp (rprop_cell o c) <=? cstp c) = true.
Proof.
  pose (o := MkOpt 1e-6 50 1.2 0.5 0).
  pose (c := MkCell (-0.22) (-1) 1 0.12 (-0.12)).
  assert (Hb : cell_branch o c = Disagree) by (vm_compute; reflexivity).
  split; [exact Hb|].
  assert (Hm : reachable o 1
                 (set_grad [-1] (trn_rpropsub o 1 0 1
                    (set_grad [1] (trn_rpropsub o 1 0 1 (MkMem [0] [1] [0] [0.1] [0])))))).
  { apply reach_gradient; [reflexivity|]. apply reach_update.
    apply reach_gradient; [reflexivity|]. apply reach_update.
    apply (reach_init _ _ [0] [1] [0]); reflexivity. }
  pose proof (step_follows_the_arm o 1 _ 0%nat c eq_refl Hm eq_refl) as H.
  rewrite Hb in H. exact H.
Defined.

(** A [double] that is not a NaN compares with itself. *)
Lemma float_leb_refl (a : float) : is_nan a = false -> (a <=? a) = true.
Proof.
  unfold is_nan. rewrite leb_spec, FloatAxioms.eqb_spec. unfold SFleb, SFeqb.
  destruct (SFcompare _ _) as [[| |]|]; cbn; congruence.
Qed.

(** X15. Whatever the options and the state, each of the two arms that
    change the step size clamps it on its own side: the agree arm leaves a
    step size that is not above [stpmax], unless [stpmax] is a NaN, and the
    disagree arm one that is not below [stpmin], unless [stpmin] or the
    product [stp * stpdec] is a NaN.  Neither arm looks at the other bound:
    that the step size stays between the two needs the options of C3. *)
Theorem arms_clamp_the_step (o : opt float) (c : cell float) :
  (cell_branch o c = Agree -> is_nan (stpmax o) = false ->
   (cstp (rprop_cell o c) <=? stpmax o) = true) /\
  (cell_branch o c = Disagree -> is_nan (stpmin o) = false ->
   is_nan (cstp c * stpdec o) = false ->
   (stpmin o <=? cstp (rprop_cell o c)) = true).
Proof.
  unfold cell_branch, rprop_cell, rprop_arm. split; intros ->; cbn [carry cstp].
  - intros Hmax. unfold d_min. cbn [d_ltb d_mul binary64].
    destruct (cstp c * stpinc o <? stpmax o) eqn:Hlt.
    + now apply float_ltb_leb.
    + now apply float_leb_refl.
  - intros Hmin Ha. unfold d_max. cbn [d_ltb d_mul binary64].
    destruct (cstp c * stpdec o <? stpmin o) eqn:Hlt.
    + now apply float_leb_refl.
    + apply float_nlt_leb; auto using float_leb_refl.
Qed.

Lemma arms_clamp_the_step_witness :
  let o := MkOpt 0.2 0.11 1.2 0.5 0 in
  (cstp (rprop_cell o (MkCell (-0.1) 1 1 0.1 (-0.1))) <=? stpmax o) = true /\
  (stpmin o <=? cstp (rprop_cell o (MkCell (-0.1) (-1) 1 0.1 (-0.1)))) = true.
Proof.
  pose (o := MkOpt 0.2 0.11 1.2 0.5 0).
  split.
  - exact (proj1 (arms_clamp_the_step o (MkCell (-0.1) 1 1 0.1 (-0.1))) eq_refl eq_refl).
  - exact (proj2 (arms_clamp_the_step o (MkCell (-0.1) (-1) 1 0.1 (-0.1)))
             eq_refl eq_refl eq_refl).
Defined.

(** ** The reach of an update *)

Lemma SFopp_round (s : bool) (m e : Z) (l : location) :
  SFopp (binary_round_aux prec emax s m e l) = binary_round_aux prec emax (negb s) m e l.
Proof.
  unfold binary_round_aux.
  destruct (shr_fexp prec emax m e l) as [mrs e'].
  destruct (shr_fexp prec emax _ e' loc_Exact) as [mrs' e''].
  destruct (shr_m mrs'); [reflexivity| |reflexivity].
  now destruct (e'' <=? emax - prec)%Z.
Qed.

Lemma SFmul_opp_r (x y : spec_float) : SF64mul x (SFopp y) = SFopp (SF64mul x y).
Proof.
  unfold SF64mul.
  destruct x as [sx|sx| |sx mx ex], y as [sy|sy| |sy my ey]; cbn [SFmul SFopp];
    rewrite <- ?negb_xorb_r; try reflexivity.
  symmetry. apply SFopp_round.
Qed.

(** The product by an opposite is the opposite of the product, exactly. *)
Lemma float_mul_opp_r (a b : float) : a * - b = - (a * b).
Proof.
  apply Prim2SF_inj. rewrite opp_spec, !mul_spec, opp_spec. apply SFmul_opp_r.
Qed.

(** Opposites compare the other way round. *)
Lemma float_opp_leb (a b : float) : (- a <=? - b) = (b <=? a).
Proof.
  rewrite !leb_spec, !opp_spec.
  destruct (Prim2SF a) as [sa|sa| |sa ma ea], (Prim2SF b) as [sb|sb| |sb mb eb];
    try destruct sa; try destruct sb; try reflexivity;
    unfold SFleb, SFcompare, SFopp; cbn [negb];
    rewrite (Z.compare_antisym ea eb); destruct (ea ?= eb)%Z; cbn [CompOpp];
    try reflexivity;
    rewrite ?Pos.compare_cont_antisym; cbn [CompOpp];
    destruct (Pos.compare_cont _ _ _); reflexivity.
Qed.

(** Both [a] and [-a] are within reach when [0 <= a <= stpmax]. *)
Lemma in_reach64_pm (o : opt float) (a : float) :
  (0 <=? a) = true -> (a <=? stpmax o) = true ->
  in_reach64 o a = true /\ in_reach64 o (- a) = true.
Proof.
  intros H0 Ha.
  assert (HM : (0 <=? stpmax o) = true) by now apply (float_leb_trans _ a).
  unfold in_reach64. split; apply andb_true_intro; split.
  - apply (float_leb_trans _ 0); [now apply float_opp_nonneg | exact H0].
  - exact Ha.
  - now rewrite float_opp_leb.
  - apply (float_leb_trans _ 0); [now apply float_opp_nonneg | exact HM].
Qed.

Section Reach.
Variable o : opt float.
Hypothesis sane : sane_opt64 o = true.

(** The tentative delta of a step within the bounds is within reach: it is
    the step, its opposite or a zero, rounded towards zero if at all. *)
Lemma in_reach64_tentative (s v : float) :
  in_bounds64 o s = true -> in_reach64 o (s * - sign v) = true.
Proof using sane.
  intros Hs. destruct (in_bounds64_finite o s sane Hs) as [H0 Hf].
  unfold in_bounds64 in Hs. apply andb_prop in Hs as [_ Hhi].
  assert (Hb : forall b, (0 <=? b) = true -> (b <=? 1) = true ->
            in_reach64 o (s * b) = true /\ in_reach64 o (- (s * b)) = true).
  { intros b Hb0 Hb1. destruct (float_mul_le s b) as [Hle Hge]; auto.
    apply in_reach64_pm; [exact Hge|]. now apply (float_leb_trans _ s). }
  unfold sign. cbn [d_ltb d_neg d_one d_zero binary64].
  destruct (v <? 0).
  - change (- - 1) with 1. now apply Hb.
  - destruct (0 <? v); rewrite float_mul_opp_r; now apply Hb.
Qed.

Lemma in_reach64_zero : in_reach64 o 0 = true.
Proof using sane.
  destruct (sane_opt64_facts o sane) as (_ & _ & H1 & _).
  apply in_reach64_pm; [reflexivity|].
  now apply (float_leb_trans _ 0.1).
Qed.

Lemma in_reach64_project (d pg : float) :
  in_reach64 o d = true -> in_reach64 o (project o d pg) = true.
Proof using sane.
  intros Hd. unfold project. destruct (l1 o && _); [apply in_reach64_zero | exact Hd].
Qed.

(** The delta an update leaves, when the one it found was within reach or
    the previous gradient was zero. *)
Lemma in_reach64_rprop_cell (c : cell float) :
  in_bounds64 o (cstp c) = true ->
  (cgp c =? 0) = true \/ in_reach64 o (cdlt c) = true ->
  in_reach64 o (cdlt (rprop_cell o c)) = true.
Proof using sane.
  intros Hs Hc. unfold rprop_cell, rprop_arm.
  destruct (branch_of _ _) eqn:Hb; cbn [carry cdlt].
  - apply in_reach64_project, in_reach64_tentative. now apply in_bounds64_inc.
  - destruct Hc as [Hgp|Hd]; [|exact Hd].
    rewrite (branch_of_zero_gp _ _ Hgp) in Hb. discriminate.
  - now apply in_reach64_project, in_reach64_tentative.
Qed.

End Reach.

(** X9. Under the options of C3, in any state of a run, the delta that the
    update of a feature stores, which the agree and the neutral arm add to
    the weight and the disagree arm takes back from it, lies between
    [-stpmax] and [stpmax]: no update moves a weight by more than the
    largest step.  The delta found in the arrays is within that reach as
    soon as the previous gradient is not zero, whatever [xvm_new] left there
    at the start. *)
Theorem deltas_stay_within_stpmax (o : opt float) (F : Z) (m : mem float) (f : nat)
    (c : cell float) :
  sane_opt64 o = true -> reachable o F m -> load m f = Some c ->
  in_reach64 o (cdlt (rprop_cell o c)) = true /\
  ((cgp c =? 0) = false -> in_reach64 o (cdlt c) = true).
Proof.
  intros Ho Hm Hc.
  assert (Hinv : in_bounds64 o (cstp c) = true /\
                 ((cgp c =? 0) = true \/ in_reach64 o (cdlt c) = true)).
  { apply (cell_invariant_reachable o
             (fun c => in_bounds64 o (cstp c) = true /\
                       ((cgp c =? 0) = true \/ in_reach64 o (cdlt c) = true)))
      with (F := F) (m := m) (f := f); auto.
    - intros x g dlt. split; [now apply in_bounds64_init | now left].
    - intros c0 [Hs Hd]. split.
      + apply (ok_rprop_cell o (fun s => in_bounds64 o s = true)); auto.
        * intros s. now apply in_bounds64_inc.
        * intros s. now apply in_bounds64_dec.
      + right. now apply in_reach64_rprop_cell. }
  destruct Hinv as [Hs Hd]. split.
  - now apply in_reach64_rprop_cell.
  - intros Hgp. destruct Hd as [Hd|Hd]; [congruence | exact Hd].
Qed.

Lemma deltas_stay_within_stpmax_witness :
  let o := MkOpt 1e-6 0.11 1.2 0.5 0 in
  let c := MkCell (-0.21000000000000002) (-1) 1 0.11 (-0.11) in
  in_reach64 o (cdlt (rprop_cell o c)) = true /\
  ((cgp c =? 0) = false -> in_reach64 o (cdlt c) = true).
Proof.
  pose (o := MkOpt 1e-6 0.11 1.2 0.5 0).
  apply (deltas_stay_within_stpmax o 1
           (set_grad [-1] (trn_rpropsub o 1 0 1
              (set_grad [1] (trn_rpropsub o 1 0 1 (MkMem [0] [1] [0] [0.1] [0])))))
           0%nat).
  - reflexivity.
  - apply reach_gradient; [reflexivity|]. apply reach_update.
    apply reach_gradient; [reflexivity|]. apply reach_update.
    apply (reach_init _ _ [0] [1] [0]); reflexivity.
  - vm_compute. reflexivity.
Defined.

End Slopes.

(** ** Signs and magnitudes *)

(** Scaling by a positive factor does not move a rational across zero. *)
Lemma Qltb_scale (p q : Q) :
  (0 < p)%Q -> Qltb (p * q) 0 = Qltb q 0 /\ Qltb 0 (p * q) = Qltb 0 q.
Proof.
  intros Hp.
  pose proof (Qltb_cases (p * q) 0) as H1. pose proof (Qltb_cases q 0) as H2.
  pose proof (Qltb_cases 0 (p * q)) as H3. pose proof (Qltb_cases 0 q) as H4.
  destruct (Qltb (p * q) 0), (Qltb q 0), (Qltb 0 (p * q)), (Qltb 0 q);
    split; try reflexivity; exfalso; nra.
Qed.

Lemma sign_scale (a g : Q) : (0 < a)%Q -> sign (a * g)%Q = sign g.
Proof.
  intros Ha. unfold sign. cbn [d_ltb d_zero exactQ].
  destruct (Qltb_scale a g Ha) as [-> ->]. reflexivity.
Qed.

Lemma branch_of_scale (a b gp g : Q) :
  (0 < a)%Q -> (0 < b)%Q -> branch_of (b * gp)%Q (a * g)%Q = branch_of gp g.
Proof.
  intros Ha Hb. unfold branch_of. cbn [d_ltb d_mul d_zero exactQ].
  assert (Hab : (0 < a * b)%Q) by nra.
  destruct (Qltb_scale (a * b) (gp * g) Hab) as [E1 E2].
  assert (E : (b * gp * (a * g) == a * b * (gp * g))%Q) by ring.
  assert (E1' : Qltb (b * gp * (a * g)) 0 = Qltb (a * b * (gp * g)) 0).
  { unfold Qltb. now rewrite E. }
  assert (E2' : Qltb 0 (b * gp * (a * g)) = Qltb 0 (a * b * (gp * g))).
  { unfold Qltb. now rewrite E. }
  now rewrite E1', E2', E1, E2.
Qed.

(** X16. In exact arithmetic and without L1, the update of a feature reads
    the gradient and the previous gradient through their signs only:
    multiplying the one and the other by positive factors changes neither
    the arm taken nor the weight, the step size and the delta that the update
    leaves.  In binary64 the product [gp * pg] that tells the arms apart can
    underflow: with [gp = g = 1e-200] it is [0.0] and the neutral arm runs,
    where [gp = g = 1] takes the agree arm and enlarges the step. *)
Theorem only_signs_matter :
  (forall (o : opt Q) (c : cell Q) (a b : Q),
     (rho1 o == 0)%Q -> (0 < a)%Q -> (0 < b)%Q ->
     let c' := MkCell (cx c) (a * cg c)%Q (b * cgp c)%Q (cstp c) (cdlt c) in
     cell_branch o c' = cell_branch o c /\
     cx (rprop_cell o c') = cx (rprop_cell o c) /\
     cstp (rprop_cell o c') = cstp (rprop_cell o c) /\
     cdlt (rprop_cell o c') = cdlt (rprop_cell o c)) /\
  (let o := MkOpt 1e-6 50 1.2 0.5 0 in
   let c := MkCell 0 1 1 0.1 0 in
   let c' := MkCell 0 1e-200 1e-200 0.1 0 in
   cell_branch o c = Agree /\ cell_branch o c' = Neutral /\
   cstp (rprop_cell o c) = 0.12 /\ cstp (rprop_cell o c') = 0.1)%float.
Proof.
  split; [|vm_compute; repeat split].
  intros o c a b Hr Ha Hb c'.
  assert (Hl1 : l1 o = false).
  { unfold l1. cbn [d_eqb d_zero exactQ]. apply negb_false_iff.
    now apply Qeq_bool_iff. }
  assert (Hpg : forall x g, pseudo_gradient o x g = g).
  { intros x g. unfold pseudo_gradient. now rewrite Hl1. }
  assert (Hb' : cell_branch o c' = cell_branch o c).
  { unfold cell_branch. rewrite !Hpg. subst c'. cbn [cx cg cgp].
    now apply branch_of_scale. }
  split; [exact Hb'|].
  unfold cell_branch in Hb'. unfold rprop_cell, rprop_arm.
  rewrite Hb'. rewrite !Hpg. subst c'. cbn [cx cg cgp cstp cdlt].
  unfold project. rewrite Hl1. cbn [andb].
  rewrite (sign_scale a (cg c) Ha).
  destruct (branch_of (cgp c) (cg c)); cbn; auto.
Qed.

Lemma only_signs_matter_witness :
  (let o := MkOpt (1 # 1000000) 50 (12 # 10) (5 # 10) 0 in
   let c := MkCell (-1 # 10) 1 1 (1 # 10) (-1 # 10) in
   let c' := MkCell (cx c) ((1 # 1000) * cg c) (700 * cgp c) (cstp c) (cdlt c) in
   cell_branch o c' = cell_branch o c /\
   cx (rprop_cell o c') = cx (rprop_cell o c) /\
   cstp (rprop_cell o c') = cstp (rprop_cell o c) /\
   cdlt (rprop_cell o c') = cdlt (rprop_cell o c))%Q.
Proof.
  apply (proj1 only_signs_matter
           (MkOpt (1 # 1000000) 50 (12 # 10) (5 # 10) 0)%Q
           (MkCell (-1 # 10) 1 1 (1 # 10) (-1 # 10))%Q (1 # 1000)%Q 700%Q);
    reflexivity.
Defined.

(** * Properties of the lines of input and output *)

(** ** [iol_gets] *)

(** *** Plain bytes *)
Lemma plain_byte_spec (b : byte) :
  plain_byte b = true -> Byte.eqb b newline = false /\ Byte.eqb b nul = false.
Proof.
  unfold plain_byte. intros Hb. apply andb_prop in Hb as [H1 H2].
  apply negb_true_iff in H1, H2. auto.
Qed.

Lemma plain_app (l k : list byte) : plain (l ++ k) = plain l && plain k.
Proof. apply forallb_app. Qed.

Lemma plain_take (n : nat) (l : list byte) : plain l = true -> plain (take n l) = true.
Proof.
  revert n. induction l as [|b l IH]; intros [|n]; cbn; auto.
  intros Hl. apply andb_prop in Hl as [-> Hl]. cbn. auto.
Qed.

Lemma plain_drop (n : nat) (l : list byte) : plain l = true -> plain (drop n l) = true.
Proof.
  revert n. induction l as [|b l IH]; intros [|n]; cbn; auto.
  intros Hl. apply andb_prop in Hl as [_ Hl]. auto.
Qed.

(** *** What [fgets] reads

    From plain bytes [fgets] takes as many as it was asked for, when there
    are that many; else all of them and the new-line that follows; else all
    of them, and it hits the end of the input. *)
Lemma read_chunk_plain (k : nat) (l tail : list byte) :
  plain l = true -> (k <= length l)%nat ->
  read_chunk k (l ++ tail) = (take k l, drop k l ++ tail, false).
Proof.
  revert l. induction k as [|k IH]; intros l Hl Hk; [now destruct l|].
  destruct l as [|b l]; [cbn in Hk; lia|].
  cbn in Hl. apply andb_prop in Hl as [Hb Hl].
  apply plain_byte_spec in Hb as [Hb _]. cbn. rewrite Hb.
  rewrite IH by (cbn in Hk; auto with lia). reflexivity.
Qed.

Lemma read_chunk_line (k : nat) (l rest : list byte) :
  plain l = true -> (length l < k)%nat ->
  read_chunk k (l ++ newline :: rest) = (l ++ [newline], rest, false).
Proof.
  revert l. induction k as [|k IH]; intros l Hl Hk; [lia|].
  destruct l as [|b l]; [reflexivity|].
  cbn in Hl. apply andb_prop in Hl as [Hb Hl].
  apply plain_byte_spec in Hb as [Hb _]. cbn. rewrite Hb.
  rewrite IH by (cbn in Hk; auto with lia). reflexivity.
Qed.

Lemma read_chunk_end (k : nat) (l : list byte) :
  plain l = true -> (length l < k)%nat -> read_chunk k l = (l, [], true).
Proof.
  revert l. induction k as [|k IH]; intros l Hl Hk; [lia|].
  destruct l as [|b l]; [reflexivity|].
  cbn in Hl. apply andb_prop in Hl as [Hb Hl].
  apply plain_byte_spec in Hb as [Hb _]. cbn. rewrite Hb.
  rewrite IH by (cbn in Hk; auto with lia). reflexivity.
Qed.

Lemma read_chunk_cons (k : nat) (b : byte) (l : list byte) :
  Byte.eqb b newline = false ->
  read_chunk (S k) (b :: l) = let '(c, r, e) := read_chunk k l in (b :: c, r, e).
Proof. intros Hb. cbn [read_chunk]. now rewrite Hb. Qed.

(** No null character cuts plain bytes short. *)
Lemma c_string_plain (l tail : list byte) :
  plain l = true -> c_string (l ++ tail) = l ++ c_string tail.
Proof.
  induction l as [|b l IH]; [reflexivity|]. cbn. intros Hl.
  apply andb_prop in Hl as [Hb Hl]. apply plain_byte_spec in Hb as [_ ->].
  now rewrite IH.
Qed.

Lemma c_string_plain_id (l : list byte) : plain l = true -> c_string l = l.
Proof.
  intros Hl. rewrite <- (app_nil_r l) at 1.
  rewrite c_string_plain by assumption. apply app_nil_r.
Qed.

(** *** The sizes of the buffer *)
Lemma grow_range (size size' : Z) : grow size = Some size' -> 0 <= size' < 2 ^ 32.
Proof.
  unfold grow. destruct (float_to_Z _) as [z|]; [|discriminate].
  destruct (Z.leb_spec 0 z); [|discriminate].
  destruct (Z.ltb_spec z (2 ^ 32)); [|discriminate].
  cbn. intros [= <-]. lia.
Qed.

(** A shorter line fits where a longer one does. *)
Lemma fits_mono (k : nat) (size t t' : Z) :
  t <= t' -> fits k size t' = true -> fits k size t = true.
Proof.
  revert size. induction k as [|k IH]; intros size Ht; cbn.
  - rewrite !orb_false_r. intros H%Z.ltb_lt. apply Z.ltb_lt. lia.
  - intros H. apply orb_prop in H as [H%Z.ltb_lt|H].
    + apply orb_true_intro. left. apply Z.ltb_lt. lia.
    + apply orb_true_intro. right.
      destruct (grow size) as [size'|]; [|discriminate].
      apply andb_prop in H as [-> H]. cbn. now apply IH.
Qed.

(** From 16 bytes the buffer grows 57 times, to 3179820411 bytes, each size
    larger than the one before; the next size is not a [uint32_t]. *)
Lemma fits_longest : fits 57 16 longest_line = true.
Proof. vm_compute. reflexivity. Qed.

Lemma chain_16 : chain 57 16 = true.
Proof. vm_compute. reflexivity. Qed.

Lemma to_uint32_small (z : Z) : 0 <= z < 2 ^ 32 -> to_uint32 z = z.
Proof. apply Z.mod_small. Qed.

(** The last test of [iol_gets] on a buffer that ends with a new-line. *)
Lemma iol_gets_end_newline (b : list byte) (f : file) :
  Z.of_nat (length b) + 1 < 2 ^ 32 ->
  iol_gets_end (Z.of_nat (length b) + 1) (b ++ [newline]) f = (Returns (Some b), f).
Proof.
  intros Hb. unfold iol_gets_end.
  replace (Z.of_nat (length b) + 1 - 1) with (Z.of_nat (length b)) by lia.
  rewrite to_uint32_small, Nat2Z.id by lia.
  rewrite list_lookup_middle by reflexivity.
  change (Byte.eqb newline newline) with true. cbn.
  now rewrite take_app_length.
Qed.

(** The same on a buffer that ends with another byte. *)
Lemma iol_gets_end_other (b : list byte) (x : byte) (f : file) :
  Z.of_nat (length b) + 1 < 2 ^ 32 -> Byte.eqb x newline = false ->
  iol_gets_end (Z.of_nat (length b) + 1) (b ++ [x]) f = (Returns (Some (b ++ [x])), f).
Proof.
  intros Hb Hx. unfold iol_gets_end.
  replace (Z.of_nat (length b) + 1 - 1) with (Z.of_nat (length b)) by lia.
  rewrite to_uint32_small, Nat2Z.id by lia.
  rewrite list_lookup_middle by reflexivity.
  now rewrite Hx.
Qed.

(** Plain bytes that are not empty have a last one. *)
Lemma plain_snoc (l : list byte) :
  plain l = true -> l <> [] ->
  exists l0 x, l = l0 ++ [x] /\ plain l0 = true /\ plain_byte x = true.
Proof.
  intros Hl Hne. destruct l as [|b l] using rev_ind; [contradiction|].
  exists l, b. rewrite plain_app in Hl. cbn in Hl.
  apply andb_prop in Hl as [H1 H2]. rewrite andb_true_r in H2. auto.
Qed.

(** And on plain bytes. *)
Lemma iol_gets_end_plain (b : list byte) (f : file) :
  plain b = true -> b <> [] -> Z.of_nat (length b) < 2 ^ 32 ->
  iol_gets_end (Z.of_nat (length b)) b f = (Returns (Some b), f).
Proof.
  intros Hb Hne Hlen.
  destruct (plain_snoc b Hb Hne) as (l0 & x & -> & _ & Hx).
  apply plain_byte_spec in Hx as [Hx _].
  rewrite length_app in *. cbn [length] in *.
  replace (Z.of_nat (length l0 + 1)) with (Z.of_nat (length l0) + 1) in * by lia.
  apply iol_gets_end_other; [lia | exact Hx].
Qed.

(** One turn of the loop that fills the buffer without reaching the end of
    the line. *)
Lemma iol_gets_loop_full (fuel : nat) (size size' : Z) (buffer l tail : list byte)
    (fl ef : bool) :
  let len := Z.of_nat (length buffer) in
  let k := Z.to_nat (size - len - 1) in
  len + 1 < size -> size < 2 ^ 32 -> plain l = true -> (k <= length l)%nat ->
  grow size = Some size' ->
  iol_gets_loop (S fuel) len size buffer (MkFile (l ++ tail) fl ef) =
  iol_gets_loop fuel (size - 1) size' (buffer ++ take k l)
    (MkFile (drop k l ++ tail) fl ef).
Proof.
  intros len k Hlen Hsize Hl Hk Hg. cbn [iol_gets_loop].
  rewrite (to_uint32_small (size - len)) by lia.
  unfold fgets. cbn [pending failing error_flag].
  replace (Z.to_nat (size - len - 1)) with k by reflexivity.
  rewrite read_chunk_plain by assumption.
  unfold strlen. rewrite (c_string_plain_id (take k l)) by now apply plain_take.
  assert (Hlk : length (take k l) = k) by (rewrite length_take; lia).
  rewrite Hlk.
  assert (Hk' : Z.of_nat k = size - len - 1) by (subst k; lia).
  rewrite (to_uint32_small (len + Z.of_nat k)) by lia.
  rewrite (to_uint32_small (size - 1)) by lia.
  replace (len + Z.of_nat k) with (size - 1) by lia.
  rewrite Z.eqb_refl.
  rewrite (to_uint32_small (size - 1 - 1)) by lia.
  destruct (plain_snoc (take k l)) as (c0 & x & Ec & _ & Hx).
  { now apply plain_take. }
  { intros E. rewrite E in Hlk. cbn in Hlk. lia. }
  rewrite Ec, app_assoc.
  rewrite list_lookup_middle.
  2:{ rewrite length_app. rewrite Ec, length_app in Hlk. cbn in Hlk. subst len. lia. }
  apply plain_byte_spec in Hx as [-> _]. cbn [negb].
  now rewrite Hg.
Qed.

(** A line that does not fit the buffer fits a later one. *)
Lemma fits_step (k : nat) (size t : Z) :
  fits k size t = true -> size <= t + 1 ->
  exists k' size', k = S k' /\ grow size = Some size' /\ size < size' /\
    fits k' size' t = true.
Proof.
  destruct k as [|k]; cbn; intros H Ht.
  - rewrite orb_false_r in H. apply Z.ltb_lt in H. lia.
  - apply orb_prop in H as [H%Z.ltb_lt|H]; [lia|].
    destruct (grow size) as [size'|]; [|discriminate].
    apply andb_prop in H as [H1%Z.ltb_lt H2]. exists k, size'. auto.
Qed.

(** *** A line and its new-line

    The loop, entered with [buffer] read and a buffer of [size] bytes, on
    the plain bytes [l] followed by a new-line. *)
Lemma iol_gets_loop_line (k : nat) :
  forall (fuel : nat) (size : Z) (buffer l rest : list byte) (fl ef : bool),
  fits k size (Z.of_nat (length buffer + length l)) = true ->
  (k < fuel)%nat ->
  Z.of_nat (length buffer) + 1 < size -> size < 2 ^ 32 -> plain l = true ->
  iol_gets_loop fuel (Z.of_nat (length buffer)) size buffer
    (MkFile (l ++ newline :: rest) fl ef) =
  (Returns (Some (buffer ++ l)), MkFile rest fl ef).
Proof.
  induction k as [k IH] using lt_wf_ind.
  intros fuel size buffer l rest fl ef Hfit Hfuel Hlen Hsize Hl.
  destruct fuel as [|fuel]; [lia|].
  set (len := Z.of_nat (length buffer)) in *.
  destruct (Z_lt_le_dec (len + Z.of_nat (length l) + 1) size) as [Hshort|Hlong].
  - (* the rest of the line and its new-line fit *)
    cbn [iol_gets_loop]. rewrite (to_uint32_small (size - len)) by lia.
    unfold fgets. cbn [pending failing error_flag].
    rewrite read_chunk_line by (auto; lia).
    unfold strlen. rewrite c_string_plain by assumption.
    change (c_string [newline]) with [newline].
    rewrite length_app. cbn [length].
    rewrite (to_uint32_small (size - 1)) by lia.
    rewrite (to_uint32_small (len + _)) by lia.
    rewrite app_assoc.
    assert (E : len + Z.of_nat (length l + 1) = Z.of_nat (length (buffer ++ l)) + 1).
    { rewrite length_app. subst len. lia. }
    rewrite E.
    assert (Hb : Z.of_nat (length (buffer ++ l)) + 1 < 2 ^ 32).
    { rewrite length_app. subst len. lia. }
    destruct (_ =? _).
    + replace (Z.of_nat (length (buffer ++ l)) + 1 - 1)
        with (Z.of_nat (length (buffer ++ l))) by lia.
      rewrite to_uint32_small, Nat2Z.id by lia.
      rewrite list_lookup_middle by reflexivity.
      change (Byte.eqb newline newline) with true. cbn [negb].
      now apply iol_gets_end_newline.
    + now apply iol_gets_end_newline.
  - (* the buffer fills up first *)
    subst len.
    destruct (fits_step k size _ Hfit) as (k' & size' & -> & Hg & Hlt & Hfit'); [lia|].
    pose proof (grow_range _ _ Hg) as Hr.
    rewrite (iol_gets_loop_full fuel size size' buffer l (newline :: rest) fl ef)
      by (auto; lia).
    set (c := Z.to_nat (size - Z.of_nat (length buffer) - 1)) in *.
    assert (Hb : Z.of_nat (length (buffer ++ take c l)) = size - 1).
    { rewrite length_app, length_take. lia. }
    rewrite <- Hb. rewrite (IH k'); auto with lia.
    + now rewrite <- app_assoc, take_drop.
    + rewrite !length_app, length_take, length_drop.
      replace (length buffer + c `min` length l + (length l - c))%nat
        with (length buffer + length l)%nat by lia.
      exact Hfit'.
    + now apply plain_drop.
Qed.

(** *** The end of the input

    The same, on the plain bytes [l] followed by the end of the file, or by
    a read error. *)
Lemma iol_gets_loop_last (k : nat) :
  forall (fuel : nat) (size : Z) (buffer l : list byte) (fl : bool),
  fits k size (Z.of_nat (length buffer + length l)) = true ->
  (k < fuel)%nat ->
  Z.of_nat (length buffer) + 1 < size -> size < 2 ^ 32 ->
  plain buffer = true -> plain l = true ->
  iol_gets_loop fuel (Z.of_nat (length buffer)) size buffer (MkFile l fl false) =
  if fl then (Fatal "cannot read from file", MkFile [] true true)
  else (Returns (match buffer ++ l with [] => None | _ => Some (buffer ++ l) end),
        MkFile [] false false).
Proof.
  induction k as [k IH] using lt_wf_ind.
  intros fuel size buffer l fl Hfit Hfuel Hlen Hsize Hb Hl.
  destruct fuel as [|fuel]; [lia|].
  destruct (Z_lt_le_dec (Z.of_nat (length buffer) + Z.of_nat (length l) + 1) size)
    as [Hshort|Hlong].
  - (* the end of the input comes before the buffer is full *)
    cbn [iol_gets_loop]. rewrite (to_uint32_small (size - _)) by lia.
    unfold fgets. cbn [pending failing error_flag].
    rewrite read_chunk_end by (auto; lia).
    destruct fl; [reflexivity|].
    destruct l as [|b l].
    + cbn [ferror error_flag]. rewrite app_nil_r.
      destruct buffer as [|b0 buffer]; [reflexivity|].
      change (Z.of_nat (length (b0 :: buffer)) =? 0) with false. cbv iota.
      apply iol_gets_end_plain; [assumption | discriminate | lia].
    + unfold strlen.
      rewrite (c_string_plain_id (b :: l)) by assumption.
      rewrite (to_uint32_small (size - 1)) by lia.
      rewrite (to_uint32_small (_ + _)) by lia.
      destruct (Z.eqb_spec (Z.of_nat (length buffer) + Z.of_nat (length (b :: l))) (size - 1))
        as [E|_]; [lia|].
      replace (Z.of_nat (length buffer) + Z.of_nat (length (b :: l)))
        with (Z.of_nat (length (buffer ++ b :: l))) by (rewrite length_app; lia).
      rewrite iol_gets_end_plain.
      * now destruct buffer.
      * rewrite plain_app, Hb. exact Hl.
      * now destruct buffer.
      * rewrite length_app. lia.
  - (* the buffer fills up first *)
    destruct (fits_step k size _ Hfit) as (k' & size' & -> & Hg & Hlt & Hfit'); [lia|].
    pose proof (grow_range _ _ Hg) as Hr.
    rewrite <- (app_nil_r l) at 1.
    rewrite (iol_gets_loop_full fuel size size' buffer l [] fl false) by (auto; lia).
    rewrite app_nil_r.
    set (c := Z.to_nat (size - Z.of_nat (length buffer) - 1)) in *.
    assert (Hlb : Z.of_nat (length (buffer ++ take c l)) = size - 1).
    { rewrite length_app, length_take. lia. }
    rewrite <- Hlb. rewrite (IH k'); auto with lia.
    + now rewrite <- app_assoc, take_drop.
    + rewrite !length_app, length_take, length_drop.
      replace (length buffer + c `min` length l + (length l - c))%nat
        with (length buffer + length l)%nat by lia.
      exact Hfit'.
    + rewrite plain_app, Hb. now apply plain_take.
    + now apply plain_drop.
Qed.

(** *** Any input *)
Lemma semi_cons (b : byte) (p : list byte) :
  plain_byte b = true -> semi p -> semi (b :: p).
Proof.
  intros Hb [->|(p0 & x & -> & Hp & Hx)]; right.
  - exists [], b. apply plain_byte_spec in Hb as [_ Hb]. auto.
  - exists (b :: p0), x. split; [reflexivity|]. split; [|assumption].
    change (plain (b :: p0)) with (plain_byte b && plain p0). now rewrite Hb, Hp.
Qed.

Lemma semi_app (b p : list byte) : plain b = true -> semi p -> semi (b ++ p).
Proof.
  induction b as [|x b IH]; [auto|]. cbn. intros Hb Hp.
  apply andb_prop in Hb as [Hx Hb]. apply semi_cons; auto.
Qed.

Lemma plain_semi (b : list byte) : plain b = true -> semi b.
Proof. intros Hb. rewrite <- (app_nil_r b). apply semi_app; [assumption | now left]. Qed.

(** What [strlen] finds after [fgets] is [semi], and no longer than what
    [fgets] was asked for. *)
Lemma read_chunk_semi (k : nat) :
  forall (l c r : list byte) (e : bool),
  read_chunk k l = (c, r, e) ->
  semi (c_string c) /\ (length (c_string c) <= k)%nat.
Proof.
  induction k as [|k IH]; intros l c r e.
  - cbn. intros [= <- _ _]. split; [now left | reflexivity].
  - cbn. destruct l as [|b l].
    + intros [= <- _ _]. split; [now left | cbn; lia].
    + destruct (Byte.eqb b newline) eqn:Hb.
      * intros [= <- _ _]. apply byte_dec_bl in Hb as ->. cbn. split; [|lia].
        right. exists [], newline. auto.
      * destruct (read_chunk k l) as [[c' r'] e'] eqn:E.
        intros [= <- _ _]. destruct (IH _ _ _ _ E) as [Hs Hlen]. cbn.
        destruct (Byte.eqb b nul) eqn:Hn; [split; [now left | cbn; lia]|].
        split; [|cbn; lia]. apply semi_cons; [|assumption].
        unfold plain_byte. now rewrite Hb, Hn.
Qed.

Lemma fgets_semi (n : Z) (f f' : file) (chunk : list byte) :
  fgets n f = (Some chunk, f') ->
  semi (c_string chunk) /\ (length (c_string chunk) <= Z.to_nat (n - 1))%nat.
Proof.
  unfold fgets. destruct (read_chunk _ _) as [[c r] e] eqn:E.
  apply read_chunk_semi in E.
  destruct e; [destruct (failing f); [discriminate|]; destruct c; [discriminate|]|];
    intros [= <- _]; exact E.
Qed.

(** The last test of [iol_gets] returns plain bytes, or reads outside the
    buffer. *)
Lemma iol_gets_end_sound (b : list byte) (f : file) :
  semi b -> Z.of_nat (length b) < 2 ^ 32 ->
  match fst (iol_gets_end (Z.of_nat (length b)) b f) with
  | Returns (Some r) => plain r = true
  | Returns None | OutOfFuel => False
  | _ => True
  end.
Proof.
  intros [->|(q & x & -> & Hq & Hx)] Hlen; [exact I|].
  rewrite length_app in *. cbn [length] in *.
  replace (Z.of_nat (length q + 1)) with (Z.of_nat (length q) + 1) in * by lia.
  destruct (Byte.eqb x newline) eqn:Hn.
  - apply byte_dec_bl in Hn as ->. rewrite iol_gets_end_newline by lia. exact Hq.
  - rewrite iol_gets_end_other by (auto; lia). cbn.
    rewrite plain_app, Hq. cbn. unfold plain_byte. now rewrite Hn, Hx.
Qed.

(** A buffer that grew is larger, and can grow less often. *)
Lemma chain_step (k : nat) (size size' : Z) :
  chain k size = true -> grow size = Some size' ->
  exists k', k = S k' /\ size < size' /\ chain k' size' = true.
Proof.
  destruct k as [|k]; cbn; intros H Hg; rewrite Hg in H.
  - now rewrite andb_false_r in H.
  - apply andb_prop in H as [H1%Z.ltb_lt H2]. exists k. auto.
Qed.

(** The loop ends, and returns plain bytes if it returns a line. *)
Lemma iol_gets_loop_sound (k : nat) :
  forall (fuel : nat) (size : Z) (buffer : list byte) (f : file),
  chain k size = true -> (k < fuel)%nat ->
  Z.of_nat (length buffer) + 1 < size -> size < 2 ^ 32 -> plain buffer = true ->
  match fst (iol_gets_loop fuel (Z.of_nat (length buffer)) size buffer f) with
  | Returns (Some r) => plain r = true
  | Returns None => buffer = []
  | OutOfFuel => False
  | _ => True
  end.
Proof.
  induction k as [k IH] using lt_wf_ind.
  intros fuel size buffer f Hchain Hfuel Hlen Hsize Hb.
  destruct fuel as [|fuel]; [lia|].
  cbn [iol_gets_loop]. rewrite (to_uint32_small (size - _)) by lia.
  destruct (fgets _ f) as [[chunk|] f'] eqn:E.
  - apply fgets_semi in E as [Hs Hl].
    unfold strlen. set (p := c_string chunk) in *. clearbody p.
    rewrite (to_uint32_small (size - 1)) by lia.
    rewrite (to_uint32_small (_ + _)) by lia.
    assert (Hbp : Z.of_nat (length buffer) + Z.of_nat (length p) =
                  Z.of_nat (length (buffer ++ p))) by (rewrite length_app; lia).
    pose proof (iol_gets_end_sound (buffer ++ p) f' (semi_app _ _ Hb Hs)) as Hend.
    rewrite Hbp.
    assert (Hend' :
      match fst (iol_gets_end (Z.of_nat (length (buffer ++ p))) (buffer ++ p) f') with
      | Returns (Some r) => plain r = true
      | Returns None => buffer = []
      | OutOfFuel => False
      | _ => True
      end).
    { specialize (Hend ltac:(lia)).
      destruct (fst (iol_gets_end _ _ _)) as [[r|]| | |]; auto. contradiction. }
    destruct (Z.eqb_spec (Z.of_nat (length (buffer ++ p))) (size - 1)) as [Efull|_];
      [|exact Hend'].
    destruct Hs as [Ep|(p0 & x & Ep & Hp0 & Hx)].
    { rewrite Ep, app_nil_r in Efull. lia. }
    rewrite Ep in *. rewrite app_assoc in *.
    rewrite length_app in Efull |- *. cbn [length] in Efull |- *.
    replace (Z.of_nat (length (buffer ++ p0) + 1) - 1)
      with (Z.of_nat (length (buffer ++ p0))) by lia.
    rewrite to_uint32_small, Nat2Z.id by lia.
    rewrite list_lookup_middle by reflexivity.
    destruct (Byte.eqb x newline) eqn:Hn; cbn [negb].
    { rewrite length_app in Hend'. exact Hend'. }
    destruct (grow size) as [size'|] eqn:Hg; [|exact I].
    destruct (chain_step _ _ _ Hchain Hg) as (k' & -> & Hlt & Hchain').
    pose proof (grow_range _ _ Hg) as Hr.
    assert (Hplain : plain ((buffer ++ p0) ++ [x]) = true).
    { rewrite !plain_app, Hb, Hp0. cbn. unfold plain_byte. now rewrite Hn, Hx. }
    specialize (IH k' ltac:(lia) fuel size' ((buffer ++ p0) ++ [x]) f' Hchain'
                  ltac:(lia)).
    rewrite !length_app in IH. cbn [length] in IH.
    rewrite !length_app in Efull.
    specialize (IH ltac:(lia) ltac:(lia) Hplain).
    rewrite !length_app.
    destruct (fst (iol_gets_loop _ _ _ _ _)) as [[r|]| | |]; auto.
    now destruct buffer, p0.
  - destruct (ferror f'); [exact I|].
    destruct (Z.eqb_spec (Z.of_nat (length buffer)) 0) as [E0|_].
    { cbn. now destruct buffer. }
    pose proof (iol_gets_end_sound buffer f' (plain_semi _ Hb) ltac:(lia)) as Hend.
    destruct (fst (iol_gets_end _ _ _)) as [[r|]| | |]; auto. contradiction.
Qed.

(** ** The lines [iol_gets] returns *)

(** X10. On a file whose next bytes are a line of at most 3179820409 bytes,
    none of them a null character, and its new-line, [iol_gets] returns the
    line without the new-line, whatever its length and however many times
    the buffer had to grow, and leaves the file just after the new-line; an
    empty line is returned as the empty string, not as a null pointer. *)
Theorem iol_gets_returns_the_line (l rest : list byte) (fl ef : bool) :
  plain l = true -> Z.of_nat (length l) <= longest_line ->
  iol_gets (MkFile (l ++ newline :: rest) fl ef) =
  (Returns (Some l), MkFile rest fl ef).
Proof.
  intros Hl Hlen. unfold iol_gets.
  apply (iol_gets_loop_line 57 64 16 [] l rest fl ef); try reflexivity; try lia; auto.
  apply (fits_mono _ _ _ longest_line); [exact Hlen | exact fits_longest].
Qed.

Lemma iol_gets_returns_the_line_witness :
  iol_gets (MkFile (["B"; "-"; "P"; "E"; "R"; " "; "b"; "o"; "u"; "m"; "e"; "n"; "o";
                     "t"; " "; "w"; "a"; "p"; "i"; "t"; "i"]%byte
                    ++ newline :: ["O"; "010"]%byte) false false) =
  (Returns (Some ["B"; "-"; "P"; "E"; "R"; " "; "b"; "o"; "u"; "m"; "e"; "n"; "o";
                  "t"; " "; "w"; "a"; "p"; "i"; "t"; "i"]%byte),
   MkFile ["O"; "010"]%byte false false).
Proof.
  apply iol_gets_returns_the_line; [reflexivity|].
  vm_compute. discriminate.
Defined.

(** X11. On a file whose remaining bytes are at most 3179820409, none of
    them a new-line or a null character, and whose error indicator is clear:
    if a read error follows them [iol_gets] ends the program with "cannot
    read from file" and returns no partial line; otherwise it returns a
    null pointer when no byte remains, and the remaining bytes, as the last
    line, when some do; the file is at its end. *)
Theorem iol_gets_at_end_of_input (l : list byte) (fl : bool) :
  plain l = true -> Z.of_nat (length l) <= longest_line ->
  iol_gets (MkFile l fl false) =
  if fl then (Fatal "cannot read from file", MkFile [] true true)
  else (Returns (match l with [] => None | _ => Some l end), MkFile [] false false).
Proof.
  intros Hl Hlen. unfold iol_gets.
  apply (iol_gets_loop_last 57 64 16 [] l fl); try reflexivity; try lia; auto.
  apply (fits_mono _ _ _ longest_line); [exact Hlen | exact fits_longest].
Qed.

Lemma iol_gets_at_end_of_input_witness :
  iol_gets (MkFile ["B"; "-"; "P"; "E"; "R"; " "; "b"; "o"; "u"; "m"; "e"; "n"; "o";
                    "t"; " "; "w"; "a"; "p"; "i"; "t"; "i"]%byte false false) =
  (Returns (Some ["B"; "-"; "P"; "E"; "R"; " "; "b"; "o"; "u"; "m"; "e"; "n"; "o";
                  "t"; " "; "w"; "a"; "p"; "i"; "t"; "i"]%byte),
   MkFile [] false false).
Proof.
  apply (iol_gets_at_end_of_input
           ["B"; "-"; "P"; "E"; "R"; " "; "b"; "o"; "u"; "m"; "e"; "n"; "o";
            "t"; " "; "w"; "a"; "p"; "i"; "t"; "i"]%byte false); [reflexivity|].
  vm_compute. discriminate.
Defined.

(** X12. On any file, whatever bytes it holds, the loop of [iol_gets] ends
    within 64 turns, and a line that [iol_gets] returns contains neither a
    new-line nor a null character. *)
Theorem iol_gets_result_is_plain (f : file) :
  fst (iol_gets f) <> OutOfFuel /\
  forall r, fst (iol_gets f) = Returns (Some r) -> plain r = true.
Proof.
  pose proof (iol_gets_loop_sound 57 64 16 [] f chain_16 ltac:(lia) ltac:(cbn; lia)
                ltac:(lia) eq_refl) as H.
  change (iol_gets_loop 64 (Z.of_nat (length [])) 16 [] f) with (iol_gets f) in H.
  destruct (fst (iol_gets f)) as [[r|]| | |]; split; try discriminate; try contradiction.
  now intros r' [= <-].
Qed.

Lemma iol_gets_result_is_plain_witness :
  plain ["a"; "b"]%byte = true.
Proof.
  apply (proj2 (iol_gets_result_is_plain
                  (MkFile ["a"; "b"; "000"; "c"; "010"; "d"]%byte false false))).
  vm_compute. reflexivity.
Defined.

(** X13. On a file that does not fail and whose next byte is a null
    character, [iol_gets] finds an empty string in its buffer and reads
    [buffer[len - 1]] with [len = 0], that is the index [4294967295] of an
    array of 16 bytes: its behaviour is undefined. *)
Theorem iol_gets_leading_nul (d : list byte) (ef : bool) :
  fst (iol_gets (MkFile (nul :: d) false ef)) = Undefined (OutOfBounds 4294967295).
Proof.
  unfold iol_gets. cbn [iol_gets_loop].
  change (to_uint32 (16 - 0)) with 16.
  unfold fgets. cbn [pending failing error_flag].
  change (Z.to_nat (16 - 1)) with 15%nat.
  rewrite (read_chunk_cons 14 nul d eq_refl).
  destruct (read_chunk 14 d) as [[c r] e]. destruct e; reflexivity.
Qed.

(** ** [iol_sprint] *)
(** One turn of the loop: the message fits and is forwarded, or the buffer
    is doubled. *)
Lemma iol_sprint_loop_fits (fuel : nat) (size : Z) (t : list byte) :
  0 < size < 16384 -> Z.of_nat (length t) < size ->
  iol_sprint_loop (S fuel) size (Some t) = Returns (t, Z.of_nat (length t)).
Proof.
  intros Hs Ht. cbn [iol_sprint_loop vsnprintf].
  destruct (Z.leb_spec 16384 size); [lia|].
  destruct (Z.leb_spec (Z.of_nat (length t)) int_max); [|unfold int_max in *; lia].
  destruct (Z.ltb_spec (-1) (Z.of_nat (length t))); [|lia].
  unfold to_size_t, size_max. rewrite Z.mod_small by lia.
  destruct (Z.ltb_spec (Z.of_nat (length t)) size); [|lia]. cbn.
  now rewrite take_ge by lia.
Qed.

Lemma iol_sprint_loop_grows (fuel : nat) (size : Z) (text : option (list byte)) :
  0 < size < 16384 ->
  match text with Some t => size <= Z.of_nat (length t) | None => True end ->
  iol_sprint_loop (S fuel) size text = iol_sprint_loop fuel (size * 2) text.
Proof.
  intros Hs Ht. cbn [iol_sprint_loop].
  destruct (Z.leb_spec 16384 size); [lia|].
  assert (E : to_size_t (size * 2) = size * 2).
  { unfold to_size_t, size_max. apply Z.mod_small. lia. }
  rewrite E. destruct text as [t|]; cbn [vsnprintf]; [|reflexivity].
  destruct (Z.leb_spec (Z.of_nat (length t)) int_max); [|reflexivity].
  destruct (Z.ltb_spec (-1) (Z.of_nat (length t))); [|lia].
  unfold to_size_t, size_max. rewrite Z.mod_small by (unfold int_max in *; lia).
  destruct (Z.ltb_spec (Z.of_nat (length t)) size); [lia|]. reflexivity.
Qed.

(** A message of 8192 bytes or more, or one that cannot be formatted, fits
    none of the buffers of 128 to 8192 bytes. *)
Lemma iol_sprint_too_long (text : option (list byte)) :
  match text with Some t => 8192 <= Z.of_nat (length t) | None => True end ->
  iol_sprint text = Fatal "iol_sprintf".
Proof.
  intros Ht. unfold iol_sprint.
  do 7 (rewrite iol_sprint_loop_grows by first [lia | destruct text; [lia | exact I]]).
  reflexivity.
Qed.

(** ** The messages [iol_sprint] forwards *)

(** X14. [iol_sprint] gives [write_cb] the formatted message and its length
    when the message has less than 8192 bytes; for a message of 8192 bytes
    or more, and when the message cannot be formatted, it ends the program
    with "iol_sprintf": the buffer of 16384 bytes is never tried. *)
Theorem iol_sprint_forwards_short_messages (text : option (list byte)) :
  iol_sprint text =
  match text with
  | Some t =>
      if Z.of_nat (length t) <? 8192 then Returns (t, Z.of_nat (length t))
      else Fatal "iol_sprintf"
  | None => Fatal "iol_sprintf"
  end.
Proof.
  destruct text as [t|]; [|now apply iol_sprint_too_long].
  destruct (Z.ltb_spec (Z.of_nat (length t)) 8192) as [Hlt|Hge];
    [|now apply iol_sprint_too_long].
  unfold iol_sprint.
  destruct (Z_lt_le_dec (Z.of_nat (length t)) 128);
    [apply iol_sprint_loop_fits; lia|rewrite iol_sprint_loop_grows by lia].
  destruct (Z_lt_le_dec (Z.of_nat (length t)) 256);
    [apply iol_sprint_loop_fits; lia|rewrite iol_sprint_loop_grows by lia].
  destruct (Z_lt_le_dec (Z.of_nat (length t)) 512);
    [apply iol_sprint_loop_fits; lia|rewrite iol_sprint_loop_grows by lia].
  destruct (Z_lt_le_dec (Z.of_nat (length t)) 1024);
    [apply iol_sprint_loop_fits; lia|rewrite iol_sprint_loop_grows by lia].
  destruct (Z_lt_le_dec (Z.of_nat (length t)) 2048);
    [apply iol_sprint_loop_fits; lia|rewrite iol_sprint_loop_grows by lia].
  destruct (Z_lt_le_dec (Z.of_nat (length t)) 4096);
    [apply iol_sprint_loop_fits; lia|rewrite iol_sprint_loop_grows by lia].
  apply iol_sprint_loop_fits; lia.
Qed.
